(** * Skolverket school mapper: address and coordinate resolution

    A shallow embedding of the resolution core of
    [extract_all_schools_googlemaps.py] and
    [extract_all_schools_nominatim_backup.py]: the two JSON-backed
    caches, [SchoolMapper.get_school_address],
    [SchoolMapper.geocode_address] (both providers) and the row loop of
    [main].

    Conventions of the embedding.
    - A Python [str] is the list of its code points ([list N]); [len] is
      [length], so that a Swedish street name counts characters, not
      bytes.  [str "..."] turns an ASCII literal into such a list.
    - [None]-or-value is [option]; Python truthiness is spelled out where
      the source relies on it ([if address:], [address or ...]).
    - The outside world (the school page server, the geocoder) is an
      oracle that may answer differently on every call: it is a function
      of the events that happened so far.  Every network call and every
      sleep is appended to that event trace; the file system is a map
      from path to text.
    - Coordinates and the merit value are Python numbers; the code only
      moves them around, so their type [num] is a parameter. *)

From Stdlib Require Import NArith String Ascii.
From stdpp Require Import gmap list option.

Set Default Proof Using "Type".
#[local] Set Warnings "-register-all".
Local Open Scope N_scope.

(** ** Python strings *)

Abbreviation pystr := (list N).

Fixpoint str (s : string) : pystr :=
  match s with
  | EmptyString => []
  | String a s' => N_of_ascii a :: str s'
  end.
Arguments str : simpl never.

(** [==] on strings. *)
Definition pystr_eqb (a b : pystr) : bool := bool_decide (a = b).

(** [str.isspace] on one character (the table of CPython's
    [_PyUnicode_IsWhitespace]); the [\s] class of [re] on [str] patterns
    is the same set. *)
Definition py_isspace (c : N) : bool :=
  ((9 <=? c) && (c <=? 13)) || ((28 <=? c) && (c <=? 32))
  || (c =? 133) || (c =? 160) || (c =? 5760)
  || ((8192 <=? c) && (c <=? 8202))
  || (c =? 8232) || (c =? 8233) || (c =? 8239) || (c =? 8287)
  || (c =? 12288).

Definition newline : N := 10.

Fixpoint lstrip (s : pystr) : pystr :=
  match s with
  | c :: s' => if py_isspace c then lstrip s' else s
  | [] => []
  end.

Definition rstrip (s : pystr) : pystr := rev (lstrip (rev s)).

(** [s.strip()] *)
Definition strip (s : pystr) : pystr := rstrip (lstrip s).

(** [text.split('\n')]: never empty, the empty text gives one empty
    line. *)
Fixpoint split_lines (s : pystr) : list pystr :=
  match s with
  | [] => [[]]
  | c :: s' =>
      if c =? newline then [] :: split_lines s'
      else match split_lines s' with
           | line :: rest => (c :: line) :: rest
           | [] => [[c]]
           end
  end.

(** [s.split()]: maximal runs of non-whitespace characters; [cur] is the
    run being read, most recent character first. *)
Fixpoint split_ws_from (cur : pystr) (s : pystr) : list pystr :=
  match s with
  | [] => match cur with [] => [] | _ => [rev cur] end
  | c :: s' =>
      if py_isspace c
      then match cur with
           | [] => split_ws_from [] s'
           | _ => rev cur :: split_ws_from [] s'
           end
      else split_ws_from (c :: cur) s'
  end.

Definition split_ws (s : pystr) : list pystr := split_ws_from [] s.

(** ** The fallback pattern: a backtracking matcher

    [re.search(r'Adress:?\s*([^\n]+)', text)].  A pattern of this shape
    is a sequence of one-character items, each with a quantifier; the
    items inside the parentheses contribute to group 1.  Quantifiers are
    greedy and give characters back one at a time, as in [re]. *)

Inductive quant := One | Opt | Star | Plus.

Record item := Item {
  accepts : N → bool;
  qty : quant;
  in_group : bool
}.

Definition keep (it : item) (c : N) (captured : pystr) : pystr :=
  if in_group it then c :: captured else captured.

(** [match_here items s]: match the whole item sequence at the start of
    [s]; on success the text of group 1. *)
Fixpoint match_here (items : list item) (s : pystr) : option pystr :=
  match items with
  | [] => Some []
  | it :: items' =>
      let many :=
        fix many (s : pystr) : option pystr :=
          match s with
          | c :: s' =>
              if accepts it c
              then match many s' with
                   | Some g => Some (keep it c g)
                   | None => match_here items' s
                   end
              else match_here items' s
          | [] => match_here items' s
          end in
      match qty it with
      | One =>
          match s with
          | c :: s' =>
              if accepts it c then keep it c <$> match_here items' s' else None
          | [] => None
          end
      | Opt =>
          match s with
          | c :: s' =>
              if accepts it c
              then match match_here items' s' with
                   | Some g => Some (keep it c g)
                   | None => match_here items' s
                   end
              else match_here items' s
          | [] => match_here items' s
          end
      | Star => many s
      | Plus =>
          match s with
          | c :: s' => if accepts it c then keep it c <$> many s' else None
          | [] => None
          end
      end
  end.

(** [re.search]: the first start position, from the left, at which the
    pattern matches. *)
Fixpoint re_search (items : list item) (s : pystr) : option pystr :=
  match match_here items s with
  | Some g => Some g
  | None => match s with
            | _ :: s' => re_search items s'
            | [] => None
            end
  end.

Definition lit (c : N) : item := Item (N.eqb c) One false.

(** [Adress:?\s*([^\n]+)] *)
Definition address_pattern : list item :=
  (lit <$> str "Adress")
  ++ [ Item (N.eqb 58) Opt false;
       Item py_isspace Star false;
       Item (λ c, negb (c =? newline)) Plus true ].

(** ** Address extraction from the page text *)

(** The [for i, line in enumerate(lines)] loop: a line that is exactly
    the label, a following line, and that line long enough. *)
Fixpoint scan_lines (lines : list pystr) : option pystr :=
  match lines with
  | line :: rest =>
      match rest with
      | next :: _ =>
          if pystr_eqb (strip line) (str "Adress")
          then let address_line := strip next in
               if negb (pystr_eqb address_line []) && (3 <? length address_line)%nat
               then Some address_line
               else scan_lines rest
          else scan_lines rest
      | [] => None
      end
  | [] => None
  end.

(** The [# Fallback pattern] block. *)
Definition fallback_pattern (text : pystr) : option pystr :=
  strip <$> re_search address_pattern text.

(** What the body of [if response.status_code == 200:] finds in the
    visible text of the page. *)
Definition extract_address (text : pystr) : option pystr :=
  match scan_lines (split_lines text) with
  | Some address_line => Some address_line
  | None => fallback_pattern text
  end.

(** ** Outcomes of a call *)

Inductive exn :=
| IndexError
| JSONDecodeError
| RecursionError
| RequestException
| GeocoderError.

Inductive result (A : Type) :=
| Ret (a : A)
| Raise (e : exn).
Arguments Ret {A} a.
Arguments Raise {A} e.

(** ** Python's [json] on the cache files

    [json.dump(obj, f, indent=2, ensure_ascii=False)] and [json.load(f)],
    after [json/encoder.py] and [json/decoder.py].  A text file holds the
    characters written to it: the model is of texts that the UTF-8
    layer of [open(..., encoding='utf-8')] can encode
    ([utf8_encodable] below); on another text [f.write] raises
    [UnicodeEncodeError], which the model does not follow. *)



(** How numbers are written and read: [float.__repr__]/[int.__repr__] as
    the encoder applies them, and the decoder's three hooks
    [parse_int], [parse_float] and [parse_constant]. *)
Class NumCodec (num : Type) := {
  num_repr : num → pystr;
  parse_int : pystr → num;
  parse_float : pystr → num;
  parse_constant : pystr → num
}.

Inductive pyobj (num : Type) :=
| PyNone
| PyBool (b : bool)
| PyNum (x : num)
| PyStr (s : pystr)
| PyList (items : list (pyobj num))
| PyDict (members : list (pystr * pyobj num)).
Arguments PyNone {num}.
Arguments PyBool {num} b.
Arguments PyNum {num} x.
Arguments PyStr {num} s.
Arguments PyList {num} items.
Arguments PyDict {num} members.

(** Internal outcome of the recursive-descent decoder; [Exhausted] is
    running out of recursion budget. *)
Inductive parse (A : Type) :=
| Parsed (a : A)
| Invalid
| Exhausted.
Arguments Parsed {A} a.
Arguments Invalid {A}.
Arguments Exhausted {A}.

Definition is_digit (c : N) : bool := (48 <=? c) && (c <=? 57).

Definition hex_digit (d : N) : N := if d <? 10 then 48 + d else 87 + d.

(** ['\\u{0:04x}'.format(i)] *)
Definition escape_u (c : N) : pystr :=
  str "\u" ++ [hex_digit (c / 4096 mod 16); hex_digit (c / 256 mod 16);
               hex_digit (c / 16 mod 16); hex_digit (c mod 16)].

(** [ESCAPE_DCT] applied to the characters [ESCAPE] selects: the quote,
    the backslash and the control characters below 0x20. *)
Definition escape_char (c : N) : pystr :=
  if c =? 34 then str "\" ++ [34]
  else if c =? 92 then str "\\"
  else if c =? 8 then str "\b"
  else if c =? 12 then str "\f"
  else if c =? 10 then str "\n"
  else if c =? 13 then str "\r"
  else if c =? 9 then str "\t"
  else if c <? 32 then escape_u c
  else [c].

(** [encode_basestring] *)
Definition encode_string (s : pystr) : pystr :=
  [34] ++ concat (escape_char <$> s) ++ [34].

(** ['\n' + _indent * level] with [indent=2] *)
Definition newline_indent (level : nat) : pystr :=
  newline :: replicate (2 * level) 32.

Fixpoint join (sep : pystr) (parts : list pystr) : pystr :=
  match parts with
  | [] => []
  | [p] => p
  | p :: rest => p ++ sep ++ join sep rest
  end.

Section Json.
Context {num : Type} `{NumCodec num}.

(** [_iterencode] at nesting depth [level]. *)
Fixpoint encode (level : nat) (o : pyobj num) : pystr :=
  match o with
  | PyNone => str "null"
  | PyBool true => str "true"
  | PyBool false => str "false"
  | PyNum x => num_repr x
  | PyStr s => encode_string s
  | PyList [] => str "[]"
  | PyList items =>
      let inner := S level in
      str "[" ++ newline_indent inner
        ++ join (str "," ++ newline_indent inner) (map (encode inner) items)
        ++ newline_indent level ++ str "]"
  | PyDict [] => str "{}"
  | PyDict members =>
      let inner := S level in
      str "{" ++ newline_indent inner
        ++ join (str "," ++ newline_indent inner)
             (map (λ kv, encode_string kv.1 ++ str ": " ++ encode inner kv.2) members)
        ++ newline_indent level ++ str "}"
  end.

(** [json.dumps(obj, indent=2, ensure_ascii=False)] *)
Definition json_dumps (o : pyobj num) : pystr := encode 0 o.

(** [WHITESPACE.match(s, end).end()] *)
Fixpoint skip_ws (s : pystr) : pystr :=
  match s with
  | c :: s' =>
      if (c =? 32) || (c =? 9) || (c =? 10) || (c =? 13) then skip_ws s' else s
  | [] => []
  end.

Fixpoint strip_prefix (p s : pystr) : option pystr :=
  match p, s with
  | [], _ => Some s
  | a :: p', b :: s' => if a =? b then strip_prefix p' s' else None
  | _ :: _, [] => None
  end.

Definition hex_value (c : N) : option N :=
  if is_digit c then Some (c - 48)
  else if (97 <=? c) && (c <=? 102) then Some (c - 87)
  else if (65 <=? c) && (c <=? 70) then Some (c - 55)
  else None.

(** [_decode_uXXXX]: exactly four hexadecimal digits. *)
Definition decode_uXXXX (h1 h2 h3 h4 : N) : option N :=
  match hex_value h1, hex_value h2, hex_value h3, hex_value h4 with
  | Some a, Some b, Some c, Some d => Some (((a * 16 + b) * 16 + c) * 16 + d)
  | _, _, _, _ => None
  end.

(** The [BACKSLASH] table. *)
Definition unescape (esc : N) : option N :=
  if esc =? 34 then Some 34
  else if esc =? 92 then Some 92
  else if esc =? 47 then Some 47
  else if esc =? 98 then Some 8
  else if esc =? 102 then Some 12
  else if esc =? 110 then Some 10
  else if esc =? 114 then Some 13
  else if esc =? 116 then Some 9
  else None.

Definition push (c : N) (r : option (pystr * pystr)) : option (pystr * pystr) :=
  match r with
  | Some (content, rest) => Some (c :: content, rest)
  | None => None
  end.

(** [scanstring(s, end, strict=True)], entered just after the opening
    quote: the decoded content and the text after the closing quote. *)
Fixpoint scanstring (s : pystr) : option (pystr * pystr) :=
  match s with
  | [] => None
  | c :: s1 =>
      if c =? 34 then Some ([], s1)
      else if c =? 92 then
        match s1 with
        | [] => None
        | esc :: s2 =>
            if esc =? 117 then
              match s2 with
              | h1 :: h2 :: h3 :: h4 :: s3 =>
                  match decode_uXXXX h1 h2 h3 h4 with
                  | None => None
                  | Some uni =>
                      if (55296 <=? uni) && (uni <=? 56319) then
                        match s3 with
                        | b :: u :: s4 =>
                            if (b =? 92) && (u =? 117) then
                              match s4 with
                              | g1 :: g2 :: g3 :: g4 :: s5 =>
                                  match decode_uXXXX g1 g2 g3 g4 with
                                  | None => None
                                  | Some uni2 =>
                                      if (56320 <=? uni2) && (uni2 <=? 57343)
                                      then push (65536 + ((uni - 55296) * 1024 + (uni2 - 56320)))
                                                (scanstring s5)
                                      else push uni (scanstring s3)
                                  end
                              | _ => None
                              end
                            else push uni (scanstring s3)
                        | _ => push uni (scanstring s3)
                        end
                      else push uni (scanstring s3)
                  end
              | _ => None
              end
            else
              match unescape esc with
              | Some ch => push ch (scanstring s2)
              | None => None
              end
        end
      else if c <? 32 then None
      else push c (scanstring s1)
  end.

Fixpoint span (p : N → bool) (s : pystr) : pystr * pystr :=
  match s with
  | c :: s' => if p c then let '(a, b) := span p s' in (c :: a, b) else ([], s)
  | [] => ([], [])
  end.

(** [NUMBER_RE.match], group by group.  The integer part: an optional
    minus sign, then either a single 0 or a digit 1-9 followed by any
    digits.  Each scanner returns its group and the text after it. *)
Definition scan_integer (s : pystr) : option (pystr * pystr) :=
  let '(sign, s1) := match s with
                     | c :: s' => if c =? 45 then ([45], s') else ([], s)
                     | [] => ([], s)
                     end in
  match s1 with
  | c :: s2 =>
      if c =? 48 then Some (sign ++ [48], s2)
      else if is_digit c
           then let '(ds, s3) := span is_digit s2 in Some (sign ++ c :: ds, s3)
           else None
  | [] => None
  end.

Definition scan_frac (s : pystr) : pystr * pystr :=
  match s with
  | dot :: d :: s' =>
      if (dot =? 46) && is_digit d
      then let '(ds, s'') := span is_digit s' in (dot :: d :: ds, s'')
      else ([], s)
  | _ => ([], s)
  end.

Definition scan_exp (s : pystr) : pystr * pystr :=
  match s with
  | e :: s1 =>
      if (e =? 101) || (e =? 69) then
        match s1 with
        | c :: s2 =>
            if is_digit c
            then let '(ds, s3) := span is_digit s2 in (e :: c :: ds, s3)
            else if (c =? 45) || (c =? 43) then
              match s2 with
              | d :: s3 =>
                  if is_digit d
                  then let '(ds, s4) := span is_digit s3 in (e :: c :: d :: ds, s4)
                  else ([], s)
              | [] => ([], s)
              end
            else ([], s)
        | [] => ([], s)
        end
      else ([], s)
  | [] => ([], s)
  end.

(** The number branch of [_scan_once]: [parse_float] when a fraction or
    an exponent is present, [parse_int] otherwise. *)
Definition scan_number (s : pystr) : option (num * pystr) :=
  match scan_integer s with
  | Some (integer, s1) =>
      let '(frac, s2) := scan_frac s1 in
      let '(exp, s3) := scan_exp s2 in
      match frac, exp with
      | [], [] => Some (parse_int integer, s3)
      | _, _ => Some (parse_float (integer ++ frac ++ exp), s3)
      end
  | None => None
  end.

(** [dict(pairs)]: a repeated key keeps its first position and takes
    the last value. *)
Fixpoint dict_set (k : pystr) (v : pyobj num) (d : list (pystr * pyobj num))
  : list (pystr * pyobj num) :=
  match d with
  | [] => [(k, v)]
  | (k', v') :: d' =>
      if pystr_eqb k k' then (k, v) :: d' else (k', v') :: dict_set k v d'
  end.

Definition dict_of_pairs (pairs : list (pystr * pyobj num)) : list (pystr * pyobj num) :=
  foldl (λ d kv, dict_set kv.1 kv.2 d) [] pairs.

(** [_scan_once], [JSONObject] and [JSONArray].  [object_members] is
    entered after the opening quote of a key, [array_items] at the
    start of an element; both carry what was read so far. *)
Fixpoint scan_once (fuel : nat) (s : pystr) {struct fuel} : parse (pyobj num * pystr) :=
  match fuel with
  | O => Exhausted
  | S fuel' =>
      match s with
      | [] => Invalid
      | c :: s' =>
          if c =? 34 then
            match scanstring s' with
            | Some (t, rest) => Parsed (PyStr t, rest)
            | None => Invalid
            end
          else if c =? 123 then
            match skip_ws s' with
            | q :: s1 =>
                if q =? 34 then object_members fuel' [] s1
                else if q =? 125 then Parsed (PyDict [], s1)
                else Invalid
            | [] => Invalid
            end
          else if c =? 91 then
            match skip_ws s' with
            | q :: s1 =>
                if q =? 93 then Parsed (PyList [], s1)
                else array_items fuel' [] (q :: s1)
            | [] => Invalid
            end
          else
            match strip_prefix (str "null") s with
            | Some rest => Parsed (PyNone, rest)
            | None =>
            match strip_prefix (str "true") s with
            | Some rest => Parsed (PyBool true, rest)
            | None =>
            match strip_prefix (str "false") s with
            | Some rest => Parsed (PyBool false, rest)
            | None =>
            match scan_number s with
            | Some (x, rest) => Parsed (PyNum x, rest)
            | None =>
            match strip_prefix (str "NaN") s with
            | Some rest => Parsed (PyNum (parse_constant (str "NaN")), rest)
            | None =>
            match strip_prefix (str "Infinity") s with
            | Some rest => Parsed (PyNum (parse_constant (str "Infinity")), rest)
            | None =>
            match strip_prefix (str "-Infinity") s with
            | Some rest => Parsed (PyNum (parse_constant (str "-Infinity")), rest)
            | None => Invalid
            end end end end end end end
      end
  end
with object_members (fuel : nat) (pairs : list (pystr * pyobj num)) (s : pystr)
       {struct fuel} : parse (pyobj num * pystr) :=
  match fuel with
  | O => Exhausted
  | S fuel' =>
      match scanstring s with
      | None => Invalid
      | Some (key, s1) =>
          match skip_ws s1 with
          | colon :: s2 =>
              if colon =? 58 then
                match scan_once fuel' (skip_ws s2) with
                | Parsed (value, s3) =>
                    let pairs' := pairs ++ [(key, value)] in
                    match skip_ws s3 with
                    | d :: s4 =>
                        if d =? 125 then Parsed (PyDict (dict_of_pairs pairs'), s4)
                        else if d =? 44 then
                          match skip_ws s4 with
                          | q :: s5 =>
                              if q =? 34 then object_members fuel' pairs' s5 else Invalid
                          | [] => Invalid
                          end
                        else Invalid
                    | [] => Invalid
                    end
                | Invalid => Invalid
                | Exhausted => Exhausted
                end
              else Invalid
          | [] => Invalid
          end
      end
  end
with array_items (fuel : nat) (values : list (pyobj num)) (s : pystr)
       {struct fuel} : parse (pyobj num * pystr) :=
  match fuel with
  | O => Exhausted
  | S fuel' =>
      match scan_once fuel' s with
      | Parsed (value, s1) =>
          let values' := values ++ [value] in
          match skip_ws s1 with
          | d :: s2 =>
              if d =? 93 then Parsed (PyList values', s2)
              else if d =? 44 then array_items fuel' values' (skip_ws s2)
              else Invalid
          | [] => Invalid
          end
      | Invalid => Invalid
      | Exhausted => Exhausted
      end
  end.

(** [json.loads(s)]: one value, surrounded by whitespace only.  The
    budget only makes the recursion structural: two units per character
    are enough for any text (lemma [json_loads_total]).  The
    interpreter's recursion limit is not modelled: on a text nested
    deeper than that limit [json.loads] raises [RecursionError], where
    this definition goes on decoding. *)
Definition json_loads (s : pystr) : result (pyobj num) :=
  match s with
  | 65279 :: _ => Raise JSONDecodeError
  | _ =>
      match scan_once (S (2 * length s)) (skip_ws s) with
      | Parsed (o, rest) =>
          match skip_ws rest with
          | [] => Ret o
          | _ :: _ => Raise JSONDecodeError
          end
      | Invalid => Raise JSONDecodeError
      | Exhausted => Raise RecursionError
      end
  end.

End Json.

(** Numbers identified with the literal Python prints for them; the
    instance used in the examples. *)
Definition literal_numbers : NumCodec pystr :=
  {| num_repr := id; parse_int := id; parse_float := id; parse_constant := id |}.

(** ** Effects: state, exceptions, the event trace *)

Definition M (W A : Type) : Type := W → result A * W.

Global Instance M_ret {W} : MRet (M W) := λ A a w, (Ret a, w).

Global Instance M_bind {W} : MBind (M W) := λ A B k c w,
  match c w with
  | (Ret a, w') => k a w'
  | (Raise e, w') => (Raise e, w')
  end.

Definition raise {W A} (e : exn) : M W A := λ w, (Raise e, w).

(** [try: body / except: handler]; what [body] did to the state before
    it raised stays done. *)
Definition try_except {W A} (body handler : M W A) : M W A := λ w,
  match body w with
  | (Ret a, w') => (Ret a, w')
  | (Raise _, w') => handler w'
  end.

Definition gets {W A} (f : W → A) : M W A := λ w, (Ret (f w), w).

Definition modify {W} (f : W → W) : M W unit := λ w, (Ret tt, f w).

Inductive event :=
| HttpGet (url : pystr)
| Geocode (query : pystr)
| Sleep (milliseconds : N).

(** The sleeps, the geocoder queries and the page requests among some
    events, in order. *)
Definition sleeps (events : list event) : list N :=
  omap (λ e, match e with Sleep ms => Some ms | _ => None end) events.

Definition queries (events : list event) : list pystr :=
  omap (λ e, match e with Geocode query => Some query | _ => None end) events.

Definition requests (events : list event) : list pystr :=
  omap (λ e, match e with HttpGet url => Some url | _ => None end) events.

(** What [session.get(url, timeout=10)] followed by
    [BeautifulSoup(response.text, 'html.parser').get_text()] gives: an
    exception, or a status code and the visible text of the page. *)
Inductive http_reply :=
| TransportError
| Response (status_code : N) (text : pystr).

(** What a geocoder call gives: an exception or its answer. *)
Inductive geo_reply (A : Type) :=
| ProviderError
| Answer (a : A).
Arguments ProviderError {A}.
Arguments Answer {A} a.

(** [x or default] for an optional string: [None] and the empty string
    are both false. *)
Definition py_or (x : option pystr) (default : pystr) : pystr :=
  match x with
  | Some (c :: s) => c :: s
  | _ => default
  end.

(** [f"{address or 'None'}|{municipality}"] *)
Definition cache_key (address : option pystr) (municipality : pystr) : pystr :=
  py_or address (str "None") ++ str "|" ++ municipality.

Definition address_file : pystr := str "address_cache.json".
Definition coord_file : pystr := str "coord_cache.json".

Record world (num : Type) := World {
  address_cache : gmap pystr (option pystr);
  coord_cache : gmap pystr (option (num * num));
  files : gmap pystr pystr;
  trace : list event
}.
Arguments World {num}.
Arguments address_cache {num}.
Arguments coord_cache {num}.
Arguments files {num}.
Arguments trace {num}.

(** A row of [schools_with_merit]; [Skol_enhetskod] is
    [str(row['Skol-enhetskod'])]. *)
Record school_row (num : Type) := SchoolRow {
  Skol_enhetskod : pystr;
  Skola : pystr;
  Skolkommun : pystr;
  row_merit_value : num
}.
Arguments SchoolRow {num}.
Arguments Skol_enhetskod {num}.
Arguments Skola {num}.
Arguments Skolkommun {num}.
Arguments row_merit_value {num}.

(** An element of [school_data]. *)
Record school_entry (num : Type) := SchoolEntry {
  school_id : pystr;
  school_name : pystr;
  municipality : pystr;
  address : pystr;
  merit_value : num;
  latitude : num;
  longitude : num
}.
Arguments SchoolEntry {num}.
Arguments school_id {num}.
Arguments school_name {num}.
Arguments municipality {num}.
Arguments address {num}.
Arguments merit_value {num}.
Arguments latitude {num}.
Arguments longitude {num}.

(** ** The part both scripts share: caches and address resolution *)

Section Shared.
Context {num : Type} `{NumCodec num}.

Definition log (e : event) : M (world num) unit :=
  modify (λ w, World (address_cache w) (coord_cache w) (files w) (trace w ++ [e])).

(** [time.sleep] *)
Definition sleep (milliseconds : N) : M (world num) unit := log (Sleep milliseconds).

(** [self.address_cache[school_id] = value] *)
Definition set_address (id : pystr) (value : option pystr) : M (world num) unit :=
  modify (λ w, World (<[id := value]> (address_cache w)) (coord_cache w)
                     (files w) (trace w)).

(** [self.coord_cache[cache_key] = value] *)
Definition set_coords (key : pystr) (value : option (num * num)) : M (world num) unit :=
  modify (λ w, World (address_cache w) (<[key := value]> (coord_cache w))
                     (files w) (trace w)).

(** The caches as the Python objects [json] sees.  The members come in
    the order of [map_to_list]; Python keeps insertion order, and
    compares dictionaries without regard to it. *)
Definition address_to_py (m : gmap pystr (option pystr)) : pyobj num :=
  PyDict ((λ kv, (kv.1, match kv.2 with
                        | Some a => PyStr a
                        | None => PyNone
                        end)) <$> map_to_list m).

Definition coords_to_py (m : gmap pystr (option (num * num))) : pyobj num :=
  PyDict ((λ kv, (kv.1, match kv.2 with
                        | Some (lat, lng) => PyList [PyNum lat; PyNum lng]
                        | None => PyNone
                        end)) <$> map_to_list m).

Definition py_to_address (o : pyobj num) : option (gmap pystr (option pystr)) :=
  match o with
  | PyDict d =>
      list_to_map <$>
        mapM (λ kv, match kv.2 with
                    | PyNone => Some (kv.1, None)
                    | PyStr a => Some (kv.1, Some a)
                    | _ => None
                    end) d
  | _ => None
  end.

Definition py_to_coords (o : pyobj num) : option (gmap pystr (option (num * num))) :=
  match o with
  | PyDict d =>
      list_to_map <$>
        mapM (λ kv, match kv.2 with
                    | PyNone => Some (kv.1, None)
                    | PyList [PyNum lat; PyNum lng] => Some (kv.1, Some (lat, lng))
                    | _ => None
                    end) d
  | _ => None
  end.

(** [load_address_cache] and [load_coord_cache]: the same three lines
    on two file names.  They run before the mapper exists and only
    read the file system. *)
Definition load_cache (path : pystr) (fs : gmap pystr pystr) : result (pyobj num) :=
  match fs !! path with
  | Some text => json_loads text
  | None => Ret (PyDict [])
  end.

Definition load_address_cache : gmap pystr pystr → result (pyobj num) :=
  load_cache address_file.

Definition load_coord_cache : gmap pystr pystr → result (pyobj num) :=
  load_cache coord_file.

(** [SchoolMapper.__init__], once the session and the geocoder client
    are set up (the Google Maps script reads its API key first): both
    caches are loaded.  A file that holds valid JSON of another shape
    than a cache has no counterpart among the worlds. *)
Definition SchoolMapper_init (fs : gmap pystr pystr) : result (option (world num)) :=
  match load_address_cache fs with
  | Raise e => Raise e
  | Ret addresses =>
      match load_coord_cache fs with
      | Raise e => Raise e
      | Ret coords =>
          Ret (a ← py_to_address addresses;
               c ← py_to_coords coords;
               Some (World a c fs []))
      end
  end.

(** [with open(path, 'w', encoding='utf-8') as f: json.dump(cache, f,
    indent=2, ensure_ascii=False)], for a text the codec can encode
    ([utf8_encodable]): the file then holds the text.  On a text with a
    surrogate in it the write raises [UnicodeEncodeError] and leaves
    the file cut short; the definitions do not follow that path. *)
Definition write_file (path text : pystr) : M (world num) unit :=
  modify (λ w, World (address_cache w) (coord_cache w) (<[path := text]> (files w))
                     (trace w)).

Definition save_address_cache : M (world num) unit :=
  cache ← gets address_cache;
  write_file address_file (json_dumps (address_to_py cache)).

Definition save_coord_cache : M (world num) unit :=
  cache ← gets coord_cache;
  write_file coord_file (json_dumps (coords_to_py cache)).

(** The school page server. *)
Variable page : list event → pystr → http_reply.

Definition session_get (url : pystr) : M (world num) (N * pystr) :=
  history ← gets trace;
  log (HttpGet url);;
  match page history url with
  | TransportError => raise RequestException
  | Response status_code text => mret (status_code, text)
  end.

Definition school_url (id : pystr) : pystr :=
  str "https://utbildningsguiden.skolverket.se/skolenhet?schoolUnitID=" ++ id.

Definition get_school_address (id : pystr) : M (world num) (option pystr) :=
  cache ← gets address_cache;
  match cache !! id with
  | Some cached => mret cached
  | None =>
      let url := school_url id in
      try_except
        (response ← session_get url;
         match (if response.1 =? 200 then extract_address response.2 else None) with
         | Some found => set_address id (Some found);; mret (Some found)
         | None => set_address id None;; mret None
         end)
        (set_address id None;; mret None)
  end.

End Shared.

(** ** Starting a script *)

(** What constructing a mapper raises: the [ValueError] of the Google
    Maps constructor, or what loading a cache raised. *)
Inductive init_exn :=
| ValueError
| Loading (e : exn).

(** [except ValueError]: [json.JSONDecodeError] is a subclass of
    [ValueError]; the other exceptions of the loader are not. *)
Definition is_ValueError (e : init_exn) : bool :=
  match e with
  | ValueError | Loading JSONDecodeError => true
  | Loading _ => false
  end.

Inductive init_result (A : Type) :=
| InitRaise (e : init_exn)
| InitRet (a : A).
Arguments InitRaise {A} e.
Arguments InitRet {A} a.

(** How far an entry point gets: the constructor's exception ends the
    script; or [main] prints the error and returns; or a cache file
    holds JSON that is no cache, which is not followed further; or the
    row loop runs. *)
Inductive run (A : Type) :=
| Uncaught (e : init_exn)
| Stopped
| NotACache
| Ran (a : A).
Arguments Uncaught {A} e.
Arguments Stopped {A}.
Arguments NotACache {A}.
Arguments Ran {A} a.

(** ** The cache-only mode: the row loop of [create_map_from_cache] *)

Section CacheOnly.
Context {num : Type}.

(** One turn: [address_cache.get(school_id)], [if not address:
    continue], the key [f"{address}|{municipality}"],
    [coord_cache.get(cache_key)], [if not cached_coords: continue], and
    the [append]. *)
Definition from_cache_row (mapper : world num) (row : school_row num)
    (school_data : list (school_entry num)) : list (school_entry num) :=
  let id := Skol_enhetskod row in
  match address_cache mapper !! id with
  | Some (Some (c :: tail)) =>
      let found := c :: tail in
      let key := found ++ str "|" ++ Skolkommun row in
      match coord_cache mapper !! key with
      | Some (Some (lat, lng)) =>
          school_data ++ [SchoolEntry id (Skola row) (Skolkommun row) found
                            (row_merit_value row) lat lng]
      | _ => school_data
      end
  | _ => school_data
  end.

Definition school_data_from_cache (mapper : world num) (rows : list (school_row num))
  : list (school_entry num) :=
  foldl (λ school_data row, from_cache_row mapper row school_data) [] rows.

End CacheOnly.

(** ** [extract_all_schools_googlemaps.py] *)

Module GoogleMaps.
Section GoogleMaps.
Context {num : Type} `{NumCodec num}.

Variable page : list event → pystr → http_reply.

(** [self.gmaps.geocode]: the list of results, each reduced to its
    [geometry.location] pair. *)
Variable gmaps : list event → pystr → geo_reply (list (num * num)).

Definition gmaps_geocode (query : pystr) : M (world num) (list (num * num)) :=
  history ← gets trace;
  log (Geocode query);;
  match gmaps history query with
  | ProviderError => raise GeocoderError
  | Answer results => mret results
  end.

(** [if address:] holds for a string that is not empty. *)
Definition search_addresses (addr : option pystr) (town : pystr) : list pystr :=
  match addr with
  | Some (c :: tail) =>
      let a := c :: tail in
      [ a ++ str ", " ++ town ++ str ", Sweden";
        a ++ str ", Sweden";
        town ++ str ", Sweden" ]
  | _ => [ town ++ str ", Sweden" ]
  end.

(** The [for search_addr in search_addresses] loop and the two lines
    after it. *)
Fixpoint try_addresses (key : pystr) (candidates : list pystr)
  : M (world num) (option (num * num)) :=
  match candidates with
  | [] => set_coords key None;; mret None
  | search_addr :: later =>
      returned ←
        try_except
          (results ← gmaps_geocode search_addr;
           match results with
           | (lat, lng) :: _ =>
               set_coords key (Some (lat, lng));; mret (Some (lat, lng))
           | [] => mret None
           end)
          (mret None);
      match returned with
      | Some coords => mret (Some coords)
      | None => try_addresses key later
      end
  end.

Definition geocode_address (addr : option pystr) (town : pystr)
  : M (world num) (option (num * num)) :=
  let key := cache_key addr town in
  cache ← gets coord_cache;
  match cache !! key with
  | Some (Some (lat, lng)) => mret (Some (lat, lng))
  | Some None => mret None
  | None => try_addresses key (search_addresses addr town)
  end.

(** One turn of the [for idx, (_, row) in enumerate(...)] loop of
    [main]; the counters and the progress report only feed [print]. *)
Definition process_row (idx : nat) (row : school_row num)
    (school_data : list (school_entry num)) : M (world num) (list (school_entry num)) :=
  let id := Skol_enhetskod row in
  cache ← gets address_cache;
  let was_cached := bool_decide (is_Some (cache !! id)) in
  addr ← get_school_address page id;
  coords ← geocode_address addr (Skolkommun row);
  let school_data :=
    match coords with
    | Some (lat, lng) =>
        school_data ++ [SchoolEntry id (Skola row) (Skolkommun row)
                          (py_or addr (Skolkommun row)) (row_merit_value row) lat lng]
    | None => school_data
    end in
  (if (idx mod 100 =? 0)%nat then save_address_cache;; save_coord_cache else mret ());;
  (if negb was_cached then sleep 200 else mret ());;
  mret school_data.

Fixpoint process_rows (idx : nat) (rows : list (school_row num))
    (school_data : list (school_entry num)) : M (world num) (list (school_entry num)) :=
  match rows with
  | [] => mret school_data
  | row :: rest =>
      school_data ← process_row idx row school_data;
      process_rows (S idx) rest school_data
  end.

(** Step 4 of [main]: the loop, then [# Save final caches]. *)
Definition resolve_all (rows : list (school_row num))
  : M (world num) (list (school_entry num)) :=
  school_data ← process_rows 0 rows [];
  save_address_cache;;
  save_coord_cache;;
  mret school_data.

(** [load_api_key]: the content of the key file, stripped; [None] when
    there is no such file. *)
Definition api_key_file : pystr := str "google_maps_api_key.txt".

Definition load_api_key (fs : gmap pystr pystr) : option pystr :=
  strip <$> fs !! api_key_file.

(** [googlemaps.Client(key=api_key)] raises [ValueError] for a key it
    refuses. *)
Variable client_accepts : pystr → bool.

(** [SchoolMapper.__init__]: the key first, then the client, then the
    two caches. *)
Definition SchoolMapper_init (fs : gmap pystr pystr) : init_result (option (world num)) :=
  match load_api_key fs with
  | Some (c :: key) =>
      if client_accepts (c :: key) then
        match load_address_cache fs with
        | Raise e => InitRaise (Loading e)
        | Ret addresses =>
            match load_coord_cache fs with
            | Raise e => InitRaise (Loading e)
            | Ret coords =>
                InitRet (a ← py_to_address addresses;
                         c ← py_to_coords coords;
                         Some (World a c fs []))
            end
        end
      else InitRaise ValueError
  | _ => InitRaise ValueError
  end.

(** [main] from [# Initialize mapper] to [# Save final caches], on the
    rows read from the CSV file: the constructor inside [try: ... except
    ValueError], then the row loop. *)
Definition main (fs : gmap pystr pystr) (rows : list (school_row num))
  : run (result (list (school_entry num)) * world num) :=
  match SchoolMapper_init fs with
  | InitRaise e => if is_ValueError e then Stopped else Uncaught e
  | InitRet None => NotACache
  | InitRet (Some mapper) => Ran (resolve_all rows mapper)
  end.

(** [create_map_from_cache] up to the end of its row loop; the
    constructor is not inside a [try]. *)
Definition create_map_from_cache (fs : gmap pystr pystr) (rows : list (school_row num))
  : run (list (school_entry num)) :=
  match SchoolMapper_init fs with
  | InitRaise e => Uncaught e
  | InitRet None => NotACache
  | InitRet (Some mapper) => Ran (school_data_from_cache mapper rows)
  end.

End GoogleMaps.
End GoogleMaps.

(** ** [extract_all_schools_nominatim_backup.py] *)

Module Nominatim.
Section Nominatim.
Context {num : Type} `{NumCodec num}.

Variable page : list event → pystr → http_reply.

(** [self.geolocator.geocode(search_addr, timeout=15)]: a location,
    reduced to its latitude and longitude, or [None]. *)
Variable geolocator : list event → pystr → geo_reply (option (num * num)).

Definition geolocator_geocode (query : pystr) : M (world num) (option (num * num)) :=
  history ← gets trace;
  log (Geocode query);;
  match geolocator history query with
  | ProviderError => raise GeocoderError
  | Answer location => mret location
  end.

(** Building the list evaluates [address.split()[0]]. *)
Definition search_addresses (addr : option pystr) (town : pystr) : result (list pystr) :=
  match addr with
  | Some (c :: tail) =>
      let a := c :: tail in
      match split_ws a with
      | street :: _ =>
          Ret [ a ++ str ", " ++ town ++ str ", Sweden";
                a ++ str ", Sweden";
                street ++ str ", " ++ town ++ str ", Sweden";
                town ++ str ", Sweden" ]
      | [] => Raise IndexError
      end
  | _ => Ret [ town ++ str ", Sweden" ]
  end.

(** The [for attempt in range(2)] loop on one candidate. *)
Fixpoint attempts (key search_addr : pystr) (numbers : list nat)
  : M (world num) (option (num * num)) :=
  match numbers with
  | [] => mret None
  | attempt :: more =>
      returned ←
        try_except
          (location ← geolocator_geocode search_addr;
           match location with
           | Some (lat, lng) =>
               set_coords key (Some (lat, lng));; mret (Some (lat, lng))
           | None => sleep 1000;; mret None
           end)
          ((if (attempt =? 0)%nat then sleep 2000 else mret ());; mret None);
      match returned with
      | Some coords => mret (Some coords)
      | None => attempts key search_addr more
      end
  end.

Fixpoint try_addresses (key : pystr) (candidates : list pystr)
  : M (world num) (option (num * num)) :=
  match candidates with
  | [] => set_coords key None;; mret None
  | search_addr :: later =>
      returned ← attempts key search_addr (seq 0 2);
      match returned with
      | Some coords => mret (Some coords)
      | None => try_addresses key later
      end
  end.

Definition geocode_address (addr : option pystr) (town : pystr)
  : M (world num) (option (num * num)) :=
  let key := cache_key addr town in
  cache ← gets coord_cache;
  match cache !! key with
  | Some (Some (lat, lng)) => mret (Some (lat, lng))
  | Some None => mret None
  | None =>
      match search_addresses addr town with
      | Ret candidates => try_addresses key candidates
      | Raise e => raise e
      end
  end.

(** One turn of the row loop of [main]; [was_cached] only feeds [print]
    here. *)
Definition process_row (idx : nat) (row : school_row num)
    (school_data : list (school_entry num)) : M (world num) (list (school_entry num)) :=
  let id := Skol_enhetskod row in
  addr ← get_school_address page id;
  coords ← geocode_address addr (Skolkommun row);
  let school_data :=
    match coords with
    | Some (lat, lng) =>
        school_data ++ [SchoolEntry id (Skola row) (Skolkommun row)
                          (py_or addr (Skolkommun row)) (row_merit_value row) lat lng]
    | None => school_data
    end in
  (if (idx mod 50 =? 0)%nat then save_address_cache;; save_coord_cache else mret ());;
  sleep 500;;
  mret school_data.

Fixpoint process_rows (idx : nat) (rows : list (school_row num))
    (school_data : list (school_entry num)) : M (world num) (list (school_entry num)) :=
  match rows with
  | [] => mret school_data
  | row :: rest =>
      school_data ← process_row idx row school_data;
      process_rows (S idx) rest school_data
  end.

Definition resolve_all (rows : list (school_row num))
  : M (world num) (list (school_entry num)) :=
  school_data ← process_rows 0 rows [];
  save_address_cache;;
  save_coord_cache;;
  mret school_data.

(** [main] from [# Initialize mapper] to [# Save final caches]: the
    constructor (no [try] around it), then the row loop. *)
Definition main (fs : gmap pystr pystr) (rows : list (school_row num))
  : run (result (list (school_entry num)) * world num) :=
  match SchoolMapper_init fs with
  | Raise e => Uncaught (Loading e)
  | Ret None => NotACache
  | Ret (Some mapper) => Ran (resolve_all rows mapper)
  end.

(** [create_map_from_cache] up to the end of its row loop. *)
Definition create_map_from_cache (fs : gmap pystr pystr) (rows : list (school_row num))
  : run (list (school_entry num)) :=
  match SchoolMapper_init fs with
  | Raise e => Uncaught (Loading e)
  | Ret None => NotACache
  | Ret (Some mapper) => Ran (school_data_from_cache mapper rows)
  end.

End Nominatim.
End Nominatim.

(** ** Reference outcomes, in the words of the specification *)

(** The text [json] writes for a number reads back as that number: what
    Python guarantees of [repr] for every finite float and every
    integer.  In a cache file the text is followed by a comma or by a
    line feed. *)
Definition reads_back {num : Type} `{NumCodec num} (x : num) : Prop :=
  ∀ d rest, d = 44 ∨ d = 10 →
            scan_number (num_repr x ++ d :: rest) = Some (x, d :: rest).

(** The address a fetch amounts to: the extracted string for a 200 page
    in which extraction succeeds; "not found" for a parse failure, a
    non-200 response or a transport error. *)
Definition expected_address (reply : http_reply) : option pystr :=
  match reply with
  | Response status text => if status =? 200 then extract_address text else None
  | TransportError => None
  end.

(** A geocoder reply that is no success: an error or an empty answer. *)
Definition no_result {num : Type} (reply : geo_reply (list (num * num))) : bool :=
  match reply with
  | ProviderError | Answer [] => true
  | Answer (_ :: _) => false
  end.

Definition no_location {num : Type} (reply : geo_reply (option (num * num))) : bool :=
  match reply with
  | ProviderError | Answer None => true
  | Answer (Some _) => false
  end.

(** The values a cache holds, as [json] sees them: [None], a string, or
    a two-element list of numbers that read back. *)
Inductive cache_value {num : Type} `{NumCodec num} : pyobj num → Prop :=
| cache_none : cache_value PyNone
| cache_str (s : pystr) : cache_value (PyStr s)
| cache_pair (lat lng : num) :
    reads_back lat → reads_back lng → cache_value (PyList [PyNum lat; PyNum lng]).


(** The text of a non-empty dictionary after its first member: the
    remaining members, each after a comma and a two-space indent, then
    the closing brace on a line of its own. *)
Fixpoint members_tail {num : Type} `{NumCodec num} (members : list (pystr * pyobj num))
  : pystr :=
  match members with
  | [] => [10; 125]
  | (k, v) :: later =>
      [44; 10; 32; 32; 34] ++ concat (escape_char <$> k) ++ [34; 58; 32]
        ++ encode 1 v ++ members_tail later
  end.

(** A scan that neither runs out of budget nor returns more text than
    it was given. *)
Definition progress {num : Type} (r : parse (pyobj num * pystr)) (s : pystr) : Prop :=
  match r with
  | Parsed (_, rest) => (length rest < length s)%nat
  | Invalid => True
  | Exhausted => False
  end.

(** What one row contributes to [school_data], given what the two
    resolvers returned for it. *)
Definition row_output {num : Type} (row : school_row num) (addr : option pystr)
    (coords : option (num * num)) : list (school_entry num) :=
  match coords with
  | Some (lat, lng) =>
      [SchoolEntry (Skol_enhetskod row) (Skola row) (Skolkommun row)
                   (py_or addr (Skolkommun row)) (row_merit_value row) lat lng]
  | None => []
  end.

(** The lines [i] and [i + 1] of a page are the label and, trimmed, an
    address [a] of more than three characters. *)
Definition address_pair (lines : list pystr) (i : nat) (a : pystr) : Prop :=
  ∃ label next,
    lines !! i = Some label ∧ lines !! S i = Some next
    ∧ strip label = str "Adress" ∧ (3 < length (strip next))%nat ∧ a = strip next.

(** The text [s] has the word "Adress" with, somewhere after it, a
    character that is no line feed. *)
Definition label_with_text (s : pystr) : Prop :=
  ∃ before between c after,
    s = before ++ str "Adress" ++ between ++ c :: after ∧ c ≠ newline.


(** What the caches say about a row: the entry [main] emits for it when
    both resolvers answer from the caches. *)
Definition cached_output {num : Type} (w : world num) (row : school_row num)
  : list (school_entry num) :=
  match address_cache w !! Skol_enhetskod row with
  | Some addr =>
      match coord_cache w !! cache_key addr (Skolkommun row) with
      | Some coords => row_output row addr coords
      | None => []
      end
  | None => []
  end.

(** Both caches answer for the row. *)
Definition settled {num : Type} (w : world num) (row : school_row num) : Prop :=
  ∃ addr coords,
    address_cache w !! Skol_enhetskod row = Some addr
    ∧ coord_cache w !! cache_key addr (Skolkommun row) = Some coords.

(** The two cache files hold the caches as they are. *)
Definition saved {num : Type} `{NumCodec num} (w : world num) : Prop :=
  files w !! address_file = Some (json_dumps (address_to_py (address_cache w)))
  ∧ files w !! coord_file = Some (json_dumps (coords_to_py (coord_cache w))).

(** An entry whose address field is the address the cache holds for its
    school, and not the municipality standing in for a missing one. *)
Definition has_own_address {num : Type} (w : world num) (e : school_entry num) : bool :=
  bool_decide (address_cache w !! school_id e = Some (Some (address e)) ∧ address e ≠ []).

(** The world after the attempts on one candidate: a location that was
    found is in the coordinate cache, and the events are in the trace. *)
Definition after_attempts {num : Type} (w : world num) (key : pystr)
    (found : option (num * num)) (events : list event) : world num :=
  World (address_cache w)
        (match found with
         | Some coords => <[key := Some coords]> (coord_cache w)
         | None => coord_cache w
         end)
        (files w) (trace w ++ events).


(** The record of a row as the caches give it: the row's own fields,
    the cached address (the municipality when there is none) and the
    coordinates cached under the key of that address. *)
Definition record_of {num : Type} (w : world num) (row : school_row num)
    (e : school_entry num) : Prop :=
  ∃ addr,
    address_cache w !! Skol_enhetskod row = Some addr
    ∧ coord_cache w !! cache_key addr (Skolkommun row) = Some (Some (latitude e, longitude e))
    ∧ e = SchoolEntry (Skol_enhetskod row) (Skola row) (Skolkommun row)
            (py_or addr (Skolkommun row)) (row_merit_value row) (latitude e) (longitude e).

(** The caches hold a failed geocoding for the row. *)
Definition not_located {num : Type} (w : world num) (row : school_row num) : Prop :=
  ∃ addr,
    address_cache w !! Skol_enhetskod row = Some addr
    ∧ coord_cache w !! cache_key addr (Skolkommun row) = Some None.

(** [school_data] holds, in the order of the rows, the record of every
    row but those whose geocoding failed. *)
Definition records_of_rows {num : Type} (w : world num) (rows : list (school_row num))
    (school_data : list (school_entry num)) : Prop :=
  ∃ kept,
    kept `sublist_of` rows
    ∧ Forall2 (record_of w) kept school_data
    ∧ ∀ row, row ∈ rows → row ∈ kept ∨ not_located w row.
(** ** Example worlds *)

Existing Instance literal_numbers.

Definition empty_world : world pystr := World ∅ ∅ ∅ [].

(** A second run: the school and its municipality-level coordinates are
    in the caches, the address as a negative result. *)
Definition cached_world : world pystr :=
  World {[ str "12345" := None ]}
        {[ cache_key None (str "Uppsala") := Some (str "59.86", str "17.64") ]}
        ∅ [].

(** A server that is down, one that answers 404, and one that serves a
    fixed page text. *)
Definition page_down : list event → pystr → http_reply := λ _ _, TransportError.
Definition page_404 : list event → pystr → http_reply := λ _ _, Response 404 [].
Definition page_text (text : pystr) : list event → pystr → http_reply :=
  λ _ _, Response 200 text.

(** A geocoder that knows a fixed table of queries. *)
Definition uppsala : pystr * pystr := (str "59.86", str "17.64").

Definition gmaps_table (known : list (pystr * (pystr * pystr)))
  : list event → pystr → geo_reply (list (pystr * pystr)) :=
  λ _ query, Answer (match list_to_map (M := gmap pystr (pystr * pystr)) known !! query with
                     | Some coords => [coords]
                     | None => []
                     end).

Definition nominatim_table (known : list (pystr * (pystr * pystr)))
  : list event → pystr → geo_reply (option (pystr * pystr)) :=
  λ _ query, Answer (list_to_map (M := gmap pystr (pystr * pystr)) known !! query).

Definition test_row : school_row pystr :=
  SchoolRow (str "12345") (str "Test School") (str "Uppsala") (str "280.5").

(** A geocoder that does not know the street in Uppsala, but knows a
    street of that name somewhere in Sweden, and the town. *)
Definition stockholm : pystr * pystr := (str "59.33", str "18.07").

Definition known_places : list (pystr * (pystr * pystr)) :=
  [ (str "Kungsgatan 10, Sweden", stockholm); (str "Uppsala, Sweden", uppsala) ].

(** The visible text of the example school's page, the run of the
    Google Maps script on it from empty caches, and the same for the
    Nominatim script. *)
Definition school_page : pystr := str "Adress" ++ [newline] ++ str "Kungsgatan 10".


Definition first_nominatim_run : result (list (school_entry pystr)) * world pystr :=
  Nominatim.resolve_all (page_text school_page) (nominatim_table known_places) [test_row]
    empty_world.

(** A client that takes any key, and the files of a first start: the
    key file and nothing else. *)
Definition any_key : pystr → bool := λ _, true.

Definition key_only : gmap pystr pystr := {[ GoogleMaps.api_key_file := str "AIza-example " ]}.


(** The world of a first start of the Google Maps script: empty caches
    and the key file. *)
Definition keyed_world : world pystr := World ∅ ∅ key_only [].

(** A second school, whose page is not served. *)
Definition other_row : school_row pystr :=
  SchoolRow (str "67890") (str "Other School") (str "Uppsala") (str "250.0").

Definition one_page : list event → pystr → http_reply :=
  λ _ url, if bool_decide (url = school_url (str "12345"))
           then Response 200 school_page else Response 404 [].

(** * Properties *)

Ltac run :=
  cbv [mbind M_bind mret M_ret gets modify raise try_except log sleep set_address
       set_coords write_file session_get]; simpl.

(** ** Address resolution *)

Section AddressFacts.
Context {num : Type}.
Implicit Types (w : world num) (page : list event → pystr → http_reply).

Lemma get_school_address_hit page id w v :
  address_cache w !! id = Some v →
  get_school_address page id w = (Ret v, w).
Proof. intros Hv. unfold get_school_address. run. by rewrite Hv. Qed.

(** A miss is one request, and its outcome goes into the cache. *)
Lemma get_school_address_miss page id w :
  address_cache w !! id = None →
  get_school_address page id w =
    let found := expected_address (page (trace w) (school_url id)) in
    (Ret found, World (<[id := found]> (address_cache w)) (coord_cache w) (files w)
                      (trace w ++ [HttpGet (school_url id)])).
Proof.
  intros Hv. unfold get_school_address. run. rewrite Hv.
  destruct (page _ _) as [|status text]; simpl; [done|].
  destruct (status =? 200); simpl; [|done].
  by destruct (extract_address text).
Qed.

Lemma get_school_address_returns page id w :
  ∃ v, (get_school_address page id w).1 = Ret v
       ∧ address_cache (get_school_address page id w).2 !! id = Some v.
Proof.
  destruct (address_cache w !! id) as [v|] eqn:Hid.
  - exists v. by rewrite (get_school_address_hit _ _ _ v).
  - rewrite get_school_address_miss by done. simpl.
    eexists. split; [done|]. apply lookup_insert_eq.
Qed.

(** C7. Every call of [get_school_address] returns a value (it never
    raises), and on return the address cache holds exactly that value
    under the identifier.  When the identifier was not cached before,
    the value is what the fetch amounts to: the extracted address, or
    [None] for a parse failure, a non-200 response or a transport
    error. *)
Theorem address_outcome_always_cached page id w :
  ∃ v, (get_school_address page id w).1 = Ret v
       ∧ address_cache (get_school_address page id w).2 !! id = Some v
       ∧ (address_cache w !! id = None →
          v = expected_address (page (trace w) (school_url id))).
Proof.
  destruct (get_school_address_returns page id w) as (v & Hret & Hcache).
  exists v. split_and!; [done..|].
  intros Hmiss. rewrite get_school_address_miss in Hret by done.
  simpl in Hret. congruence.
Qed.

(** A negative result answers the next call from the cache. *)
Lemma negative_result_terminal page id w w1 :
  get_school_address page id w = (Ret None, w1) →
  get_school_address page id w1 = (Ret None, w1).
Proof.
  intros Hrun. apply get_school_address_hit.
  destruct (get_school_address_returns page id w) as (v & Hret & Hcache).
  rewrite Hrun in Hret, Hcache. simpl in *. congruence.
Qed.
End AddressFacts.

(** C7 at work: a 404 leaves [None] in the cache. *)
Lemma address_outcome_always_cached_witness :
  address_cache (get_school_address page_404 (str "12345") empty_world).2 !! str "12345"
  = Some None.
Proof.
  destruct (address_outcome_always_cached page_404 (str "12345") empty_world)
    as (v & _ & Hcache & Hmiss).
  rewrite Hcache. f_equal. apply Hmiss. reflexivity.
Defined.

(** ** Cache hits *)

Section GeocodeFacts.
Context {num : Type}.
Implicit Types (w : world num).

Lemma google_geocode_hit gmaps addr town w (v : option (num * num)) :
  coord_cache w !! cache_key addr town = Some v →
  GoogleMaps.geocode_address gmaps addr town w = (Ret v, w).
Proof.
  intros Hv. unfold GoogleMaps.geocode_address. run. rewrite Hv.
  by destruct v as [[lat lng]|].
Qed.

Lemma nominatim_geocode_hit geolocator addr town w (v : option (num * num)) :
  coord_cache w !! cache_key addr town = Some v →
  Nominatim.geocode_address geolocator addr town w = (Ret v, w).
Proof.
  intros Hv. unfold Nominatim.geocode_address. run. rewrite Hv.
  by destruct v as [[lat lng]|].
Qed.

(** C1. A key that is in a cache, with a value or with [None], is
    answered from the cache: the resolver returns the stored value and
    leaves the world as it was, so the event trace gains no network
    call (nor anything else), whatever the server or the geocoder would
    have said.  This holds for [get_school_address] and for
    [geocode_address] of both scripts; and once a call of
    [get_school_address] has returned [None], the next call with the
    same identifier is such a hit. *)
Theorem cache_hit_no_network :
  (∀ page id w v,
      address_cache w !! id = Some v →
      get_school_address page id w = (Ret v, w))
  ∧ (∀ gmaps addr town w v,
      coord_cache w !! cache_key addr town = Some v →
      GoogleMaps.geocode_address gmaps addr town w = (Ret v, w))
  ∧ (∀ geolocator addr town w v,
      coord_cache w !! cache_key addr town = Some v →
      Nominatim.geocode_address geolocator addr town w = (Ret v, w))
  ∧ (∀ page id w w1,
      get_school_address page id w = (Ret None, w1) →
      get_school_address page id w1 = (Ret None, w1)).
Proof.
  split_and!.
  - apply get_school_address_hit.
  - apply google_geocode_hit.
  - apply nominatim_geocode_hit.
  - apply negative_result_terminal.
Qed.
End GeocodeFacts.

(** C1 on the second run of the example: the cached negative address and
    the cached coordinates come back although the server is down and the
    geocoder knows nothing. *)
Lemma cache_hit_no_network_witness :
  (address_cache cached_world !! str "12345" = Some None
   ∧ get_school_address page_down (str "12345") cached_world = (Ret None, cached_world))
  ∧ (coord_cache cached_world !! cache_key None (str "Uppsala")
       = Some (Some (str "59.86", str "17.64"))
     ∧ GoogleMaps.geocode_address (gmaps_table []) None (str "Uppsala") cached_world
       = (Ret (Some (str "59.86", str "17.64")), cached_world)).
Proof.
  destruct (cache_hit_no_network (num := pystr)) as (Haddr & Hgoogle & _ & _).
  split; (split; [reflexivity|]).
  - apply Haddr. reflexivity.
  - apply Hgoogle. reflexivity.
Defined.

(** ** Candidate queries *)

Lemma split_ws_from_spaces s :
  forallb py_isspace s = true → split_ws_from [] s = [].
Proof.
  induction s as [|c s IH]; simpl; [done|].
  intros [Hc Hs]%andb_prop. rewrite Hc. auto.
Qed.

Section CandidateFacts.
Context {num : Type}.
Implicit Types (w : world num).

(** C4, as the code has it.  With an address (a non-empty string) the
    Google Maps script asks for "address, municipality, Sweden", then
    "address, Sweden", then "municipality, Sweden".  The Nominatim
    script, for an address with a first token, asks for the same first
    two, then for "first token, municipality, Sweden" as the third
    candidate, and for "municipality, Sweden" last.  Without an address
    ([None] or the empty string) both ask for "municipality, Sweden"
    only. *)
Theorem candidate_queries (a town : pystr) :
  a ≠ [] →
  GoogleMaps.search_addresses (Some a) town
    = [ a ++ str ", " ++ town ++ str ", Sweden";
        a ++ str ", Sweden";
        town ++ str ", Sweden" ]
  ∧ (∀ street more,
        split_ws a = street :: more →
        Nominatim.search_addresses (Some a) town
        = Ret [ a ++ str ", " ++ town ++ str ", Sweden";
                a ++ str ", Sweden";
                street ++ str ", " ++ town ++ str ", Sweden";
                town ++ str ", Sweden" ])
  ∧ GoogleMaps.search_addresses None town = [ town ++ str ", Sweden" ]
  ∧ GoogleMaps.search_addresses (Some []) town = [ town ++ str ", Sweden" ]
  ∧ Nominatim.search_addresses None town = Ret [ town ++ str ", Sweden" ]
  ∧ Nominatim.search_addresses (Some []) town = Ret [ town ++ str ", Sweden" ].
Proof.
  intros Ha. destruct a as [|c a]; [done|].
  split_and!; try reflexivity.
  intros street more Hsplit.
  unfold Nominatim.search_addresses. cbv zeta. by rewrite Hsplit.
Qed.

(** C9. In the Nominatim script an address that is not empty but all
    whitespace, with its key not in the coordinate cache, makes
    [geocode_address] raise [IndexError] while it builds the candidate
    list: nothing is cached, no query is sent, and no [try] is around
    it.  Such an input exists (the witness below). *)
Theorem whitespace_address_raises geolocator (a town : pystr) w :
  a ≠ [] →
  forallb py_isspace a = true →
  coord_cache w !! cache_key (Some a) town = None →
  Nominatim.geocode_address geolocator (Some a) town w = (Raise IndexError, w).
Proof.
  intros Ha Hspace Hmiss. unfold Nominatim.geocode_address. run. rewrite Hmiss.
  unfold Nominatim.search_addresses.
  destruct a as [|c a]; [done|]. cbv zeta.
  unfold split_ws. by rewrite split_ws_from_spaces.
Qed.
End CandidateFacts.

(** The claimed order of C4 (street-name candidate fourth, after the
    municipality) is not what the Nominatim script builds. *)
Lemma candidate_order_counterexample :
  Nominatim.search_addresses (Some (str "Kungsgatan 10")) (str "Uppsala")
  ≠ Ret [ str "Kungsgatan 10, Uppsala, Sweden";
          str "Kungsgatan 10, Sweden";
          str "Uppsala, Sweden";
          str "Kungsgatan, Uppsala, Sweden" ].
Proof. vm_compute. discriminate. Qed.

(** C4 on "Kungsgatan 10" in Uppsala: the street name is the third
    candidate. *)
Lemma candidate_queries_witness :
  Nominatim.search_addresses (Some (str "Kungsgatan 10")) (str "Uppsala")
  = Ret [ str "Kungsgatan 10, Uppsala, Sweden";
          str "Kungsgatan 10, Sweden";
          str "Kungsgatan, Uppsala, Sweden";
          str "Uppsala, Sweden" ].
Proof.
  destruct (candidate_queries (str "Kungsgatan 10") (str "Uppsala")) as (_ & Hnom & _).
  - discriminate.
  - apply (Hnom (str "Kungsgatan") [str "10"]). reflexivity.
Defined.

(** C9 on the address made of one space. *)
Lemma whitespace_address_raises_witness :
  Nominatim.geocode_address (nominatim_table []) (Some (str " ")) (str "Uppsala") empty_world
  = (Raise IndexError, empty_world).
Proof.
  apply whitespace_address_raises; [discriminate | reflexivity | reflexivity].
Defined.

(** ** The two extraction strategies *)

Lemma scan_lines_long lines a :
  scan_lines lines = Some a → (3 < length a)%nat.
Proof.
  induction lines as [|line rest IH]; simpl; [done|].
  destruct rest as [|next rest']; [done|].
  destruct (pystr_eqb (strip line) (str "Adress")); [|exact IH].
  destruct (negb _ && _) eqn:Hok; [|exact IH].
  intros [= <-]. apply andb_prop in Hok as [_ Hlen].
  by apply Nat.ltb_lt in Hlen.
Qed.

Section ExtractionFacts.
Context {num : Type}.
Implicit Types (w : world num).

(** C10. The line scan only ever yields an address of more than three
    characters, but the fallback pattern has no such check: on the page
    text "Adress: ab" an uncached [get_school_address] returns and
    caches the two-character "ab", and on "Adress: " (label, colon, one
    space) it returns and caches the empty string, which as a cache
    value is [Some []] and not the negative result [None]. *)
Theorem fallback_has_no_minimum_length :
  (∀ lines a, scan_lines lines = Some a → (3 < length a)%nat)
  ∧ (∀ id w,
        address_cache w !! id = None →
        let out := get_school_address (page_text (str "Adress: ab")) id w in
        out.1 = Ret (Some (str "ab"))
        ∧ address_cache out.2 !! id = Some (Some (str "ab"))
        ∧ (length (strip (str "ab")) ≤ 3)%nat)
  ∧ (∀ id w,
        address_cache w !! id = None →
        let out := get_school_address (page_text (str "Adress: ")) id w in
        out.1 = Ret (Some [])
        ∧ address_cache out.2 !! id = Some (Some [])
        ∧ address_cache out.2 !! id ≠ Some None).
Proof.
  split_and!.
  - apply scan_lines_long.
  - intros id w Hmiss. rewrite get_school_address_miss by done.
    cbn [fst snd address_cache page_text expected_address].
    change (200 =? 200) with true. cbv iota.
    replace (extract_address (str "Adress: ab")) with (Some (str "ab"))
      by (vm_compute; reflexivity).
    rewrite lookup_insert_eq. split_and!; [done..|].
    vm_compute. lia.
  - intros id w Hmiss. rewrite get_school_address_miss by done.
    cbn [fst snd address_cache page_text expected_address].
    change (200 =? 200) with true. cbv iota.
    replace (extract_address (str "Adress: ")) with (Some (@nil N))
      by (vm_compute; reflexivity).
    rewrite lookup_insert_eq. by split_and!.
Qed.
End ExtractionFacts.

(** C10 on a first run: the empty string comes back as an address. *)
Lemma fallback_has_no_minimum_length_witness :
  address_cache empty_world !! str "12345" = None
  ∧ (get_school_address (page_text (str "Adress: ")) (str "12345") empty_world).1
    = Ret (Some []).
Proof.
  split; [reflexivity|].
  destruct (fallback_has_no_minimum_length (num := pystr)) as (_ & _ & Hempty).
  apply (Hempty (str "12345") empty_world). reflexivity.
Defined.

(** ** The geocoding cascade *)

Section CascadeFacts.
Context {num : Type}.
Implicit Types (w : world num) (key : pystr) (pre post : list pystr).

Lemma google_try_addresses_stops gmaps key pre c post lat lng more w :
  (∀ i q, pre !! i = Some q →
          no_result (gmaps (trace w ++ (Geocode <$> take i pre)) q) = true) →
  gmaps (trace w ++ (Geocode <$> pre)) c = Answer ((lat, lng) :: more) →
  GoogleMaps.try_addresses gmaps key (pre ++ c :: post) w
  = (Ret (Some (lat, lng)),
     World (address_cache w) (<[key := Some (lat, lng)]> (coord_cache w)) (files w)
           (trace w ++ (Geocode <$> pre) ++ [Geocode c])).
Proof.
  revert w. induction pre as [|q pre IH]; intros w Hpre Hc.
  - simpl in *. rewrite app_nil_r in Hc.
    unfold GoogleMaps.gmaps_geocode. run. by rewrite Hc.
  - pose proof (Hpre 0%nat q eq_refl) as Hq. simpl in Hq. rewrite app_nil_r in Hq.
    cbn [app GoogleMaps.try_addresses].
    set (w1 := World (address_cache w) (coord_cache w) (files w)
                     (trace w ++ [Geocode q])).
    assert (GoogleMaps.try_addresses gmaps key (pre ++ c :: post) w1
            = (Ret (Some (lat, lng)),
               World (address_cache w) (<[key := Some (lat, lng)]> (coord_cache w))
                     (files w) (trace w ++ (Geocode <$> q :: pre) ++ [Geocode c])))
      as Hrest.
    { rewrite (IH w1).
      - subst w1. cbn [address_cache coord_cache files trace fmap list_fmap].
        by rewrite <- !app_assoc.
      - intros i q' Hi. subst w1. cbn [trace]. rewrite <- app_assoc.
        apply (Hpre (S i) q' Hi).
      - subst w1. cbn [trace]. by rewrite <- app_assoc. }
    unfold GoogleMaps.gmaps_geocode. run.
    destruct (gmaps (trace w) q) as [|[|[lat' lng'] others]]; simpl in *;
      [exact Hrest | exact Hrest | done].
Qed.

Lemma nominatim_attempts_fail geolocator key q w :
  (∀ history, no_location (geolocator history q) = true) →
  ∃ events,
    Nominatim.attempts geolocator key q (seq 0 2) w
    = (Ret None,
       World (address_cache w) (coord_cache w) (files w) (trace w ++ events))
    ∧ queries events
      = [q; q].
Proof.
  intros Hq. cbn [seq Nominatim.attempts].
  unfold Nominatim.geolocator_geocode. run.
  pose proof (Hq (trace w)) as H1.
  destruct (geolocator (trace w) q) as [|[coords|]]; simpl in *; try done.
  - pose proof (Hq ((trace w ++ [Geocode q]) ++ [Sleep 2000])) as H2.
    destruct (geolocator _ q) as [|[coords|]]; simpl in *; try done.
    + exists [Geocode q; Sleep 2000; Geocode q]. split; [|done].
      by rewrite <- !app_assoc.
    + exists [Geocode q; Sleep 2000; Geocode q; Sleep 1000]. split; [|done].
      by rewrite <- !app_assoc.
  - pose proof (Hq ((trace w ++ [Geocode q]) ++ [Sleep 1000])) as H2.
    destruct (geolocator _ q) as [|[coords|]]; simpl in *; try done.
    + exists [Geocode q; Sleep 1000; Geocode q]. split; [|done].
      by rewrite <- !app_assoc.
    + exists [Geocode q; Sleep 1000; Geocode q; Sleep 1000]. split; [|done].
      by rewrite <- !app_assoc.
Qed.

Lemma nominatim_try_addresses_stops geolocator key pre c post lat lng w :
  (∀ history q, q ∈ pre → no_location (geolocator history q) = true) →
  (∀ history, geolocator history c = Answer (Some (lat, lng))) →
  ∃ events,
    Nominatim.try_addresses geolocator key (pre ++ c :: post) w
    = (Ret (Some (lat, lng)),
       World (address_cache w) (<[key := Some (lat, lng)]> (coord_cache w)) (files w)
             (trace w ++ events ++ [Geocode c]))
    ∧ queries events
      = pre ≫= (λ q, [q; q]).
Proof.
  intros Hpre Hc. revert w. induction pre as [|q pre IH]; intros w.
  - exists []. split; [|done]. cbn [app Nominatim.try_addresses seq Nominatim.attempts].
    unfold Nominatim.geolocator_geocode. run. by rewrite Hc.
  - destruct (nominatim_attempts_fail geolocator key q w) as (ev1 & Hrun1 & Hq1).
    { intros history. apply Hpre. left. }
    set (w1 := World (address_cache w) (coord_cache w) (files w) (trace w ++ ev1)).
    destruct (IH (λ history q' Hin, Hpre history q' (list_elem_of_further _ _ _ Hin)) w1)
      as (ev2 & Hrun2 & Hq2).
    exists (ev1 ++ ev2). split.
    + cbn [app Nominatim.try_addresses]. unfold mbind at 1, M_bind at 1.
      rewrite Hrun1. fold w1. rewrite Hrun2. subst w1.
      cbn [address_cache coord_cache files trace]. by rewrite <- !app_assoc.
    + unfold queries in *. rewrite omap_app, Hq1, Hq2. done.
Qed.

(** C5. The cascade stops at the first success.  Google Maps script:
    for any candidate list [pre ++ c :: post], if every candidate of
    [pre] gets no result when its turn comes (an empty list or an
    error) and [c] then gets a non-empty list, the resolver returns the
    coordinates of the first result of [c], caches them under the key,
    and the queries sent are those of [pre] and [c], one each, in
    order: no candidate of [post] is asked.  Nominatim script: if the
    candidates of [pre] never get a location and [c] always does, the
    resolver returns the location of [c] and caches it; the queries
    sent are each candidate of [pre] twice (its two attempts), then [c]
    once, and nothing of [post]. *)
Theorem cascade_first_success_wins key pre c post lat lng w :
  (∀ gmaps more,
      (∀ i q, pre !! i = Some q →
              no_result (gmaps (trace w ++ (Geocode <$> take i pre)) q) = true) →
      gmaps (trace w ++ (Geocode <$> pre)) c = Answer ((lat, lng) :: more) →
      GoogleMaps.try_addresses gmaps key (pre ++ c :: post) w
      = (Ret (Some (lat, lng)),
         World (address_cache w) (<[key := Some (lat, lng)]> (coord_cache w)) (files w)
               (trace w ++ (Geocode <$> pre) ++ [Geocode c])))
  ∧ (∀ geolocator,
      (∀ history q, q ∈ pre → no_location (geolocator history q) = true) →
      (∀ history, geolocator history c = Answer (Some (lat, lng))) →
      ∃ events,
        Nominatim.try_addresses geolocator key (pre ++ c :: post) w
        = (Ret (Some (lat, lng)),
           World (address_cache w) (<[key := Some (lat, lng)]> (coord_cache w)) (files w)
                 (trace w ++ events ++ [Geocode c]))
        ∧ queries events
          = pre ≫= (λ q, [q; q])).
Proof.
  split.
  - intros gmaps more. apply google_try_addresses_stops.
  - intros geolocator. apply nominatim_try_addresses_stops.
Qed.
End CascadeFacts.

(** C5 on three candidates of which only the second and the third would
    succeed: the result is that of the second, and the trace shows two
    queries. *)
Lemma cascade_first_success_wins_witness :
  GoogleMaps.try_addresses (gmaps_table known_places) (str "Kungsgatan 10|Uppsala")
    [ str "Kungsgatan 10, Uppsala, Sweden"; str "Kungsgatan 10, Sweden";
      str "Uppsala, Sweden" ] empty_world
  = (Ret (Some stockholm),
     World ∅ {[ str "Kungsgatan 10|Uppsala" := Some stockholm ]} ∅
           [ Geocode (str "Kungsgatan 10, Uppsala, Sweden");
             Geocode (str "Kungsgatan 10, Sweden") ]).
Proof.
  apply (proj1 (cascade_first_success_wins (str "Kungsgatan 10|Uppsala")
                  [str "Kungsgatan 10, Uppsala, Sweden"] (str "Kungsgatan 10, Sweden")
                  [str "Uppsala, Sweden"] (str "59.33") (str "18.07") empty_world)
               (gmaps_table known_places) []).
  - intros [|i] q; simpl; [intros [= <-]; reflexivity | discriminate].
  - reflexivity.
Defined.

(** ** The row loop *)

Section MonadFacts.
Context {W A B : Type}.

Lemma bind_ret (c : M W A) (k : A → M W B) w a w' :
  c w = (Ret a, w') → (c ≫= k) w = k a w'.
Proof. intros Hc. unfold mbind, M_bind. by rewrite Hc. Qed.

Lemma bind_raise (c : M W A) (k : A → M W B) w e w' :
  c w = (Raise e, w') → (c ≫= k) w = (Raise e, w').
Proof. intros Hc. unfold mbind, M_bind. by rewrite Hc. Qed.
End MonadFacts.

Section RowFacts.
Context {num : Type} `{!NumCodec num}.
Implicit Types (w : world num) (row : school_row num) (data : list (school_entry num)).

(** What a call of [get_school_address] does to the world. *)
Lemma get_school_address_effect page id w :
  ∃ addr cache events,
    get_school_address page id w
    = (Ret addr, World cache (coord_cache w) (files w) (trace w ++ events))
    ∧ sleeps events = []
    ∧ (length (requests events) ≤ 1)%nat
    ∧ (is_Some (address_cache w !! id) → events = [])
    ∧ (∀ k, is_Some (address_cache w !! k) → is_Some (cache !! k)).
Proof.
  destruct (address_cache w !! id) as [v|] eqn:Hid.
  - exists v, (address_cache w), []. rewrite (get_school_address_hit _ _ _ v) by done.
    rewrite app_nil_r. destruct w. simpl. split_and!; auto.
  - rewrite get_school_address_miss by done. cbv zeta.
    eexists _, _, [HttpGet _]. split_and!; [done | done | simpl; lia | |].
    + by intros [? ?].
    + intros k Hk. destruct (decide (id = k)) as [->|Hne].
      * rewrite lookup_insert_eq. eauto.
      * by rewrite lookup_insert_ne.
Qed.

(** The Google Maps resolver always returns, caches what it returns,
    never sleeps and never asks the school server. *)
Lemma google_try_addresses_effect gmaps key candidates w :
  ∃ coords events,
    GoogleMaps.try_addresses gmaps key candidates w
    = (Ret coords,
       World (address_cache w) (<[key := coords]> (coord_cache w)) (files w)
             (trace w ++ events))
    ∧ sleeps events = [] ∧ requests events = [].
Proof.
  revert w. induction candidates as [|c later IH]; intros w.
  - exists None, []. rewrite app_nil_r. by run.
  - cbn [GoogleMaps.try_addresses]. unfold GoogleMaps.gmaps_geocode. run.
    set (w1 := World (address_cache w) (coord_cache w) (files w) (trace w ++ [Geocode c])).
    destruct (IH w1) as (coords & events & Hrun & Hsleep & Hreq).
    assert (∃ coords events,
               GoogleMaps.try_addresses gmaps key later w1
               = (Ret coords,
                  World (address_cache w) (<[key := coords]> (coord_cache w)) (files w)
                        (trace w ++ events))
               ∧ sleeps events = [] ∧ requests events = []) as Hrest.
    { exists coords, (Geocode c :: events). rewrite Hrun. subst w1. simpl.
      rewrite <- app_assoc. split_and!; done. }
    destruct (gmaps (trace w) c) as [|[|[lat lng] others]]; simpl; [done..|].
    exists (Some (lat, lng)), [Geocode c]. by split_and!.
Qed.

Lemma google_geocode_effect gmaps addr town w :
  ∃ coords cache events,
    GoogleMaps.geocode_address gmaps addr town w
    = (Ret coords, World (address_cache w) cache (files w) (trace w ++ events))
    ∧ sleeps events = [] ∧ requests events = [].
Proof.
  destruct (coord_cache w !! cache_key addr town) as [v|] eqn:Hkey.
  - exists v, (coord_cache w), []. rewrite (google_geocode_hit _ _ _ _ v) by done.
    rewrite app_nil_r. by destruct w.
  - unfold GoogleMaps.geocode_address. run. rewrite Hkey.
    destruct (google_try_addresses_effect gmaps (cache_key addr town)
                (GoogleMaps.search_addresses addr town) w) as (coords & events & -> & ?).
    by eexists coords, _, events.
Qed.

Lemma save_caches_effect w :
  (save_address_cache;; save_coord_cache) w
  = (Ret (),
     World (address_cache w) (coord_cache w)
           (<[coord_file := json_dumps (coords_to_py (coord_cache w))]>
              (<[address_file := json_dumps (address_to_py (address_cache w))]> (files w)))
           (trace w)).
Proof. reflexivity. Qed.

(** One turn of the Google Maps loop. *)
Lemma google_process_row_effect page gmaps idx row data w :
  ∃ addr w1 coords w2 w3 events,
    get_school_address page (Skol_enhetskod row) w = (Ret addr, w1)
    ∧ GoogleMaps.geocode_address gmaps addr (Skolkommun row) w1 = (Ret coords, w2)
    ∧ GoogleMaps.process_row page gmaps idx row data w
      = (Ret (data ++ row_output row addr coords), w3)
    ∧ trace w3 = trace w ++ events
    ∧ sleeps events
      = (if decide (is_Some (address_cache w !! Skol_enhetskod row)) then [] else [200])
    ∧ (length (requests events) ≤ 1)%nat
    ∧ (∀ k, is_Some (address_cache w !! k) → is_Some (address_cache w3 !! k)).
Proof.
  destruct (get_school_address_effect page (Skol_enhetskod row) w)
    as (addr & cache1 & ev1 & Haddr & Hsleep1 & Hreq1 & Hhit & Hmono).
  set (w1 := World cache1 (coord_cache w) (files w) (trace w ++ ev1)) in *.
  destruct (google_geocode_effect gmaps addr (Skolkommun row) w1)
    as (coords & cache2 & ev2 & Hgeo & Hsleep2 & Hreq2).
  set (w2 := World (address_cache w1) cache2 (files w1) (trace w1 ++ ev2)) in *.
  set (out := data ++ row_output row addr coords).
  set (saved := if (idx mod 100 =? 0)%nat
                then ((save_address_cache;; save_coord_cache) w2).2 else w2).
  set (last := if decide (is_Some (address_cache w !! Skol_enhetskod row))
               then [] else [Sleep 200]).
  exists addr, w1, coords, w2,
    (World (address_cache saved) (coord_cache saved) (files saved) (trace saved ++ last)),
    (ev1 ++ ev2 ++ last).
  assert (trace saved = trace w ++ ev1 ++ ev2) as Htrace.
  { subst saved. destruct (_ =? _)%nat; simpl; by rewrite <- app_assoc. }
  assert (address_cache saved = cache1) as Hcache.
  { subst saved. by destruct (_ =? _)%nat. }
  split_and!; [done | done | | | | |].
  - unfold GoogleMaps.process_row.
    rewrite (bind_ret _ _ w (address_cache w) w) by done.
    rewrite (bind_ret _ _ w addr w1) by done.
    rewrite (bind_ret _ _ w1 coords w2) by done.
    rewrite (bind_ret _ _ w2 () saved).
    2:{ subst saved. destruct (_ =? _)%nat; [apply save_caches_effect | done]. }
    assert (out = match coords with
                  | Some (lat, lng) =>
                      data ++ [SchoolEntry (Skol_enhetskod row) (Skola row) (Skolkommun row)
                                 (py_or addr (Skolkommun row)) (row_merit_value row) lat lng]
                  | None => data
                  end) as <-.
    { subst out. destruct coords as [[lat lng]|]; simpl; [done | by rewrite app_nil_r]. }
    subst last.
    destruct (decide (is_Some (address_cache w !! Skol_enhetskod row))) as [Hs|Hs].
    + rewrite (bool_decide_eq_true_2 _ Hs). run. rewrite app_nil_r. by destruct saved.
    + rewrite (bool_decide_eq_false_2 _ Hs). by run.
  - cbn [trace]. rewrite Htrace. by rewrite <- !app_assoc.
  - unfold sleeps in *. rewrite !omap_app, Hsleep1, Hsleep2. subst last.
    by destruct (decide (is_Some _)).
  - unfold requests in *. rewrite !omap_app, Hreq2, !length_app. subst last.
    destruct (decide (is_Some _)); simpl; lia.
  - intros k Hk. cbn [address_cache]. rewrite Hcache. by apply Hmono.
Qed.

(** The whole Google Maps loop. *)
Lemma google_process_rows_effect page gmaps rows idx data w :
  ∃ new w' events,
    GoogleMaps.process_rows page gmaps idx rows data w = (Ret (data ++ new), w')
    ∧ trace w' = trace w ++ events
    ∧ sublist (school_id <$> new) (Skol_enhetskod <$> rows)
    ∧ (length (requests events) ≤ length rows)%nat
    ∧ ((∀ row, row ∈ rows → is_Some (address_cache w !! Skol_enhetskod row)) →
       sleeps events = []).
Proof.
  revert idx data w. induction rows as [|row rest IH]; intros idx data w.
  - exists [], w, []. rewrite !app_nil_r. split_and!; [done | done | done | simpl; lia | done].
  - destruct (google_process_row_effect page gmaps idx row data w)
      as (addr & w1 & coords & w2 & w3 & ev1 & _ & _ & Hrow & Htrace1 & Hsleep1 & Hreq1 & Hmono).
    destruct (IH (S idx) (data ++ row_output row addr coords) w3)
      as (new & w' & ev2 & Hrest & Htrace2 & Hsub & Hreq2 & Hsleep2).
    exists (row_output row addr coords ++ new), w', (ev1 ++ ev2).
    split_and!.
    + cbn [GoogleMaps.process_rows]. rewrite (bind_ret _ _ w _ w3 Hrow).
      by rewrite Hrest, <- app_assoc.
    + by rewrite Htrace2, Htrace1, <- app_assoc.
    + rewrite fmap_app, fmap_cons.
      destruct coords as [[lat lng]|]; simpl.
      * by apply sublist_skip.
      * by apply sublist_cons.
    + unfold requests in *. rewrite omap_app, length_app. simpl. lia.
    + intros Hall. unfold sleeps in *. rewrite omap_app, Hsleep1, Hsleep2.
      * destruct (decide (is_Some _)) as [|Hmiss]; [done|].
        destruct Hmiss. apply Hall. left.
      * intros row' Hin. apply Hmono, Hall. by right.
Qed.

Lemma google_resolve_all_effect page gmaps rows w :
  ∃ school_data w' events,
    GoogleMaps.resolve_all page gmaps rows w = (Ret school_data, w')
    ∧ trace w' = trace w ++ events
    ∧ sublist (school_id <$> school_data) (Skol_enhetskod <$> rows)
    ∧ (length (requests events) ≤ length rows)%nat
    ∧ ((∀ row, row ∈ rows → is_Some (address_cache w !! Skol_enhetskod row)) →
       sleeps events = []).
Proof.
  destruct (google_process_rows_effect page gmaps rows 0 [] w)
    as (new & w1 & events & Hrun & Htrace & Hrest).
  exists new, ((save_address_cache;; save_coord_cache) w1).2, events.
  split; [|split; [by rewrite save_caches_effect|done]].
  unfold GoogleMaps.resolve_all. rewrite (bind_ret _ _ w _ w1 Hrun).
  by rewrite save_caches_effect.
Qed.

(** One turn of the Nominatim loop: the geocoder's exception, if any,
    ends it; otherwise the turn ends with the half-second sleep. *)
Lemma nominatim_process_row_effect page geolocator idx row data w :
  ∃ addr w1,
    get_school_address page (Skol_enhetskod row) w = (Ret addr, w1)
    ∧ match Nominatim.geocode_address geolocator addr (Skolkommun row) w1 with
      | (Ret coords, w2) =>
          ∃ w3, Nominatim.process_row page geolocator idx row data w
                = (Ret (data ++ row_output row addr coords), w3)
                ∧ trace w3 = trace w2 ++ [Sleep 500]
      | (Raise e, w2) =>
          Nominatim.process_row page geolocator idx row data w = (Raise e, w2)
      end.
Proof.
  destruct (get_school_address_effect page (Skol_enhetskod row) w)
    as (addr & cache1 & ev1 & Haddr & _).
  eexists addr, _. split; [exact Haddr|].
  unfold Nominatim.process_row. rewrite (bind_ret _ _ w addr _ Haddr).
  destruct (Nominatim.geocode_address _ _ _ _) as [[coords|e] w2] eqn:Hgeo.
  - rewrite (bind_ret _ _ _ coords w2 Hgeo).
    set (saved := if (idx mod 50 =? 0)%nat
                  then ((save_address_cache;; save_coord_cache) w2).2 else w2).
    exists (World (address_cache saved) (coord_cache saved) (files saved)
                  (trace saved ++ [Sleep 500])).
    split.
    + rewrite (bind_ret _ _ w2 () saved).
      2:{ subst saved. destruct (_ =? _)%nat; [apply save_caches_effect | done]. }
      run. destruct coords as [[lat lng]|]; simpl; [done | by rewrite app_nil_r].
    + subst saved. by destruct (_ =? _)%nat.
  - by rewrite (bind_raise _ _ _ e w2 Hgeo).
Qed.
End RowFacts.

Section PipelineFacts.
Context {num : Type} `{!NumCodec num}.
Implicit Types (w : world num) (row : school_row num) (data : list (school_entry num)).

(** C3, as the code has it.  A row is emitted exactly when its
    geocoding returned coordinates; the address may be missing, and the
    entry then carries the municipality in its place ([address or
    municipality]).  In both scripts [get_school_address] returns some
    [addr] and, when [geocode_address] returns [coords] for it, the turn
    appends [row_output row addr coords] to [school_data]: one entry
    for [Some] coordinates, nothing for [None].  No row is taken up
    again: over a whole run of the Google Maps script the identifiers
    emitted form a subsequence of the identifiers of the rows, and the
    school server is asked at most once per row. *)
Theorem row_emitted_iff_coordinates page idx row data w :
  (∀ addr coords, row_output row addr coords = [] ↔ coords = None)
  ∧ (∀ addr lat lng,
        row_output row addr (Some (lat, lng))
        = [SchoolEntry (Skol_enhetskod row) (Skola row) (Skolkommun row)
                       (py_or addr (Skolkommun row)) (row_merit_value row) lat lng])
  ∧ (∀ gmaps, ∃ addr w1 coords w2 w3,
        get_school_address page (Skol_enhetskod row) w = (Ret addr, w1)
        ∧ GoogleMaps.geocode_address gmaps addr (Skolkommun row) w1 = (Ret coords, w2)
        ∧ GoogleMaps.process_row page gmaps idx row data w
          = (Ret (data ++ row_output row addr coords), w3))
  ∧ (∀ geolocator, ∃ addr w1,
        get_school_address page (Skol_enhetskod row) w = (Ret addr, w1)
        ∧ ∀ coords w2,
            Nominatim.geocode_address geolocator addr (Skolkommun row) w1 = (Ret coords, w2) →
            ∃ w3, Nominatim.process_row page geolocator idx row data w
                  = (Ret (data ++ row_output row addr coords), w3))
  ∧ (∀ gmaps rows, ∃ school_data w' events,
        GoogleMaps.resolve_all page gmaps rows w = (Ret school_data, w')
        ∧ trace w' = trace w ++ events
        ∧ sublist (school_id <$> school_data) (Skol_enhetskod <$> rows)
        ∧ (length (requests events) ≤ length rows)%nat).
Proof.
  split_and!.
  - intros addr [[lat lng]|]; simpl; split; done.
  - done.
  - intros gmaps.
    destruct (google_process_row_effect page gmaps idx row data w)
      as (addr & w1 & coords & w2 & w3 & events & Haddr & Hgeo & Hrow & _).
    by exists addr, w1, coords, w2, w3.
  - intros geolocator.
    destruct (nominatim_process_row_effect page geolocator idx row data w)
      as (addr & w1 & Haddr & Hrow).
    exists addr, w1. split; [done|]. intros coords w2 Hgeo. rewrite Hgeo in Hrow.
    destruct Hrow as (w3 & Hrow & _). by exists w3.
  - intros gmaps rows.
    destruct (google_resolve_all_effect page gmaps rows w)
      as (school_data & w' & events & Hrun & Htrace & Hsub & Hreq & _).
    by exists school_data, w', events.
Qed.

(** C6, as the code has it.  Google Maps script: a turn of the loop
    sleeps (once, 0.2 s) exactly when the identifier was not in the
    address cache at its start, and a run whose rows are all in the
    address cache never sleeps.  Nominatim script: every turn that
    completes ends with a 0.5 s sleep, and a row answered from both
    caches adds that sleep and nothing else to the trace. *)
Theorem rate_limit_sleeps page idx row data w :
  (∀ gmaps, ∃ out w' events,
      GoogleMaps.process_row page gmaps idx row data w = (Ret out, w')
      ∧ trace w' = trace w ++ events
      ∧ sleeps events
        = (if decide (is_Some (address_cache w !! Skol_enhetskod row)) then [] else [200]))
  ∧ (∀ gmaps rows,
      (∀ r, r ∈ rows → is_Some (address_cache w !! Skol_enhetskod r)) →
      ∃ out w' events,
        GoogleMaps.resolve_all page gmaps rows w = (Ret out, w')
        ∧ trace w' = trace w ++ events
        ∧ sleeps events = [])
  ∧ (∀ geolocator out w',
      Nominatim.process_row page geolocator idx row data w = (Ret out, w') →
      ∃ events, trace w' = events ++ [Sleep 500])
  ∧ (∀ geolocator addr coords,
      address_cache w !! Skol_enhetskod row = Some addr →
      coord_cache w !! cache_key addr (Skolkommun row) = Some coords →
      ∃ out w',
        Nominatim.process_row page geolocator idx row data w = (Ret out, w')
        ∧ trace w' = trace w ++ [Sleep 500]).
Proof.
  split_and!.
  - intros gmaps.
    destruct (google_process_row_effect page gmaps idx row data w)
      as (addr & w1 & coords & w2 & w3 & events & _ & _ & Hrow & Htrace & Hsleep & _).
    by eexists _, w3, events.
  - intros gmaps rows Hall.
    destruct (google_resolve_all_effect page gmaps rows w)
      as (school_data & w' & events & Hrun & Htrace & _ & _ & Hsleep).
    exists school_data, w', events. auto.
  - intros geolocator out w' Hrun.
    destruct (nominatim_process_row_effect page geolocator idx row data w)
      as (addr & w1 & _ & Hrow).
    destruct (Nominatim.geocode_address _ _ _ _) as [[coords|e] w2].
    + destruct Hrow as (w3 & Hrow & Htrace). rewrite Hrun in Hrow.
      injection Hrow as _ ->. eauto.
    + congruence.
  - intros geolocator addr coords Haddr Hcoords.
    destruct (nominatim_process_row_effect page geolocator idx row data w)
      as (addr' & w1 & Hget & Hrow).
    rewrite (get_school_address_hit _ _ _ addr) in Hget by done.
    injection Hget as <- <-.
    rewrite (nominatim_geocode_hit _ _ _ _ coords) in Hrow by done.
    destruct Hrow as (w3 & Hrow & Htrace). eauto.
Qed.
End PipelineFacts.

(** The claim of C3 fails where the address is missing but the
    municipality geocodes: the school page answers 404, so the address
    resolution returns [None], and the row is emitted all the same, with
    "Uppsala" as its address. *)
Lemma null_address_row_emitted :
  (get_school_address page_404 (str "12345") empty_world).1 = Ret None
  ∧ (GoogleMaps.process_row page_404 (gmaps_table known_places) 1 test_row [] empty_world).1
    = Ret [ SchoolEntry (str "12345") (str "Test School") (str "Uppsala") (str "Uppsala")
                        (str "280.5") (str "59.86") (str "17.64") ].
Proof. split; vm_compute; reflexivity. Qed.

(** C3 in the Nominatim script, on the same row: no address, but the
    municipality geocodes, and the row is emitted. *)
Lemma row_emitted_iff_coordinates_witness :
  ∃ w3, Nominatim.process_row page_404 (nominatim_table known_places) 1 test_row []
          empty_world
        = (Ret (row_output test_row None (Some uppsala)), w3).
Proof.
  destruct (row_emitted_iff_coordinates page_404 1%nat test_row [] empty_world)
    as (_ & _ & _ & Hnominatim & _).
  destruct (Hnominatim (nominatim_table known_places)) as (addr & w1 & Haddr & Hrow).
  vm_compute in Haddr. injection Haddr as <- <-.
  eapply (Hrow (Some uppsala)). vm_compute. reflexivity.
Defined.

(** The claim of C6 fails in the Nominatim script: a row answered from
    both caches, with no network call at all, is followed by a sleep. *)
Lemma cached_row_still_sleeps :
  address_cache cached_world !! str "12345" = Some None
  ∧ coord_cache cached_world !! cache_key None (str "Uppsala") = Some (Some uppsala)
  ∧ trace (Nominatim.process_row page_down (nominatim_table []) 1 test_row []
             cached_world).2
    = [Sleep 500].
Proof. split_and!; vm_compute; reflexivity. Qed.

(** C6 on a second run of the Google Maps script over a cached row: no
    sleep in the trace. *)
Lemma rate_limit_sleeps_witness :
  ∃ out w',
    GoogleMaps.resolve_all page_down (gmaps_table []) [test_row] cached_world = (Ret out, w')
    ∧ sleeps (trace w') = [].
Proof.
  destruct (rate_limit_sleeps page_down 1%nat test_row [] cached_world)
    as (_ & Hrun & _ & _).
  destruct (Hrun (gmaps_table []) [test_row]) as (out & w' & events & Hout & Htrace & Hsleep).
  - intros r ->%list_elem_of_singleton. eexists. reflexivity.
  - exists out, w'. split; [done|]. rewrite Htrace. exact Hsleep.
Defined.

(** ** The decoder reads what the encoder writes *)

Lemma small_cases (P : N → Prop) (n : nat) :
  (∀ i, (i < n)%nat → P (N.of_nat i)) → ∀ c, c < N.of_nat n → P c.
Proof.
  intros HP c Hc. rewrite <- (N2Nat.id c). apply HP. lia.
Qed.

Lemma escape_u_reads_back c tail :
  c < 32 →
  scanstring (escape_u c ++ tail) = push c (scanstring tail).
Proof.
  revert c. apply (small_cases _ 32). intros i Hi.
  do 32 (destruct i as [|i]; [reflexivity|]). lia.
Qed.

Lemma escape_char_reads_back c tail :
  scanstring (escape_char c ++ tail) = push c (scanstring tail).
Proof.
  unfold escape_char.
  destruct (c =? 34) eqn:E1; [apply N.eqb_eq in E1 as ->; reflexivity|].
  destruct (c =? 92) eqn:E2; [apply N.eqb_eq in E2 as ->; reflexivity|].
  destruct (c =? 8) eqn:E3; [apply N.eqb_eq in E3 as ->; reflexivity|].
  destruct (c =? 12) eqn:E4; [apply N.eqb_eq in E4 as ->; reflexivity|].
  destruct (c =? 10) eqn:E5; [apply N.eqb_eq in E5 as ->; reflexivity|].
  destruct (c =? 13) eqn:E6; [apply N.eqb_eq in E6 as ->; reflexivity|].
  destruct (c =? 9) eqn:E7; [apply N.eqb_eq in E7 as ->; reflexivity|].
  destruct (c <? 32) eqn:E8.
  - apply escape_u_reads_back. by apply N.ltb_lt.
  - cbn [app scanstring]. by rewrite E1, E2, E8.
Qed.

Lemma scanstring_encoded s rest :
  scanstring (concat (escape_char <$> s) ++ 34 :: rest) = Some (s, rest).
Proof.
  induction s as [|c s IH]; [reflexivity|].
  cbn [fmap list_fmap concat]. rewrite <- app_assoc.
  by rewrite escape_char_reads_back, IH.
Qed.


Section ValueRoundTrip.
Context {num : Type} `{!NumCodec num}.
Implicit Types (v : pyobj num) (x : num) (rest tail : pystr).

(** A number that reads back starts with a minus sign or a digit. *)
Lemma reads_back_head x :
  reads_back x →
  ∃ c l, num_repr x = c :: l ∧ (c = 45 ∨ is_digit c = true).
Proof.
  intros Hx. specialize (Hx 44 [] (or_introl eq_refl)).
  unfold scan_number in Hx.
  destruct (scan_integer (num_repr x ++ [44])) as [[integer s1]|] eqn:Hint; [|done].
  clear Hx. unfold scan_integer in Hint.
  destruct (num_repr x) as [|c l]; simpl in Hint.
  - done.
  - exists c, l. split; [done|].
    destruct (c =? 45) eqn:Hminus; [left; by apply N.eqb_eq|right].
    destruct (c =? 48) eqn:Hzero; [by apply N.eqb_eq in Hzero as ->|].
    by destruct (is_digit c).
Qed.

Lemma digit_or_minus_not_space c :
  c = 45 ∨ is_digit c = true →
  (c =? 32) || (c =? 9) || (c =? 10) || (c =? 13) = false.
Proof.
  unfold is_digit. intros [->|[H1 H2]%andb_prop]; [done|].
  apply N.leb_le in H1. repeat (apply orb_false_intro); apply N.eqb_neq; lia.
Qed.

Lemma scan_once_number fuel x d rest :
  reads_back x → d = 44 ∨ d = 10 →
  scan_once (S fuel) (num_repr x ++ d :: rest) = Parsed (PyNum x, d :: rest).
Proof.
  intros Hx Hd. pose proof (Hx d rest Hd) as Hscan.
  destruct (reads_back_head x Hx) as (c & l & Hrepr & Hc).
  rewrite Hrepr in *. cbn [app scan_once].
  assert (c ≠ 34 ∧ c ≠ 123 ∧ c ≠ 91 ∧ c ≠ 110 ∧ c ≠ 116 ∧ c ≠ 102) as (?&?&?&?&?&?).
  { unfold is_digit in Hc. destruct Hc as [->|[H1 H2]%andb_prop]; [done|].
    apply N.leb_le in H1, H2. repeat split; lia. }
  rewrite !(proj2 (N.eqb_neq c _)) by done.
  change (str "null") with [110; 117; 108; 108].
  change (str "true") with [116; 114; 117; 101].
  change (str "false") with [102; 97; 108; 115; 101].
  cbn [strip_prefix].
  rewrite !(proj2 (N.eqb_neq _ c)) by done.
  cbn [app] in Hscan. by rewrite Hscan.
Qed.

Lemma encode_pair (lat lng : num) :
  encode 1 (PyList [PyNum lat; PyNum lng])
  = [91; 10; 32; 32; 32; 32] ++ num_repr lat
      ++ [44; 10; 32; 32; 32; 32] ++ num_repr lng ++ [10; 32; 32; 93].
Proof.
  cbn [encode map join]. change (str "[") with [91]. change (str "]") with [93].
  change (str ",") with [44]. change (newline_indent 2) with [10; 32; 32; 32; 32].
  change (newline_indent 1) with [10; 32; 32].
  by rewrite <- !app_assoc.
Qed.

(** The decoder, one step at a time. *)
Lemma scan_once_array fuel s :
  scan_once (S fuel) (91 :: s)
  = match skip_ws s with
    | q :: s1 =>
        if q =? 93 then Parsed (PyList [], s1) else array_items fuel [] (q :: s1)
    | [] => Invalid
    end.
Proof. reflexivity. Qed.

Lemma array_items_S fuel (values : list (pyobj num)) s :
  array_items (S fuel) values s
  = match scan_once fuel s with
    | Parsed (value, s1) =>
        match skip_ws s1 with
        | d :: s2 =>
            if d =? 93 then Parsed (PyList (values ++ [value]), s2)
            else if d =? 44 then array_items fuel (values ++ [value]) (skip_ws s2)
            else Invalid
        | [] => Invalid
        end
    | Invalid => Invalid
    | Exhausted => Exhausted
    end.
Proof. reflexivity. Qed.

Lemma skip_ws_number x tail :
  reads_back x → skip_ws (num_repr x ++ tail) = num_repr x ++ tail.
Proof.
  intros Hx. destruct (reads_back_head x Hx) as (c & l & -> & Hc).
  cbn [app skip_ws]. by rewrite (digit_or_minus_not_space c Hc).
Qed.

Lemma array_start fuel x tail :
  reads_back x →
  scan_once (S fuel) (91 :: 10 :: 32 :: 32 :: 32 :: 32 :: num_repr x ++ tail)
  = array_items fuel [] (num_repr x ++ tail).
Proof.
  intros Hx. rewrite scan_once_array. cbn [skip_ws N.eqb Pos.eqb orb]. cbv iota.
  rewrite skip_ws_number by done.
  destruct (reads_back_head x Hx) as (c & l & -> & Hc).
  cbn [app]. rewrite (proj2 (N.eqb_neq c 93)); [done|].
  unfold is_digit in Hc. destruct Hc as [->|[H1 H2]%andb_prop]; [done|].
  apply N.leb_le in H2. lia.
Qed.

Lemma scan_once_cache_value v fuel d rest :
  cache_value v → d = 44 ∨ d = 10 →
  scan_once (5 + fuel) (encode 1 v ++ d :: rest) = Parsed (v, d :: rest).
Proof.
  intros Hv Hd. destruct Hv as [|s|lat lng Hlat Hlng].
  - reflexivity.
  - cbn [encode encode_string plus app scan_once]. rewrite <- app_assoc. cbn [app].
    change (34 =? 34) with true. cbv iota. by rewrite scanstring_encoded.
  - rewrite encode_pair, <- !app_assoc.
    change (5 + fuel)%nat with (S (S (S (S (S fuel))))). cbn [app].
    rewrite array_start, array_items_S by done.
    rewrite (scan_once_number _ lat 44) by auto.
    cbn [skip_ws N.eqb Pos.eqb orb]. cbv iota.
    rewrite skip_ws_number, array_items_S by done.
    rewrite (scan_once_number _ lng 10) by auto.
    reflexivity.
Qed.

Lemma cache_value_head v tail :
  cache_value v → skip_ws (encode 1 v ++ tail) = encode 1 v ++ tail.
Proof. by intros [|s|lat lng Hlat Hlng]. Qed.

End ValueRoundTrip.

Section DocumentRoundTrip.
Context {num : Type} `{!NumCodec num}.
Implicit Types (v : pyobj num) (ms : list (pystr * pyobj num)) (rest : pystr).

Lemma scan_once_object fuel s :
  scan_once (S fuel) (123 :: s)
  = match skip_ws s with
    | q :: s1 =>
        if q =? 34 then object_members fuel [] s1
        else if q =? 125 then Parsed (PyDict [], s1)
        else Invalid
    | [] => Invalid
    end.
Proof. reflexivity. Qed.

Lemma object_members_S fuel (pairs : list (pystr * pyobj num)) s :
  object_members (S fuel) pairs s
  = match scanstring s with
    | None => Invalid
    | Some (key, s1) =>
        match skip_ws s1 with
        | colon :: s2 =>
            if colon =? 58 then
              match scan_once fuel (skip_ws s2) with
              | Parsed (value, s3) =>
                  match skip_ws s3 with
                  | d :: s4 =>
                      if d =? 125
                      then Parsed (PyDict (dict_of_pairs (pairs ++ [(key, value)])), s4)
                      else if d =? 44 then
                        match skip_ws s4 with
                        | q :: s5 =>
                            if q =? 34
                            then object_members fuel (pairs ++ [(key, value)]) s5
                            else Invalid
                        | [] => Invalid
                        end
                      else Invalid
                  | [] => Invalid
                  end
              | Invalid => Invalid
              | Exhausted => Exhausted
              end
            else Invalid
        | [] => Invalid
        end
    end.
Proof. reflexivity. Qed.

Lemma members_tail_head ms :
  ∃ d tail, members_tail ms = d :: tail ∧ (d = 44 ∨ d = 10).
Proof. destruct ms as [|[k v] ms]; simpl; eauto. Qed.

Lemma members_tail_length ms : (length ms ≤ length (members_tail ms))%nat.
Proof.
  induction ms as [|[k v] ms IH]; simpl; [lia|].
  rewrite length_app. simpl. rewrite length_app. lia.
Qed.

Lemma object_members_encoded ms : ∀ k v pairs fuel rest,
  cache_value v → Forall cache_value ms.*2 →
  object_members (6 + length ms + fuel) pairs
    (concat (escape_char <$> k) ++ [34; 58; 32] ++ encode 1 v ++ members_tail ms ++ rest)
  = Parsed (PyDict (dict_of_pairs (pairs ++ (k, v) :: ms)), rest).
Proof.
  induction ms as [|[k' v'] ms IH]; intros k v pairs fuel rest Hv Hms.
  - change (6 + length [] + fuel)%nat with (S (5 + fuel)).
    rewrite object_members_S. cbn [app]. rewrite scanstring_encoded.
    cbn [skip_ws N.eqb Pos.eqb orb]. cbv iota.
    rewrite cache_value_head by done. cbn [members_tail app].
    rewrite scan_once_cache_value by auto.
    reflexivity.
  - rewrite fmap_cons in Hms.
    inversion_clear Hms as [|? ? Hv' Hms'].
    change (6 + length ((k', v') :: ms) + fuel)%nat with (S (5 + (S (length ms + fuel)))).
    rewrite object_members_S. cbn [app]. rewrite scanstring_encoded.
    cbn [skip_ws N.eqb Pos.eqb orb]. cbv iota.
    rewrite cache_value_head by done. cbn [members_tail app].
    rewrite scan_once_cache_value by auto.
    cbn [skip_ws N.eqb Pos.eqb orb]. cbv iota.
    rewrite <- !app_assoc. cbn [app].
    change (5 + S (length ms + fuel))%nat with (6 + length ms + fuel)%nat.
    rewrite <- app_assoc.
    etrans; [exact (IH k' v' (pairs ++ [(k, v)]) fuel rest Hv' Hms')|].
    by rewrite <- app_assoc.
Qed.

Lemma join_cons (sep p q : pystr) (more : list pystr) :
  join sep (p :: q :: more) = p ++ sep ++ join sep (q :: more).
Proof. reflexivity. Qed.

Lemma join_members_tail ms : ∀ k v,
  join [44; 10; 32; 32]
    (map (λ kv, encode_string kv.1 ++ [58; 32] ++ encode 1 kv.2) ((k, v) :: ms))
    ++ [10; 125]
  = [34] ++ concat (escape_char <$> k) ++ [34; 58; 32] ++ encode 1 v ++ members_tail ms.
Proof.
  induction ms as [|[k' v'] ms IH]; intros k v.
  - cbn [map join members_tail fst snd]. unfold encode_string.
    by rewrite <- !app_assoc.
  - specialize (IH k' v'). cbn [map fst snd] in *.
    rewrite join_cons, <- !app_assoc, IH. cbn [members_tail]. unfold encode_string.
    by rewrite <- !app_assoc.
Qed.

Lemma encode_dict_tail ms k v :
  encode 0 (PyDict ((k, v) :: ms))
  = [123; 10; 32; 32; 34] ++ concat (escape_char <$> k) ++ [34; 58; 32]
      ++ encode 1 v ++ members_tail ms.
Proof.
  cbn [encode].
  change (str "{") with [123]. change (str "}") with [125].
  change (str ": ") with [58; 32]. change (str ",") with [44].
  change (newline_indent 1) with [10; 32; 32]. change (newline_indent 0) with [10].
  change ([44] ++ [10; 32; 32]) with [44; 10; 32; 32].
  change ([10] ++ [125]) with [10; 125].
  by rewrite join_members_tail.
Qed.

End DocumentRoundTrip.

Section CacheRoundTrip.
Context {num : Type} `{!NumCodec num}.
Implicit Types (v : pyobj num) (ms : list (pystr * pyobj num)).

Lemma dict_set_fresh k v ms :
  k ∉ ms.*1 → dict_set k v ms = ms ++ [(k, v)].
Proof.
  induction ms as [|[k' v'] ms IH]; [done|].
  rewrite fmap_cons, not_elem_of_cons. intros [Hne Hfresh].
  cbn [dict_set app]. unfold pystr_eqb. rewrite bool_decide_eq_false_2 by done.
  by rewrite IH.
Qed.

Lemma dict_of_pairs_from acc ms :
  NoDup (acc ++ ms).*1 →
  foldl (λ d kv, dict_set kv.1 kv.2 d) acc ms = acc ++ ms.
Proof.
  revert acc. induction ms as [|[k v] ms IH]; intros acc Hnd.
  - by rewrite app_nil_r.
  - cbn [foldl fst snd]. rewrite dict_set_fresh.
    + rewrite IH; rewrite <- app_assoc; done.
    + rewrite fmap_app, fmap_cons in Hnd. apply list.NoDup_app in Hnd as (_ & Hsep & _).
      intros Hin. apply (Hsep k Hin). left.
Qed.

(** Distinct keys: [dict(pairs)] keeps the pairs as they are. *)
Lemma dict_of_pairs_distinct ms : NoDup ms.*1 → dict_of_pairs ms = ms.
Proof. intros Hnd. by apply (dict_of_pairs_from []). Qed.

(** A dictionary of cache values with distinct keys, written with
    [indent=2], is read back as it was. *)
Lemma json_loads_dumps_cache ms :
  Forall cache_value ms.*2 → NoDup ms.*1 →
  json_loads (json_dumps (PyDict ms)) = Ret (PyDict ms).
Proof.
  intros Hvalues Hkeys. destruct ms as [|[k v] ms]; [reflexivity|].
  rewrite fmap_cons in Hvalues. inversion_clear Hvalues as [|? ? Hv Hms].
  unfold json_dumps. rewrite encode_dict_tail.
  set (body := concat (escape_char <$> k) ++ [34; 58; 32] ++ encode 1 v ++ members_tail ms).
  unfold json_loads. cbn [app skip_ws N.eqb Pos.eqb orb]. cbv iota.
  set (fuel := (2 * length _)%nat).
  assert (6 + length ms ≤ fuel)%nat as Hfuel.
  { pose proof (members_tail_length ms). subst fuel body. cbn [length].
    rewrite !length_app. lia. }
  rewrite scan_once_object. cbn [skip_ws N.eqb Pos.eqb orb]. cbv iota.
  replace fuel with (6 + length ms + (fuel - 6 - length ms))%nat by lia.
  subst body. rewrite <- (app_nil_r (members_tail ms)).
  rewrite object_members_encoded by done.
  cbn [skip_ws app]. by rewrite dict_of_pairs_distinct.
Qed.

Lemma address_to_py_values (m : gmap pystr (option pystr)) :
  match address_to_py m with
  | PyDict ms => Forall cache_value ms.*2 ∧ NoDup ms.*1
  | _ => False
  end.
Proof.
  unfold address_to_py. split.
  - rewrite <- list_fmap_compose. apply Forall_fmap, list.Forall_forall.
    intros [k [a|]] _; simpl; constructor.
  - rewrite <- list_fmap_compose. apply NoDup_fst_map_to_list.
Qed.

Lemma coords_to_py_values (m : gmap pystr (option (num * num))) :
  (∀ k lat lng, m !! k = Some (Some (lat, lng)) → reads_back lat ∧ reads_back lng) →
  match coords_to_py m with
  | PyDict ms => Forall cache_value ms.*2 ∧ NoDup ms.*1
  | _ => False
  end.
Proof.
  intros Hm. unfold coords_to_py. split.
  - rewrite <- list_fmap_compose. apply Forall_fmap, list.Forall_forall.
    intros [k [[lat lng]|]] Hin; simpl; [|constructor].
    apply elem_of_map_to_list in Hin. destruct (Hm k lat lng Hin). by constructor.
  - rewrite <- list_fmap_compose. apply NoDup_fst_map_to_list.
Qed.

Lemma py_to_address_to_py (m : gmap pystr (option pystr)) :
  py_to_address (address_to_py (num := num) m) = Some m.
Proof.
  unfold py_to_address, address_to_py.
  rewrite mapM_fmap_Some; [|by intros [k [a|]]].
  simpl. by rewrite list_to_map_to_list.
Qed.

Lemma py_to_coords_to_py (m : gmap pystr (option (num * num))) :
  py_to_coords (coords_to_py m) = Some m.
Proof.
  unfold py_to_coords, coords_to_py.
  rewrite mapM_fmap_Some; [|by intros [k [[lat lng]|]]].
  simpl. by rewrite list_to_map_to_list.
Qed.

Lemma load_dumped_address (m : gmap pystr (option pystr)) (fs : gmap pystr pystr) :
  fs !! address_file = Some (json_dumps (address_to_py (num := num) m)) →
  load_address_cache fs = Ret (address_to_py m).
Proof.
  intros Hfile. unfold load_address_cache, load_cache. rewrite Hfile.
  pose proof (address_to_py_values m) as Hshape.
  destruct (address_to_py m) as [| | | | |ms]; try done.
  destruct Hshape. by apply json_loads_dumps_cache.
Qed.

Lemma load_dumped_coords (m : gmap pystr (option (num * num))) (fs : gmap pystr pystr) :
  (∀ k lat lng, m !! k = Some (Some (lat, lng)) → reads_back lat ∧ reads_back lng) →
  fs !! coord_file = Some (json_dumps (coords_to_py m)) →
  load_coord_cache fs = Ret (coords_to_py m).
Proof.
  intros Hnumbers Hfile. unfold load_coord_cache, load_cache. rewrite Hfile.
  pose proof (coords_to_py_values m Hnumbers) as Hshape.
  destruct (coords_to_py m) as [| | | | |ms]; try done.
  destruct Hshape. by apply json_loads_dumps_cache.
Qed.












End CacheRoundTrip.

(** ** The budget of the decoder *)

Section DecoderTotal.
Context {num : Type} `{!NumCodec num}.

Lemma skip_ws_length s : (length (skip_ws s) ≤ length s)%nat.
Proof.
  induction s as [|c s IH]; simpl; [lia|].
  destruct (_ || _); simpl; lia.
Qed.

Lemma skip_ws_cons_length s q rest :
  skip_ws s = q :: rest → (length rest < length s)%nat.
Proof. intros Hs. pose proof (skip_ws_length s). rewrite Hs in *. simpl in *. lia. Qed.

Lemma push_Some c r t rest :
  push c r = Some (t, rest) → ∃ t', r = Some (t', rest).
Proof. destruct r as [[t' rest']|]; simpl; [|done]. intros [= _ ->]. eauto. Qed.

Lemma scanstring_length s t rest :
  scanstring s = Some (t, rest) → (length rest < length s)%nat.
Proof.
  remember (length s) as n eqn:Hn. revert s t rest Hn.
  induction (lt_wf n) as [n _ IH]. intros s t rest -> Hscan.
  assert (∀ s' c, (length s' < length s)%nat → push c (scanstring s') = Some (t, rest) →
                  (length rest < length s)%nat) as Hpush.
  { intros s' c Hlen [t' Ht']%push_Some.
    specialize (IH (length s') Hlen s' t' rest eq_refl Ht'). lia. }
  destruct s as [|c s1]; [done|]. cbn [scanstring] in Hscan.
  destruct (c =? 34).
  { injection Hscan as _ <-. simpl. lia. }
  destruct (c =? 92).
  - destruct s1 as [|esc s2]; [done|].
    destruct (esc =? 117).
    + destruct s2 as [|h1 [|h2 [|h3 [|h4 s3]]]]; try done.
      destruct (decode_uXXXX h1 h2 h3 h4) as [uni|]; [|done].
      destruct (_ && _).
      * destruct s3 as [|b [|u s4]];
          try (apply Hpush in Hscan; [done | simpl; lia]).
        destruct (_ && _); [|apply Hpush in Hscan; [done | simpl; lia]].
        destruct s4 as [|g1 [|g2 [|g3 [|g4 s5]]]]; try done.
        destruct (decode_uXXXX g1 g2 g3 g4) as [uni2|]; [|done].
        destruct (_ && _); apply Hpush in Hscan; solve [done | simpl; lia].
      * apply Hpush in Hscan; [done | simpl; lia].
    + destruct (unescape esc); [|done].
      apply Hpush in Hscan; [done | simpl; lia].
  - destruct (c <? 32); [done|].
    apply Hpush in Hscan; [done | simpl; lia].
Qed.

Lemma strip_prefix_length p s rest :
  strip_prefix p s = Some rest → length s = (length p + length rest)%nat.
Proof.
  revert s. induction p as [|a p IH]; intros s; simpl.
  - by intros [= ->].
  - destruct s as [|b s]; [done|]. destruct (a =? b); [|done].
    intros Hp. simpl. by rewrite (IH s Hp).
Qed.

Lemma span_length p s : (length (span p s).2 ≤ length s)%nat.
Proof.
  induction s as [|c s IH]; simpl; [lia|].
  destruct (p c); simpl; [|lia]. destruct (span p s). simpl in *. lia.
Qed.

Lemma scan_integer_length s integer rest :
  scan_integer s = Some (integer, rest) → (length rest < length s)%nat.
Proof.
  unfold scan_integer.
  assert (∀ s1, (length s1 ≤ length s)%nat →
                match s1 with
                | c :: s2 =>
                    if c =? 48 then Some (integer, s2)
                    else if is_digit c
                         then let '(ds, s3) := span is_digit s2 in Some (integer, s3)
                         else None
                | [] => None
                end = Some (integer, rest) → (length rest < length s)%nat) as Hdigits.
  { intros [|c s2] Hlen; [done|]. simpl in Hlen.
    destruct (c =? 48); [intros [= <-]; lia|].
    destruct (is_digit c); [|done].
    pose proof (span_length is_digit s2). destruct (span is_digit s2). simpl in *.
    intros [= <-]. lia. }
  destruct s as [|c s']; [done|].
  destruct (c =? 45).
  - intros Hs. eapply (Hdigits s'); [simpl; lia|].
    destruct s' as [|c' s2]; [done|].
    destruct (c' =? 48); [by injection Hs as _ ->|].
    destruct (is_digit c'); [|done].
    destruct (span is_digit s2). by injection Hs as _ ->.
  - intros Hs. eapply (Hdigits (c :: s')); [done|].
    destruct (c =? 48); [by injection Hs as _ ->|].
    destruct (is_digit c); [|done].
    destruct (span is_digit s'). by injection Hs as _ ->.
Qed.

Lemma scan_frac_length s : (length (scan_frac s).2 ≤ length s)%nat.
Proof.
  unfold scan_frac. destruct s as [|dot [|d s']]; simpl; try lia.
  destruct (_ && _); simpl; [|lia].
  pose proof (span_length is_digit s'). destruct (span is_digit s'). simpl in *. lia.
Qed.

Lemma scan_exp_length s : (length (scan_exp s).2 ≤ length s)%nat.
Proof.
  unfold scan_exp. destruct s as [|e s1]; simpl; [lia|].
  destruct (_ || _); simpl; [|lia].
  destruct s1 as [|c s2]; simpl; [lia|].
  destruct (is_digit c).
  { pose proof (span_length is_digit s2). destruct (span is_digit s2). simpl in *. lia. }
  destruct (_ || _); simpl; [|lia].
  destruct s2 as [|d s3]; simpl; [lia|].
  destruct (is_digit d); simpl; [|lia].
  pose proof (span_length is_digit s3). destruct (span is_digit s3). simpl in *. lia.
Qed.

Lemma scan_number_length s x rest :
  scan_number s = Some (x, rest) → (length rest < length s)%nat.
Proof.
  unfold scan_number.
  destruct (scan_integer s) as [[integer s1]|] eqn:Hint; [|done].
  apply scan_integer_length in Hint.
  pose proof (scan_frac_length s1). destruct (scan_frac s1) as [frac s2].
  pose proof (scan_exp_length s2). destruct (scan_exp s2) as [exp s3].
  simpl in *. destruct frac, exp; intros [= _ <-]; lia.
Qed.

Lemma progress_shorter (r : parse (pyobj num * pystr)) s s' :
  progress r s → (length s ≤ length s')%nat → progress r s'.
Proof. destruct r as [[o rest]| |]; simpl; [lia|done..]. Qed.

Lemma scan_once_cons fuel c s' :
  scan_once (S fuel) (c :: s')
  = if c =? 34 then
      match scanstring s' with
      | Some (t, rest) => Parsed (PyStr t, rest)
      | None => Invalid
      end
    else if c =? 123 then
      match skip_ws s' with
      | q :: s1 =>
          if q =? 34 then object_members fuel [] s1
          else if q =? 125 then Parsed (PyDict [], s1)
          else Invalid
      | [] => Invalid
      end
    else if c =? 91 then
      match skip_ws s' with
      | q :: s1 =>
          if q =? 93 then Parsed (PyList [], s1)
          else array_items fuel [] (q :: s1)
      | [] => Invalid
      end
    else
      match strip_prefix (str "null") (c :: s') with
      | Some rest => Parsed (PyNone, rest)
      | None =>
      match strip_prefix (str "true") (c :: s') with
      | Some rest => Parsed (PyBool true, rest)
      | None =>
      match strip_prefix (str "false") (c :: s') with
      | Some rest => Parsed (PyBool false, rest)
      | None =>
      match scan_number (c :: s') with
      | Some (x, rest) => Parsed (PyNum x, rest)
      | None =>
      match strip_prefix (str "NaN") (c :: s') with
      | Some rest => Parsed (PyNum (parse_constant (str "NaN")), rest)
      | None =>
      match strip_prefix (str "Infinity") (c :: s') with
      | Some rest => Parsed (PyNum (parse_constant (str "Infinity")), rest)
      | None =>
      match strip_prefix (str "-Infinity") (c :: s') with
      | Some rest => Parsed (PyNum (parse_constant (str "-Infinity")), rest)
      | None => Invalid
      end end end end end end end.
Proof. reflexivity. Qed.

Lemma decoder_progress fuel :
  (∀ s, (2 * length s < fuel)%nat → progress (scan_once fuel s) s)
  ∧ (∀ pairs s, (2 * length s < fuel)%nat → progress (object_members fuel pairs s) s)
  ∧ (∀ values s, (2 * length s + 1 < fuel)%nat → progress (array_items fuel values s) s).
Proof.
  induction fuel as [|fuel (IHscan & IHobject & IHarray)];
    [split_and!; intros; lia|].
  split_and!.
  - intros [|c s'] Hfuel; [done|]. rewrite scan_once_cons. simpl in Hfuel.
    destruct (c =? 34).
    { destruct (scanstring s') as [[t rest]|] eqn:Hstr; [|done].
      apply scanstring_length in Hstr. simpl. lia. }
    destruct (c =? 123).
    { destruct (skip_ws s') as [|q s1] eqn:Hskip; [done|].
      apply skip_ws_cons_length in Hskip.
      destruct (q =? 34).
      - apply (progress_shorter _ s1); [apply IHobject; lia | simpl; lia].
      - destruct (q =? 125); [simpl; lia | done]. }
    destruct (c =? 91).
    { destruct (skip_ws s') as [|q s1] eqn:Hskip; [done|].
      apply skip_ws_cons_length in Hskip.
      destruct (q =? 93); [simpl; lia|].
      apply (progress_shorter _ (q :: s1)); [apply IHarray; simpl; lia | simpl; lia]. }
    repeat match goal with
           | |- progress match strip_prefix ?p ?s with _ => _ end _ =>
               let H := fresh "Hp" in
               destruct (strip_prefix p s) as [rest|] eqn:H;
               [apply strip_prefix_length in H; simpl in H |- *; lia|]
           | |- progress match scan_number ?s with _ => _ end _ =>
               let H := fresh "Hn" in
               destruct (scan_number s) as [[x rest]|] eqn:H;
               [apply scan_number_length in H; simpl in H |- *; lia|]
           end.
    done.
  - intros pairs s Hfuel. rewrite object_members_S.
    destruct (scanstring s) as [[key s1]|] eqn:Hkey; [|done].
    apply scanstring_length in Hkey.
    destruct (skip_ws s1) as [|colon s2] eqn:Hcolon; [done|].
    apply skip_ws_cons_length in Hcolon.
    destruct (colon =? 58); [|done].
    pose proof (skip_ws_length s2) as Hs2.
    pose proof (IHscan (skip_ws s2) ltac:(lia)) as Hvalue.
    destruct (scan_once fuel (skip_ws s2)) as [[value s3]| |]; [|done..].
    simpl in Hvalue.
    destruct (skip_ws s3) as [|d s4] eqn:Hd; [done|].
    apply skip_ws_cons_length in Hd.
    destruct (d =? 125); [simpl; lia|].
    destruct (d =? 44); [|done].
    destruct (skip_ws s4) as [|q s5] eqn:Hq; [done|].
    apply skip_ws_cons_length in Hq.
    destruct (q =? 34); [|done].
    apply (progress_shorter _ s5); [apply IHobject; lia | lia].
  - intros values s Hfuel. rewrite array_items_S.
    pose proof (IHscan s ltac:(lia)) as Hvalue.
    destruct (scan_once fuel s) as [[value s1]| |]; [|done..].
    simpl in Hvalue.
    destruct (skip_ws s1) as [|d s2] eqn:Hd; [done|].
    apply skip_ws_cons_length in Hd.
    destruct (d =? 93); [simpl; lia|].
    destruct (d =? 44); [|done].
    pose proof (skip_ws_length s2) as Hs2.
    apply (progress_shorter _ (skip_ws s2)); [apply IHarray; lia | lia].
Qed.

(** The budget [json_loads] gives [scan_once] never runs out.  (This is
    about the definition; the interpreter's recursion limit is outside
    it.) *)
Lemma json_loads_total text :
  json_loads text ≠ Raise RecursionError.
Proof.
  unfold json_loads.
  pose proof (skip_ws_length text) as Hskip.
  pose proof (proj1 (decoder_progress (S (2 * length text))) (skip_ws text) ltac:(lia))
    as Hscan.
  destruct (scan_once _ _) as [[o rest]| |]; [| |done].
  - destruct text as [|c text']; [by destruct (skip_ws rest)|].
    repeat (match goal with |- context [match ?x with _ => _ end] => destruct x end;
            try done).
  - destruct text as [|c text']; [done|].
    repeat (match goal with |- context [match ?x with _ => _ end] => destruct x end;
            try done).
Qed.

(** An empty or blank file is not JSON. *)
Lemma json_loads_blank text :
  skip_ws text = [] → json_loads text = Raise JSONDecodeError.
Proof.
  intros Hblank. unfold json_loads. rewrite Hblank.
  destruct text as [|c text']; [done|].
  repeat (match goal with |- context [match ?x with _ => _ end] => destruct x end;
          try done).
Qed.

End DecoderTotal.

(** ** Loading a cache *)

Section LoadFacts.
Context {num : Type} `{!NumCodec num}.

(** C2, as the code has it.  A missing file gives the empty store and
    no error.  A file that is there is handed to [json.load], and
    whatever that does is the outcome: on a content that is not JSON it
    raises [JSONDecodeError], which [load_address_cache] and
    [load_coord_cache] do not catch; an empty or blank file is such a
    content. *)
Theorem load_cache_outcomes (fs : gmap pystr pystr) :
  (fs !! address_file = None → load_address_cache (num := num) fs = Ret (PyDict []))
  ∧ (fs !! coord_file = None → load_coord_cache (num := num) fs = Ret (PyDict []))
  ∧ (∀ text, fs !! address_file = Some text →
             load_address_cache (num := num) fs = json_loads text)
  ∧ (∀ text, fs !! coord_file = Some text →
             load_coord_cache (num := num) fs = json_loads text)
  ∧ (∀ text, fs !! address_file = Some text → skip_ws text = [] →
             load_address_cache (num := num) fs = Raise JSONDecodeError)
  ∧ (∀ text, fs !! coord_file = Some text → skip_ws text = [] →
             load_coord_cache (num := num) fs = Raise JSONDecodeError).
Proof.
  unfold load_address_cache, load_coord_cache, load_cache.
  split_and!.
  - by intros ->.
  - by intros ->.
  - by intros text ->.
  - by intros text ->.
  - intros text -> Hblank. by apply json_loads_blank.
  - intros text -> Hblank. by apply json_loads_blank.
Qed.

End LoadFacts.

(** The claim of C2 fails on a file that is not JSON: a cache file cut
    off after its opening brace, or left empty by an interrupted save,
    makes the load raise. *)
Lemma corrupt_cache_file_raises :
  load_address_cache (num := pystr) {[ address_file := str "{" ]} = Raise JSONDecodeError
  ∧ load_coord_cache (num := pystr) {[ coord_file := [] ]} = Raise JSONDecodeError.
Proof. split; vm_compute; reflexivity. Qed.

(** C2 on a first run (no file) and on a file that holds one space. *)
Lemma load_cache_outcomes_witness :
  load_address_cache (num := pystr) ∅ = Ret (PyDict [])
  ∧ load_address_cache (num := pystr) {[ address_file := str " " ]} = Raise JSONDecodeError.
Proof.
  split.
  - apply (load_cache_outcomes ∅). reflexivity.
  - destruct (load_cache_outcomes (num := pystr) {[ address_file := str " " ]})
      as (_ & _ & _ & _ & Hblank & _).
    apply (Hblank (str " ")); reflexivity.
Defined.



(** ** The model on the scenarios of the specification *)

(** The file [json.dump] writes for a cache with one negative result: an
    opening brace, the member on a line of its own after two spaces,
    the closing brace on the last line. *)
Example address_file_text :
  json_dumps (address_to_py (num := pystr) {[ str "12345" := None ]})
  = [123; 10; 32; 32; 34; 49; 50; 51; 52; 53; 34; 58; 32; 110; 117; 108; 108; 10; 125].
Proof. vm_compute. reflexivity. Qed.

(** The decoder on a document that is no cache: nested containers, a
    key with a quote and a line feed in it, the constants, and numbers
    in every form. *)
Example json_round_trip_example :
  let document : pyobj pystr :=
    PyDict [ (str "a", PyList [PyBool true; PyBool false; PyNone; PyList []; PyDict []]);
             ([113; 34; 10; 120; 229], PyDict [(str "b", PyStr [9; 92; 127])]);
             (str "n", PyList [PyNum (str "0"); PyNum (str "-12"); PyNum (str "59.86");
                               PyNum (str "1e+16"); PyNum (str "-1.5e-07")]) ] in
  json_loads (json_dumps document) = Ret document.
Proof. vm_compute. reflexivity. Qed.

(** End to end: the page has the line "Adress" followed by
    "Kungsgatan 10", the geocoder knows "Kungsgatan 10, Uppsala, Sweden";
    one entry is emitted and each cache gains one entry. *)
Example end_to_end_scenario :
  let run := GoogleMaps.resolve_all
               (page_text [65; 100; 114; 101; 115; 115; 10;
                           75; 117; 110; 103; 115; 103; 97; 116; 97; 110; 32; 49; 48])
               (gmaps_table [(str "Kungsgatan 10, Uppsala, Sweden", uppsala)])
               [test_row] empty_world in
  run.1 = Ret [ SchoolEntry (str "12345") (str "Test School") (str "Uppsala")
                            (str "Kungsgatan 10") (str "280.5") (str "59.86") (str "17.64") ]
  ∧ address_cache run.2 = {[ str "12345" := Some (str "Kungsgatan 10") ]}
  ∧ coord_cache run.2 = {[ str "Kungsgatan 10|Uppsala" := Some uppsala ]}.
Proof. vm_compute. split_and!; reflexivity. Qed.

(** A first run starts from empty caches; with a cache file that is not
    JSON the mapper is not constructed. *)
Example construction_scenarios :
  SchoolMapper_init ∅ = Ret (Some empty_world)
  ∧ SchoolMapper_init (num := pystr) {[ address_file := str "{" ]} = Raise JSONDecodeError.
Proof. split; vm_compute; reflexivity. Qed.

(** Dropped row: the page answers 404 and the geocoder knows nothing;
    nothing is emitted, and both negative results are cached. *)
Example dropped_row_scenario :
  let run := GoogleMaps.resolve_all page_404 (gmaps_table []) [test_row] empty_world in
  run.1 = Ret []
  ∧ address_cache run.2 = {[ str "12345" := None ]}
  ∧ coord_cache run.2 = {[ str "None|Uppsala" := None ]}
  ∧ queries (trace run.2) = [str "Uppsala, Sweden"].
Proof. vm_compute. split_and!; reflexivity. Qed.

(** ** Trimmed strings *)

Lemma lstrip_app_nonspace l c :
  py_isspace c = false → lstrip (l ++ [c]) = lstrip l ++ [c].
Proof.
  intros Hc. induction l as [|x l IH]; simpl.
  - by rewrite Hc.
  - by destruct (py_isspace x).
Qed.

Lemma rstrip_cons_nonspace c s :
  py_isspace c = false → rstrip (c :: s) = c :: rstrip s.
Proof.
  intros Hc. unfold rstrip. cbn [rev].
  by rewrite lstrip_app_nonspace, rev_app_distr.
Qed.

Lemma lstrip_head s :
  lstrip s = [] ∨ ∃ c t, lstrip s = c :: t ∧ py_isspace c = false.
Proof.
  induction s as [|x s IH]; simpl; [by left|].
  destruct (py_isspace x) eqn:Hx; [done|]. right. eauto.
Qed.

Lemma lstrip_nonspace c t : py_isspace c = false → lstrip (c :: t) = c :: t.
Proof. intros Hc. simpl. by rewrite Hc. Qed.

(** What [strip] returns does not start with white space. *)
Lemma strip_head s :
  strip s = [] ∨ ∃ c t, strip s = c :: t ∧ py_isspace c = false.
Proof.
  unfold strip. destruct (lstrip_head s) as [->|(c & t & -> & Hc)].
  - by left.
  - right. rewrite rstrip_cons_nonspace by done. eauto.
Qed.

Lemma lstrip_idem s : lstrip (lstrip s) = lstrip s.
Proof.
  destruct (lstrip_head s) as [->|(c & t & -> & Hc)]; [done|].
  by apply lstrip_nonspace.
Qed.

Lemma rstrip_idem s : rstrip (rstrip s) = rstrip s.
Proof. unfold rstrip. by rewrite rev_involutive, lstrip_idem. Qed.

Lemma strip_idem s : strip (strip s) = strip s.
Proof.
  assert (lstrip (strip s) = strip s) as Hleft.
  { destruct (strip_head s) as [->|(c & t & -> & Hc)]; [done|].
    by apply lstrip_nonspace. }
  unfold strip at 1. rewrite Hleft. unfold strip. apply rstrip_idem.
Qed.



Lemma scan_lines_trimmed lines a :
  scan_lines lines = Some a → strip a = a.
Proof.
  induction lines as [|line rest IH]; simpl; [done|].
  destruct rest as [|next rest']; [done|].
  destruct (pystr_eqb (strip line) (str "Adress")); [|exact IH].
  destruct (negb _ && _); [|exact IH].
  intros [= <-]. apply strip_idem.
Qed.

Lemma extract_address_trimmed text a :
  extract_address text = Some a → strip a = a.
Proof.
  unfold extract_address, fallback_pattern.
  destruct (scan_lines _) as [found|] eqn:Hscan.
  - intros [= <-]. by apply scan_lines_trimmed in Hscan.
  - destruct (re_search _ _) as [g|]; simpl; [|done].
    intros [= <-]. apply strip_idem.
Qed.



(** ** The line scan *)

Lemma address_pair_shift line lines i a :
  address_pair (line :: lines) (S i) a ↔ address_pair lines i a.
Proof. unfold address_pair. by setoid_rewrite lookup_cons. Qed.

Lemma address_pair_head line next rest a :
  address_pair (line :: next :: rest) 0 a
  ↔ strip line = str "Adress" ∧ (3 < length (strip next))%nat ∧ a = strip next.
Proof.
  unfold address_pair. split.
  - intros (label & next' & [= <-] & [= <-] & ?). done.
  - intros (? & ? & ?). by exists line, next.
Qed.

Lemma scan_lines_step line next rest :
  scan_lines (line :: next :: rest)
  = if bool_decide (strip line = str "Adress" ∧ (3 < length (strip next))%nat)
    then Some (strip next)
    else scan_lines (next :: rest).
Proof.
  cbn [scan_lines]. unfold pystr_eqb.
  destruct (decide (strip line = str "Adress")) as [Hlabel|Hlabel].
  - rewrite (bool_decide_eq_true_2 _ Hlabel).
    destruct (decide (3 < length (strip next))%nat) as [Hlen|Hlen].
    + rewrite (bool_decide_eq_true_2 (_ ∧ _)) by done.
      rewrite (bool_decide_eq_false_2 (strip next = [])).
      * by rewrite (proj2 (Nat.ltb_lt _ _) Hlen).
      * intros Hnil. rewrite Hnil in Hlen. simpl in Hlen. lia.
    + rewrite (bool_decide_eq_false_2 (_ ∧ _)) by (intros [_ ?]; done).
      rewrite (proj2 (Nat.ltb_ge _ _)) by lia. by rewrite andb_false_r.
  - rewrite (bool_decide_eq_false_2 _ Hlabel).
    by rewrite (bool_decide_eq_false_2 (_ ∧ _)) by (intros [? _]; done).
Qed.

Lemma scan_lines_first_pair lines a :
  scan_lines lines = Some a
  ↔ ∃ i, address_pair lines i a ∧ ∀ j b, (j < i)%nat → ¬ address_pair lines j b.
Proof.
  induction lines as [|line rest IH].
  - split; [done|]. intros (i & (label & next & Hi & _) & _). done.
  - destruct rest as [|next rest].
    + split; [done|]. intros (i & (label & nxt & _ & Hi & _) & _). done.
    + rewrite scan_lines_step. case_bool_decide as Hhead.
      * split.
        -- intros [= <-]. exists 0%nat. split; [|intros j b Hj; lia].
           apply address_pair_head. by destruct Hhead.
        -- intros (i & Hpair & Hfirst). destruct i as [|i].
           ++ by apply address_pair_head in Hpair as (_ & _ & ->).
           ++ destruct (Hfirst 0%nat (strip next)); [lia|].
              apply address_pair_head. by destruct Hhead.
      * rewrite IH. split.
        -- intros (i & Hpair & Hfirst). exists (S i). split.
           ++ by apply address_pair_shift.
           ++ intros [|j] b Hj.
              ** intros (? & ? & _)%address_pair_head. by apply Hhead.
              ** rewrite address_pair_shift. apply Hfirst. lia.
        -- intros (i & Hpair & Hfirst). destruct i as [|i].
           ++ apply address_pair_head in Hpair as (? & ? & _). by destruct Hhead.
           ++ exists i. split; [by apply address_pair_shift in Hpair|].
              intros j b Hj. rewrite <- (address_pair_shift line). apply Hfirst. lia.
Qed.

Lemma scan_lines_no_pair lines :
  scan_lines lines = None ↔ ∀ i a, ¬ address_pair lines i a.
Proof.
  induction lines as [|line rest IH].
  - split; [|done]. intros _ i a (label & next & Hi & _). done.
  - destruct rest as [|next rest].
    + split; [|done]. intros _ i a (label & nxt & _ & Hi & _). done.
    + rewrite scan_lines_step. case_bool_decide as Hhead.
      * split; [done|]. intros Hno. destruct (Hno 0%nat (strip next)).
        apply address_pair_head. by destruct Hhead.
      * rewrite IH. split.
        -- intros Hno [|i] a.
           ++ intros (? & ? & _)%address_pair_head. by apply Hhead.
           ++ rewrite address_pair_shift. apply Hno.
        -- intros Hno i a. rewrite <- (address_pair_shift line). apply Hno.
Qed.

(** The line scan of [get_school_address], in full.  It returns [a]
    exactly when [a] comes from the first pair of consecutive lines of
    which the first, trimmed, is the label "Adress" and the second,
    trimmed, has more than three characters ([a] is that second line,
    trimmed); a label followed by a shorter line is passed over.  It
    finds nothing exactly when the page has no such pair. *)
Theorem line_scan_takes_first_pair lines :
  (∀ a, scan_lines lines = Some a
        ↔ ∃ i, address_pair lines i a ∧ ∀ j b, (j < i)%nat → ¬ address_pair lines j b)
  ∧ (scan_lines lines = None ↔ ∀ i a, ¬ address_pair lines i a).
Proof.
  split.
  - apply scan_lines_first_pair.
  - apply scan_lines_no_pair.
Qed.

(** ** The fallback pattern *)

Section Matcher.
Implicit Types (p : N → bool) (g : bool) (items : list item) (s r : pystr).

(** The matcher, one item at a time. *)
Lemma match_here_lit c items s :
  match_here (lit c :: items) s
  = match s with
    | x :: s' => if c =? x then match_here items s' else None
    | [] => None
    end.
Proof.
  destruct s as [|x s']; [done|]. cbn [match_here lit qty accepts].
  destruct (c =? x); [|done]. by destruct (match_here items s').
Qed.

Lemma match_here_opt p g items s :
  match_here (Item p Opt g :: items) s
  = match s with
    | c :: s' =>
        if p c
        then match match_here items s' with
             | Some captured => Some (keep (Item p Opt g) c captured)
             | None => match_here items s
             end
        else match_here items s
    | [] => match_here items s
    end.
Proof. by destruct s. Qed.

Lemma match_here_star p g items s :
  match_here (Item p Star g :: items) s
  = match s with
    | c :: s' =>
        if p c
        then match match_here (Item p Star g :: items) s' with
             | Some captured => Some (keep (Item p Star g) c captured)
             | None => match_here items s
             end
        else match_here items s
    | [] => match_here items s
    end.
Proof. by destruct s. Qed.

Lemma match_here_plus p g items s :
  match_here (Item p Plus g :: items) s
  = match s with
    | c :: s' =>
        if p c
        then keep (Item p Plus g) c <$> match_here (Item p Star g :: items) s'
        else None
    | [] => None
    end.
Proof. by destruct s. Qed.

Lemma match_here_literal (word : pystr) items s :
  match_here ((lit <$> word) ++ items) s
  = match strip_prefix word s with
    | Some r => match_here items r
    | None => None
    end.
Proof.
  revert s. induction word as [|c word IH]; intros s; [done|].
  cbn [fmap list_fmap app]. rewrite match_here_lit.
  destruct s as [|x s']; [done|]. cbn [strip_prefix].
  destruct (c =? x); [apply IH | done].
Qed.

Lemma strip_prefix_Some (word : pystr) s r :
  strip_prefix word s = Some r ↔ s = word ++ r.
Proof.
  revert s. induction word as [|c word IH]; intros s; simpl.
  - split; congruence.
  - destruct s as [|x s']; [done|].
    destruct (c =? x) eqn:Hc.
    + apply N.eqb_eq in Hc as ->. rewrite IH. split; congruence.
    + apply N.eqb_neq in Hc. split; [done|]. congruence.
Qed.

(** [re.search] fails when the pattern matches at no position. *)
Lemma re_search_None items s :
  re_search items s = None
  ↔ ∀ before r, s = before ++ r → match_here items r = None.
Proof.
  induction s as [|c s IH].
  - cbn [re_search]. split.
    + intros Hm before r Hs. symmetry in Hs. apply app_eq_nil in Hs as [_ ->].
      by destruct (match_here items []).
    + intros Hall. by rewrite (Hall [] []).
  - cbn [re_search]. destruct (match_here items (c :: s)) as [captured|] eqn:Hhere.
    + split; [done|]. intros Hall. by rewrite (Hall [] (c :: s)) in Hhere.
    + rewrite IH. split.
      * intros Hall [|x before] r Hs.
        -- simpl in Hs. by subst r.
        -- injection Hs as -> ->. by apply (Hall before).
      * intros Hall before r ->. by apply (Hall (c :: before)).
Qed.

End Matcher.

Section FallbackFacts.

#[local] Abbreviation text_char := (Item (λ c, negb (c =? newline)) Plus true).
#[local] Abbreviation spaces := (Item py_isspace Star false).
#[local] Abbreviation colon := (Item (N.eqb 58) Opt false).

Lemma newline_is_space c : py_isspace c = false → (c =? newline) = false.
Proof.
  intros Hc. destruct (c =? newline) eqn:Hnl; [|done].
  apply N.eqb_eq in Hnl as ->. done.
Qed.

Lemma text_run_matches s :
  is_Some (match_here [Item (λ c, negb (c =? newline)) Star true] s).
Proof.
  induction s as [|c s IH]; rewrite match_here_star; [by eexists|].
  destruct (negb _); [|by eexists].
  destruct IH as [captured ->]. by eexists.
Qed.

Lemma text_char_None s :
  match_here [text_char] s = None ↔ s = [] ∨ ∃ s', s = newline :: s'.
Proof.
  rewrite match_here_plus. destruct s as [|c s'].
  - split; [by left|done].
  - destruct (text_run_matches s') as [captured ->].
    destruct (c =? newline) eqn:Hc; cbn [negb fmap option_fmap option_map].
    + apply N.eqb_eq in Hc as ->. split; [|done]. right. eauto.
    + split; [done|]. intros [|[s'' [= -> ->]]]; [done|].
      by rewrite N.eqb_refl in Hc.
Qed.

Lemma spaces_text_None s :
  match_here [spaces; text_char] s = None ↔ Forall (λ c, c = newline) s.
Proof.
  induction s as [|c s IH]; rewrite match_here_star.
  - rewrite text_char_None. split; [done|]. by left.
  - assert (match_here [text_char] (c :: s) = None ↔ c = newline) as Hhead.
    { rewrite text_char_None. split.
      - intros [|[s' [= -> _]]]; done.
      - intros ->. right. eauto. }
    rewrite list.Forall_cons.
    destruct (py_isspace c) eqn:Hc.
    + destruct (match_here _ s) as [captured|] eqn:Hs.
      * split; [done|]. intros [_ Hall]. apply IH in Hall. done.
      * rewrite Hhead. split; [|by intros [? _]].
        intros ->. split; [done|]. by apply IH.
    + rewrite Hhead. split; [|by intros [? _]].
      intros ->. done.
Qed.

Lemma label_tail_None s :
  match_here [colon; spaces; text_char] s = None ↔ Forall (λ c, c = newline) s.
Proof.
  rewrite match_here_opt. destruct s as [|c s].
  - apply spaces_text_None.
  - destruct (58 =? c) eqn:Hc; [|apply spaces_text_None].
    apply N.eqb_eq in Hc as <-.
    assert (match_here [spaces; text_char] (58 :: s) ≠ None) as Hback.
    { rewrite spaces_text_None. by intros [[=] _]%list.Forall_cons. }
    split.
    + destruct (match_here _ s); [done|]. intros Hnone. by destruct Hback.
    + by intros [[=] _]%list.Forall_cons.
Qed.

Lemma address_pattern_None s :
  match_here address_pattern s = None
  ↔ ∀ r, s = str "Adress" ++ r → Forall (λ c, c = newline) r.
Proof.
  unfold address_pattern. rewrite match_here_literal.
  destruct (strip_prefix (str "Adress") s) as [r|] eqn:Hr.
  - apply strip_prefix_Some in Hr as ->.
    etrans; [apply label_tail_None|].
    split; [|by eauto]. by intros Hall r' ->%app_inv_head.
  - split; [|done]. intros _ r Hs. apply strip_prefix_Some in Hs. congruence.
Qed.

Lemma all_newlines_or_text (r : pystr) :
  Forall (λ c, c = newline) r
  ∨ ∃ between c after, r = between ++ c :: after ∧ c ≠ newline.
Proof.
  induction r as [|x r [IH|(between & c & after & -> & Hc)]].
  - by left.
  - destruct (decide (x = newline)) as [->|Hx].
    + left. by constructor.
    + right. by exists [], x, r.
  - right. by exists (x :: between), c, after.
Qed.

Lemma fallback_pattern_None text :
  fallback_pattern text = None ↔ ¬ label_with_text text.
Proof.
  unfold fallback_pattern, label_with_text.
  rewrite fmap_None, re_search_None. split.
  - intros Hall (before & between & c & after & -> & Hc).
    specialize (Hall before _ eq_refl). rewrite address_pattern_None in Hall.
    specialize (Hall _ eq_refl).
    apply Forall_app in Hall as [_ [? _]%list.Forall_cons]. done.
  - intros Hno before r ->. apply address_pattern_None. intros r' ->.
    destruct (all_newlines_or_text r') as [|(between & c & after & -> & Hc)]; [done|].
    destruct Hno. by exists before, between, c, after.
Qed.

End FallbackFacts.

(** ** A page without an address *)

Lemma split_lines_unfold s :
  ∃ line,
    (split_lines s = [line] ∧ s = line)
    ∨ (∃ after, split_lines s = line :: split_lines after ∧ s = line ++ newline :: after).
Proof.
  induction s as [|c s (line & [[Hone ->]|(after & Hmore & ->)])].
  - exists []. by left.
  - cbn [split_lines]. destruct (c =? newline) eqn:Hc.
    + apply N.eqb_eq in Hc as ->. exists []. right. by exists line.
    + exists (c :: line). left. by rewrite Hone.
  - cbn [split_lines]. destruct (c =? newline) eqn:Hc.
    + apply N.eqb_eq in Hc as ->. exists []. right. by exists (line ++ newline :: after).
    + exists (c :: line). right. exists after. by rewrite Hmore.
Qed.

(** Two consecutive lines of a text stand in it one after the other,
    with a line feed in between. *)
Lemma split_lines_consecutive s i l n :
  split_lines s !! i = Some l → split_lines s !! S i = Some n →
  ∃ before after, s = before ++ l ++ newline :: n ++ after.
Proof.
  revert s. induction i as [|i IH]; intros s Hl Hn.
  - destruct (split_lines_unfold s) as (line & [[Hone _]|(rest & Hmore & ->)]).
    { by rewrite Hone in Hn. }
    rewrite Hmore in Hl, Hn. injection Hl as ->. cbn [lookup list_lookup] in Hn.
    destruct (split_lines_unfold rest) as (first & [[Hone ->]|(after & Hfirst & ->)]).
    + rewrite Hone in Hn. injection Hn as ->. exists [], []. by rewrite app_nil_r.
    + rewrite Hfirst in Hn. injection Hn as ->. by exists [], (newline :: after).
  - destruct (split_lines_unfold s) as (line & [[Hone _]|(rest & Hmore & ->)]).
    { by rewrite Hone in Hn. }
    rewrite Hmore in Hl, Hn.
    destruct (IH rest Hl Hn) as (before & after & ->).
    exists (line ++ newline :: before), after. by rewrite <- app_assoc.
Qed.

Lemma lstrip_suffix s : ∃ a, s = a ++ lstrip s.
Proof.
  induction s as [|c s [a Ha]]; [by exists []|]. simpl.
  destruct (py_isspace c); [|by exists []].
  exists (c :: a). by rewrite Ha at 1.
Qed.

Lemma strip_infix s : ∃ a b, s = a ++ strip s ++ b.
Proof.
  destruct (lstrip_suffix s) as [a Ha].
  destruct (lstrip_suffix (rev (lstrip s))) as [b Hb].
  exists a, (rev b). unfold strip, rstrip.
  rewrite <- rev_app_distr, <- Hb, rev_involutive. done.
Qed.

Lemma line_scan_needs_label text a :
  scan_lines (split_lines text) = Some a → label_with_text text.
Proof.
  intros (i & (label & next & Hlabel & Hnext & Hword & Hlen & _) & _)%scan_lines_first_pair.
  destruct (split_lines_consecutive text i label next Hlabel Hnext) as (before & after & ->).
  destruct (strip_infix label) as (l1 & l2 & Hl). rewrite Hword in Hl.
  destruct (strip_infix next) as (n1 & n2 & Hn).
  destruct (strip_head next) as [Hnil|(c & t & Hct & Hc)].
  { rewrite Hnil in Hlen. simpl in Hlen. lia. }
  rewrite Hct in Hn.
  exists (before ++ l1), (l2 ++ newline :: n1), c, (t ++ n2 ++ after). split.
  - rewrite Hl, Hn. by rewrite <- !app_assoc.
  - intros ->. done.
Qed.

Lemma extract_address_None text :
  extract_address text = None ↔ ¬ label_with_text text.
Proof.
  unfold extract_address.
  destruct (scan_lines (split_lines text)) as [a|] eqn:Hscan.
  - apply line_scan_needs_label in Hscan. split; [done|]. by intros [].
  - apply fallback_pattern_None.
Qed.

(** When a page yields no address.  The fallback pattern fails only on
    a text that nowhere has the word "Adress" followed, at any
    distance, by a character other than a line feed; and the line scan
    never succeeds on such a text.  So an uncached school whose page is
    served with status 200 gets the negative result [None] exactly
    when its visible text mentions no label, or nothing but line feeds
    after it: any other mention of "Adress" produces some address. *)
Theorem no_address_only_without_label text :
  (fallback_pattern text = None ↔ ¬ label_with_text text)
  ∧ (extract_address text = None ↔ ¬ label_with_text text)
  ∧ (∀ (num : Type) page id (w : world num),
        address_cache w !! id = None →
        page (trace w) (school_url id) = Response 200 text →
        ((get_school_address page id w).1 = Ret None ↔ ¬ label_with_text text)).
Proof.
  split_and!.
  - apply fallback_pattern_None.
  - apply extract_address_None.
  - intros num page id w Hmiss Hpage.
    rewrite get_school_address_miss by done. cbv zeta. cbn [fst].
    rewrite Hpage. cbn [expected_address]. change (200 =? 200) with true. cbv iota.
    rewrite <- extract_address_None. split; congruence.
Qed.

(** A page that only says "Adressen saknas" (the address is missing)
    gives an address all the same, here "en saknas"; a page without
    the word gives none. *)
Lemma no_address_only_without_label_witness :
  (get_school_address (page_text (str "Adressen saknas")) (str "12345") empty_world).1
  ≠ Ret None
  ∧ ¬ label_with_text (str "Skolan har flyttat").
Proof.
  destruct (no_address_only_without_label (str "Adressen saknas")) as (_ & _ & Hpage).
  destruct (no_address_only_without_label (str "Skolan har flyttat")) as (_ & Hnone & _).
  split.
  - intros Hrun.
    apply (proj1 (Hpage pystr (page_text (str "Adressen saknas")) (str "12345") empty_world
                    eq_refl eq_refl) Hrun).
    by exists [], [], 101, (str "n saknas").
  - apply Hnone. vm_compute. reflexivity.
Defined.

(** ** What one call does to the world *)

Section StepFacts.
Context {num : Type} `{!NumCodec num}.
Implicit Types (w : world num) (row : school_row num) (data : list (school_entry num)).

Lemma world_eta w :
  World (address_cache w) (coord_cache w) (files w) (trace w) = w.
Proof. by destruct w. Qed.

(** [get_school_address]: the cache holds the answer afterwards; a hit
    adds no event, a miss adds the one request. *)
Lemma get_school_address_world page id w :
  ∃ addr events,
    get_school_address page id w
    = (Ret addr, World (<[id := addr]> (address_cache w)) (coord_cache w) (files w)
                       (trace w ++ events))
    ∧ (address_cache w !! id = Some addr ∧ events = []
       ∨ address_cache w !! id = None ∧ events = [HttpGet (school_url id)]
         ∧ addr = expected_address (page (trace w) (school_url id))).
Proof.
  destruct (address_cache w !! id) as [v|] eqn:Hid.
  - exists v, []. rewrite (get_school_address_hit _ _ _ v) by done.
    rewrite insert_id, app_nil_r, world_eta by done. split; [done|]. by left.
  - eexists _, _. rewrite get_school_address_miss by done. cbv zeta.
    split; [done|]. right. done.
Qed.

(** The candidate loop of the Google Maps script asks a prefix of the
    candidates, one query each, and all of them when it finds nothing. *)
Lemma google_try_addresses_world gmaps key candidates w :
  ∃ coords asked,
    GoogleMaps.try_addresses gmaps key candidates w
    = (Ret coords,
       World (address_cache w) (<[key := coords]> (coord_cache w)) (files w)
             (trace w ++ (Geocode <$> asked)))
    ∧ asked `prefix_of` candidates
    ∧ (coords = None → asked = candidates).
Proof.
  revert w. induction candidates as [|c later IH]; intros w.
  - exists None, []. rewrite app_nil_r. by run.
  - cbn [GoogleMaps.try_addresses]. unfold GoogleMaps.gmaps_geocode. run.
    set (w1 := World (address_cache w) (coord_cache w) (files w) (trace w ++ [Geocode c])).
    destruct (IH w1) as (coords & asked & Hrun & Hprefix & Hall).
    assert (∃ coords asked,
               GoogleMaps.try_addresses gmaps key later w1
               = (Ret coords,
                  World (address_cache w) (<[key := coords]> (coord_cache w)) (files w)
                        (trace w ++ (Geocode <$> asked)))
               ∧ asked `prefix_of` c :: later
               ∧ (coords = None → asked = c :: later)) as Hrest.
    { exists coords, (c :: asked). rewrite Hrun. subst w1. simpl.
      rewrite <- app_assoc. split_and!; [done| |].
      - by apply prefix_cons.
      - intros Hnone. by rewrite Hall. }
    destruct (gmaps (trace w) c) as [|[|[lat lng] others]]; simpl; [done..|].
    exists (Some (lat, lng)), [c]. split_and!; [done| |done].
    apply prefix_cons, prefix_nil.
Qed.

Lemma google_search_addresses_length addr town :
  (1 ≤ length (GoogleMaps.search_addresses addr town) ≤ 3)%nat.
Proof. destruct addr as [[|c a]|]; simpl; lia. Qed.

(** [geocode_address] of the Google Maps script: it always returns, the
    coordinate cache holds the answer under the key afterwards, a hit
    adds no event, and a miss adds queries only. *)
Lemma google_geocode_world gmaps addr town w :
  ∃ coords asked,
    GoogleMaps.geocode_address gmaps addr town w
    = (Ret coords,
       World (address_cache w) (<[cache_key addr town := coords]> (coord_cache w)) (files w)
             (trace w ++ (Geocode <$> asked)))
    ∧ (coord_cache w !! cache_key addr town = Some coords ∧ asked = []
       ∨ coord_cache w !! cache_key addr town = None
         ∧ asked `prefix_of` GoogleMaps.search_addresses addr town
         ∧ (coords = None → asked = GoogleMaps.search_addresses addr town)).
Proof.
  destruct (coord_cache w !! cache_key addr town) as [v|] eqn:Hkey.
  - exists v, []. rewrite (google_geocode_hit _ _ _ _ v) by done.
    rewrite insert_id by done. simpl. rewrite app_nil_r, world_eta.
    split; [done|]. by left.
  - unfold GoogleMaps.geocode_address. run. rewrite Hkey.
    destruct (google_try_addresses_world gmaps (cache_key addr town)
                (GoogleMaps.search_addresses addr town) w)
      as (coords & asked & -> & Hprefix & Hall).
    exists coords, asked. split; [done|]. right. done.
Qed.

(** One turn of the Google Maps loop, given what the two resolvers
    did. *)
Lemma google_process_row_unfold page gmaps idx row data w addr w1 coords w2 :
  get_school_address page (Skol_enhetskod row) w = (Ret addr, w1) →
  GoogleMaps.geocode_address gmaps addr (Skolkommun row) w1 = (Ret coords, w2) →
  GoogleMaps.process_row page gmaps idx row data w
  = (Ret (data ++ row_output row addr coords),
     World (address_cache w2) (coord_cache w2)
           (if (idx mod 100 =? 0)%nat
            then <[coord_file := json_dumps (coords_to_py (coord_cache w2))]>
                   (<[address_file := json_dumps (address_to_py (address_cache w2))]>
                      (files w2))
            else files w2)
           (trace w2 ++ if decide (is_Some (address_cache w !! Skol_enhetskod row))
                        then [] else [Sleep 200])).
Proof.
  intros Haddr Hgeo. unfold GoogleMaps.process_row.
  rewrite (bind_ret _ _ w (address_cache w) w) by done.
  rewrite (bind_ret _ _ w addr w1) by done.
  rewrite (bind_ret _ _ w1 coords w2) by done.
  assert (data ++ row_output row addr coords
          = match coords with
            | Some (lat, lng) =>
                data ++ [SchoolEntry (Skol_enhetskod row) (Skola row) (Skolkommun row)
                           (py_or addr (Skolkommun row)) (row_merit_value row) lat lng]
            | None => data
            end) as <-.
  { destruct coords as [[lat lng]|]; simpl; [done | by rewrite app_nil_r]. }
  destruct (idx mod 100 =? 0)%nat.
  - rewrite (bind_ret _ _ w2 () _ (save_caches_effect w2)).
    destruct (decide (is_Some (address_cache w !! Skol_enhetskod row))) as [Hs|Hs].
    + rewrite (bool_decide_eq_true_2 _ Hs). run. by rewrite app_nil_r.
    + rewrite (bool_decide_eq_false_2 _ Hs). by run.
  - rewrite (bind_ret _ _ w2 () w2) by done.
    destruct (decide (is_Some (address_cache w !! Skol_enhetskod row))) as [Hs|Hs].
    + rewrite (bool_decide_eq_true_2 _ Hs). run. by rewrite app_nil_r, world_eta.
    + rewrite (bool_decide_eq_false_2 _ Hs). by run.
Qed.

(** One turn of the Google Maps loop, in full. *)
Lemma google_process_row_world page gmaps idx row data w :
  ∃ addr coords asked w',
    GoogleMaps.process_row page gmaps idx row data w
    = (Ret (data ++ row_output row addr coords), w')
    ∧ address_cache w' = <[Skol_enhetskod row := addr]> (address_cache w)
    ∧ coord_cache w' = <[cache_key addr (Skolkommun row) := coords]> (coord_cache w)
    ∧ (∀ path, path ≠ address_file → path ≠ coord_file → files w' !! path = files w !! path)
    ∧ ((idx mod 100 = 0)%nat → saved w')
    ∧ (address_cache w !! Skol_enhetskod row = Some addr
       ∧ trace w' = trace w ++ (Geocode <$> asked)
       ∨ address_cache w !! Skol_enhetskod row = None
         ∧ addr = expected_address (page (trace w) (school_url (Skol_enhetskod row)))
         ∧ trace w' = trace w ++ [HttpGet (school_url (Skol_enhetskod row))]
                        ++ (Geocode <$> asked) ++ [Sleep 200])
    ∧ (coord_cache w !! cache_key addr (Skolkommun row) = Some coords ∧ asked = []
       ∨ coord_cache w !! cache_key addr (Skolkommun row) = None
         ∧ asked `prefix_of` GoogleMaps.search_addresses addr (Skolkommun row)
         ∧ (coords = None → asked = GoogleMaps.search_addresses addr (Skolkommun row))).
Proof.
  destruct (get_school_address_world page (Skol_enhetskod row) w)
    as (addr & ev1 & Haddr & Hev1).
  destruct (google_geocode_world gmaps addr (Skolkommun row)
              (World (<[Skol_enhetskod row := addr]> (address_cache w)) (coord_cache w)
                     (files w) (trace w ++ ev1)))
    as (coords & asked & Hgeo & Hasked).
  cbn [address_cache coord_cache files trace] in Hgeo, Hasked.
  eexists addr, coords, asked, _.
  split; [exact (google_process_row_unfold _ _ idx _ data _ _ _ _ _ Haddr Hgeo)|].
  cbn [address_cache coord_cache files trace].
  assert (saved (World (<[Skol_enhetskod row := addr]> (address_cache w))
                       (<[cache_key addr (Skolkommun row) := coords]> (coord_cache w))
                       (<[coord_file := json_dumps (coords_to_py
                            (<[cache_key addr (Skolkommun row) := coords]> (coord_cache w)))]>
                          (<[address_file := json_dumps (address_to_py (num := num)
                               (<[Skol_enhetskod row := addr]> (address_cache w)))]>
                             (files w)))
                       (trace w ++ ev1 ++ (Geocode <$> asked)
                          ++ if decide (is_Some (address_cache w !! Skol_enhetskod row))
                             then [] else [Sleep 200]))) as Hsaved.
  { split; cbn [files address_cache coord_cache].
    - rewrite lookup_insert_ne by done. apply lookup_insert_eq.
    - apply lookup_insert_eq. }
  split_and!; [done | done | | | | exact Hasked].
  - intros path Ha Hc. destruct (idx mod 100 =? 0)%nat; [|done].
    by rewrite !lookup_insert_ne.
  - intros ->. cbn [Nat.eqb]. by rewrite <- !app_assoc.
  - destruct Hev1 as [[Hhit ->]|(Hmiss & -> & Hexp)].
    + left. split; [done|]. rewrite Hhit.
      destruct (decide (is_Some (Some addr))) as [_|Hno]; [|by destruct Hno; eauto].
      by rewrite !app_nil_r.
    + right. split_and!; [done..|]. rewrite Hmiss.
      destruct (decide (is_Some None)) as [[? [=]]|_].
      by rewrite <- !app_assoc.
Qed.

End StepFacts.

(** ** A whole run of the Google Maps script *)

Section GoogleRunFacts.
Context {num : Type} `{!NumCodec num}.
Implicit Types (w : world num) (row : school_row num) (data : list (school_entry num)).

(** Writing a key that is absent, or writing the value it has, only
    extends a map. *)
Lemma insert_grows {A} (m : gmap pystr A) k v :
  m !! k = Some v ∨ m !! k = None → m ⊆ <[k := v]> m.
Proof.
  intros [Hk|Hk].
  - by rewrite insert_id.
  - by apply insert_subseteq.
Qed.

Lemma settled_grows w w' row :
  address_cache w ⊆ address_cache w' → coord_cache w ⊆ coord_cache w' →
  settled w row → settled w' row ∧ cached_output w' row = cached_output w row.
Proof.
  intros Hac Hcc (addr & coords & Haddr & Hcoords).
  pose proof (lookup_weaken _ _ _ _ Haddr Hac) as Haddr'.
  pose proof (lookup_weaken _ _ _ _ Hcoords Hcc) as Hcoords'.
  split; [by exists addr, coords|].
  unfold cached_output. by rewrite Haddr, Haddr', Hcoords, Hcoords'.
Qed.

(** After its turn a row is settled, and its entry is the one the
    caches give. *)
Lemma google_process_row_settles page gmaps idx row data w :
  ∃ w',
    GoogleMaps.process_row page gmaps idx row data w
    = (Ret (data ++ cached_output w' row), w')
    ∧ address_cache w ⊆ address_cache w' ∧ coord_cache w ⊆ coord_cache w'
    ∧ settled w' row
    ∧ (∀ path, path ≠ address_file → path ≠ coord_file → files w' !! path = files w !! path).
Proof.
  destruct (google_process_row_world page gmaps idx row data w)
    as (addr & coords & asked & w' & Hrun & Hac & Hcc & Hfiles & _ & Htrace & Hasked).
  assert (address_cache w' !! Skol_enhetskod row = Some addr) as Haddr.
  { rewrite Hac. apply lookup_insert_eq. }
  assert (coord_cache w' !! cache_key addr (Skolkommun row) = Some coords) as Hcoords.
  { rewrite Hcc. apply lookup_insert_eq. }
  exists w'. split_and!.
  - rewrite Hrun. unfold cached_output. by rewrite Haddr, Hcoords.
  - rewrite Hac. apply insert_grows. destruct Htrace as [[? _]|[? _]]; auto.
  - rewrite Hcc. apply insert_grows. destruct Hasked as [[? _]|[? _]]; auto.
  - by exists addr, coords.
  - done.
Qed.

Lemma google_process_rows_settles page gmaps rows : ∀ idx data w,
  ∃ w',
    GoogleMaps.process_rows page gmaps idx rows data w
    = (Ret (data ++ (rows ≫= cached_output w')), w')
    ∧ address_cache w ⊆ address_cache w' ∧ coord_cache w ⊆ coord_cache w'
    ∧ (∀ row, row ∈ rows → settled w' row)
    ∧ (∀ path, path ≠ address_file → path ≠ coord_file → files w' !! path = files w !! path).
Proof.
  induction rows as [|row rest IH]; intros idx data w.
  - exists w. cbn [GoogleMaps.process_rows]. rewrite app_nil_r.
    split_and!; [done..| |done]. by intros row ?%elem_of_nil.
  - destruct (google_process_row_settles page gmaps idx row data w)
      as (w1 & Hrow & Hac1 & Hcc1 & Hset1 & Hfiles1).
    destruct (IH (S idx) (data ++ cached_output w1 row) w1)
      as (w' & Hrest & Hac2 & Hcc2 & Hset2 & Hfiles2).
    destruct (settled_grows w1 w' row Hac2 Hcc2 Hset1) as [Hset Hsame].
    exists w'. split_and!.
    + cbn [GoogleMaps.process_rows]. rewrite (bind_ret _ _ w _ w1 Hrow), Hrest.
      cbn [mbind list_bind]. by rewrite Hsame, <- app_assoc.
    + by trans (address_cache w1).
    + by trans (coord_cache w1).
    + intros row' [->|Hin]%elem_of_cons; auto.
    + intros path Ha Hc. by rewrite Hfiles2, Hfiles1.
Qed.

Lemma saved_after_save w :
  saved ((save_address_cache;; save_coord_cache) w).2.
Proof.
  rewrite save_caches_effect. split; cbn [snd files address_cache coord_cache].
  - rewrite lookup_insert_ne by done. apply lookup_insert_eq.
  - apply lookup_insert_eq.
Qed.

(** Saving caches that are on file already changes nothing. *)
Lemma save_saved w :
  saved w → (save_address_cache;; save_coord_cache) w = (Ret (), w).
Proof.
  intros [Haddress Hcoords]. rewrite save_caches_effect.
  rewrite (insert_id (files w) address_file) by done.
  rewrite (insert_id (files w) coord_file) by done.
  by rewrite world_eta.
Qed.

Lemma google_resolve_all_settles page gmaps rows w :
  ∃ w',
    GoogleMaps.resolve_all page gmaps rows w = (Ret (rows ≫= cached_output w'), w')
    ∧ address_cache w ⊆ address_cache w' ∧ coord_cache w ⊆ coord_cache w'
    ∧ (∀ row, row ∈ rows → settled w' row)
    ∧ saved w'
    ∧ (∀ path, path ≠ address_file → path ≠ coord_file → files w' !! path = files w !! path).
Proof.
  destruct (google_process_rows_settles page gmaps rows 0 [] w)
    as (w1 & Hrun & Hac & Hcc & Hset & Hfiles).
  exists ((save_address_cache;; save_coord_cache) w1).2.
  split_and!.
  - unfold GoogleMaps.resolve_all. rewrite (bind_ret _ _ w _ w1 Hrun).
    rewrite save_caches_effect. done.
  - by rewrite save_caches_effect.
  - by rewrite save_caches_effect.
  - intros row Hin. destruct (Hset row Hin) as (addr & coords & ? & ?).
    exists addr, coords. by rewrite save_caches_effect.
  - apply saved_after_save.
  - intros path Ha Hc. rewrite save_caches_effect. cbn [snd files].
    rewrite !lookup_insert_ne by done. by apply Hfiles.
Qed.

(** A turn on a settled row, with the caches on file: nothing
    changes. *)
Lemma google_process_row_settled page gmaps idx row data w :
  settled w row → saved w →
  GoogleMaps.process_row page gmaps idx row data w = (Ret (data ++ cached_output w row), w).
Proof.
  intros (addr & coords & Haddr & Hcoords) Hsaved.
  rewrite (google_process_row_unfold page gmaps idx row data w addr w coords w).
  - unfold cached_output. rewrite Haddr, Hcoords.
    destruct (decide (is_Some (Some addr))) as [_|Hno]; [|by destruct Hno; eauto].
    rewrite app_nil_r. destruct Hsaved as [Haddress Hfile].
    rewrite (insert_id (files w) address_file) by done.
    rewrite (insert_id (files w) coord_file) by done.
    destruct (_ =? _)%nat; by rewrite world_eta.
  - by apply get_school_address_hit.
  - by apply google_geocode_hit.
Qed.

Lemma google_process_rows_settled page gmaps rows : ∀ idx data w,
  (∀ row, row ∈ rows → settled w row) → saved w →
  GoogleMaps.process_rows page gmaps idx rows data w
  = (Ret (data ++ (rows ≫= cached_output w)), w).
Proof.
  induction rows as [|row rest IH]; intros idx data w Hset Hsaved.
  - cbn [GoogleMaps.process_rows]. by rewrite app_nil_r.
  - cbn [GoogleMaps.process_rows].
    rewrite (bind_ret _ _ w _ w (google_process_row_settled page gmaps idx row data w
                                   (Hset row ltac:(left)) Hsaved)).
    rewrite IH by (auto; intros; apply Hset; by right).
    cbn [mbind list_bind]. by rewrite <- app_assoc.
Qed.

Lemma save_address_cache_saved w :
  saved w → save_address_cache w = (Ret (), w).
Proof.
  intros [Haddress _]. unfold save_address_cache. run.
  rewrite insert_id by done. by rewrite world_eta.
Qed.

Lemma save_coord_cache_saved w :
  saved w → save_coord_cache w = (Ret (), w).
Proof.
  intros [_ Hcoords]. unfold save_coord_cache. run.
  rewrite insert_id by done. by rewrite world_eta.
Qed.

Lemma google_resolve_all_settled page gmaps rows w :
  (∀ row, row ∈ rows → settled w row) → saved w →
  GoogleMaps.resolve_all page gmaps rows w = (Ret (rows ≫= cached_output w), w).
Proof.
  intros Hset Hsaved. unfold GoogleMaps.resolve_all.
  rewrite (bind_ret _ _ w _ w (google_process_rows_settled page gmaps rows 0 [] w Hset Hsaved)).
  rewrite (bind_ret _ _ w () w (save_address_cache_saved w Hsaved)).
  by rewrite (bind_ret _ _ w () w (save_coord_cache_saved w Hsaved)).
Qed.

End GoogleRunFacts.

(** ** The network traffic of a run *)

Lemma requests_app (e1 e2 : list event) : requests (e1 ++ e2) = requests e1 ++ requests e2.
Proof. apply omap_app. Qed.

Lemma queries_app (e1 e2 : list event) : queries (e1 ++ e2) = queries e1 ++ queries e2.
Proof. apply omap_app. Qed.

Lemma sleeps_app (e1 e2 : list event) : sleeps (e1 ++ e2) = sleeps e1 ++ sleeps e2.
Proof. apply omap_app. Qed.

Lemma requests_Geocode qs : requests (Geocode <$> qs) = [].
Proof. by induction qs. Qed.

Lemma sleeps_Geocode qs : sleeps (Geocode <$> qs) = [].
Proof. by induction qs. Qed.

Lemma queries_Geocode qs : queries (Geocode <$> qs) = qs.
Proof. induction qs as [|q qs IH]; [done|]. unfold queries in *. simpl. by f_equal. Qed.

Lemma school_url_inj id1 id2 : school_url id1 = school_url id2 → id1 = id2.
Proof. unfold school_url. apply app_inv_head. Qed.

Section GoogleEventFacts.
Context {num : Type} `{!NumCodec num}.
Implicit Types (w : world num) (row : school_row num) (data : list (school_entry num)).

Lemma google_process_rows_events page gmaps rows : ∀ idx data w,
  ∃ out w' events,
    GoogleMaps.process_rows page gmaps idx rows data w = (Ret out, w')
    ∧ trace w' = trace w ++ events
    ∧ NoDup (requests events)
    ∧ (∀ u, u ∈ requests events
            ↔ ∃ row, row ∈ rows ∧ address_cache w !! Skol_enhetskod row = None
                     ∧ u = school_url (Skol_enhetskod row))
    ∧ (length (queries events) ≤ 3 * length rows)%nat
    ∧ sleeps events = replicate (length (requests events)) 200.
Proof.
  induction rows as [|row rest IH]; intros idx data w.
  - exists data, w, []. rewrite app_nil_r. split_and!; try done.
    + constructor.
    + intros u. split; [by intros ?%elem_of_nil|].
      by intros (row & ?%elem_of_nil & _).
  - destruct (google_process_row_world page gmaps idx row data w)
      as (addr & coords & asked & w1 & Hrow & Hac & _ & _ & _ & Htrace & Hasked).
    destruct (IH (S idx) (data ++ row_output row addr coords) w1)
      as (out & w' & ev2 & Hrest & Htrace2 & Hnodup & Hreq & Hq & Hsleep).
    assert (length asked ≤ 3)%nat as Hlen.
    { destruct Hasked as [[_ ->]|(_ & Hprefix & _)]; [simpl; lia|].
      apply prefix_length in Hprefix.
      pose proof (google_search_addresses_length addr (Skolkommun row)). lia. }
    assert (∀ k, address_cache w1 !! k = None
                 ↔ address_cache w !! k = None ∧ Skol_enhetskod row ≠ k) as Hdom.
    { intros k. rewrite Hac. apply lookup_insert_None. }
    destruct Htrace as [[Hhit Htrace]|(Hmiss & _ & Htrace)].
    + exists out, w', ((Geocode <$> asked) ++ ev2). split_and!.
      * cbn [GoogleMaps.process_rows]. by rewrite (bind_ret _ _ w _ w1 Hrow).
      * by rewrite Htrace2, Htrace, <- app_assoc.
      * by rewrite requests_app, requests_Geocode.
      * intros u. rewrite requests_app, requests_Geocode. cbn [app]. rewrite Hreq.
        split.
        -- intros (r & Hin & Hnone & ->). exists r. split_and!; [by right| |done].
           by apply Hdom in Hnone as [? _].
        -- intros (r & [->|Hin]%elem_of_cons & Hnone & ->); [congruence|].
           exists r. split_and!; [done| |done].
           apply Hdom. split; [done|]. intros Heq. congruence.
      * rewrite queries_app, queries_Geocode, length_app. simpl. lia.
      * by rewrite sleeps_app, sleeps_Geocode, requests_app, requests_Geocode.
    + exists out, w',
        (([HttpGet (school_url (Skol_enhetskod row))] ++ (Geocode <$> asked) ++ [Sleep 200])
           ++ ev2).
      assert (requests ([HttpGet (school_url (Skol_enhetskod row))]
                          ++ (Geocode <$> asked) ++ [Sleep 200])
              = [school_url (Skol_enhetskod row)]) as Hr1.
      { rewrite !requests_app, requests_Geocode. done. }
      split_and!.
      * cbn [GoogleMaps.process_rows]. by rewrite (bind_ret _ _ w _ w1 Hrow).
      * by rewrite Htrace2, Htrace, <- !app_assoc.
      * rewrite requests_app, Hr1. cbn [app]. constructor; [|done].
        rewrite Hreq. intros (r & _ & Hnone & Heq%school_url_inj).
        apply Hdom in Hnone as [_ Hne]. congruence.
      * intros u. rewrite requests_app, Hr1. cbn [app]. rewrite elem_of_cons, Hreq.
        split.
        -- intros [->|(r & Hin & Hnone & ->)].
           ++ exists row. split_and!; [by left|done..].
           ++ exists r. split_and!; [by right| |done].
              by apply Hdom in Hnone as [? _].
        -- intros (r & [->|Hin]%elem_of_cons & Hnone & ->); [by left|].
           destruct (decide (Skol_enhetskod row = Skol_enhetskod r)) as [<-|Hne];
             [by left|].
           right. exists r. split_and!; [done| |done]. by apply Hdom.
      * rewrite !queries_app, queries_Geocode, !length_app. simpl. lia.
      * rewrite requests_app, Hr1, !sleeps_app, sleeps_Geocode. cbn [app length replicate].
        by rewrite Hsleep.
Qed.


End GoogleEventFacts.


(** ** One call in the Nominatim script *)

Lemma split_ws_from_nil cur s :
  split_ws_from cur s = [] → cur = [] ∧ forallb py_isspace s = true.
Proof.
  revert cur. induction s as [|c s IH]; intros cur; simpl.
  - by destruct cur.
  - destruct (py_isspace c).
    + destruct cur; [|done]. intros Hs. by destruct (IH [] Hs).
    + intros Hs. by destruct (IH (c :: cur) Hs).
Qed.

Lemma sleeps_Sleep ms : sleeps [Sleep ms] = [ms].
Proof. done. Qed.

Section NominatimStepFacts.
Context {num : Type} `{!NumCodec num}.
Implicit Types (w : world num) (row : school_row num) (data : list (school_entry num)).

(** One attempt on a candidate. *)
Lemma nominatim_attempts_step geolocator key q attempt more w :
  Nominatim.attempts geolocator key q (attempt :: more) w
  = match geolocator (trace w) q with
    | Answer (Some (lat, lng)) =>
        (Ret (Some (lat, lng)),
         World (address_cache w) (<[key := Some (lat, lng)]> (coord_cache w)) (files w)
               (trace w ++ [Geocode q]))
    | Answer None =>
        Nominatim.attempts geolocator key q more
          (World (address_cache w) (coord_cache w) (files w)
                 (trace w ++ [Geocode q; Sleep 1000]))
    | ProviderError =>
        Nominatim.attempts geolocator key q more
          (World (address_cache w) (coord_cache w) (files w)
                 (trace w ++ Geocode q :: if (attempt =? 0)%nat then [Sleep 2000] else []))
    end.
Proof.
  cbn [Nominatim.attempts]. unfold Nominatim.geolocator_geocode. run.
  destruct (geolocator (trace w) q) as [|[[lat lng]|]]; simpl.
  - destruct (attempt =? 0)%nat; simpl; by rewrite <- ?app_assoc.
  - done.
  - by rewrite <- app_assoc.
Qed.

Lemma nominatim_attempts_world geolocator key q numbers : ∀ w,
  ∃ found events,
    Nominatim.attempts geolocator key q numbers w
    = (Ret found, after_attempts w key found events)
    ∧ requests events = []
    ∧ (∃ n, queries events = replicate n q ∧ (n ≤ length numbers)%nat
            ∧ (found = None → n = length numbers))
    ∧ Forall (λ ms, ms = 1000 ∨ ms = 2000) (sleeps events).
Proof.
  induction numbers as [|attempt more IH]; intros w.
  - exists None, []. unfold after_attempts. rewrite app_nil_r, world_eta.
    split_and!; [done..| |done]. by exists 0%nat.
  - rewrite nominatim_attempts_step.
    assert (∀ pause,
               Forall (λ ms, ms = 1000 ∨ ms = 2000) (sleeps pause) → requests pause = [] →
               queries pause = [] →
               ∃ found events,
                 Nominatim.attempts geolocator key q more
                   (World (address_cache w) (coord_cache w) (files w)
                          (trace w ++ Geocode q :: pause))
                 = (Ret found, after_attempts w key found events)
                 ∧ requests events = []
                 ∧ (∃ n, queries events = replicate n q ∧ (n ≤ S (length more))%nat
                         ∧ (found = None → n = S (length more)))
                 ∧ Forall (λ ms, ms = 1000 ∨ ms = 2000) (sleeps events)) as Hnext.
    { intros pause Hpause Hreq Hquery.
      destruct (IH (World (address_cache w) (coord_cache w) (files w)
                          (trace w ++ Geocode q :: pause)))
        as (found & events & Hrun & Hr & (n & Hq & Hn & Hall) & Hs).
      exists found, ((Geocode q :: pause) ++ events). split_and!.
      - rewrite Hrun. unfold after_attempts. cbn [address_cache coord_cache files trace].
        by rewrite <- !app_assoc.
      - rewrite requests_app, Hr, app_nil_r. exact Hreq.
      - exists (S n). rewrite queries_app, Hq. split_and!; [|lia|].
        + change (queries (Geocode q :: pause)) with (q :: queries pause).
          by rewrite Hquery.
        + intros Hnone. by rewrite Hall.
      - rewrite sleeps_app. apply Forall_app. split; [exact Hpause|done]. }
    destruct (geolocator (trace w) q) as [|[[lat lng]|]].
    + destruct (attempt =? 0)%nat.
      * apply (Hnext [Sleep 2000]); [|done..]. apply list.Forall_singleton. by right.
      * by apply (Hnext []).
    + exists (Some (lat, lng)), [Geocode q]. split_and!; [done..| |done].
      exists 1%nat. split_and!; [done|simpl; lia|done].
    + apply (Hnext [Sleep 1000]); [|done..]. apply list.Forall_singleton. by left.
Qed.

Lemma nominatim_try_addresses_world geolocator key candidates : ∀ w,
  ∃ coords events,
    Nominatim.try_addresses geolocator key candidates w
    = (Ret coords,
       World (address_cache w) (<[key := coords]> (coord_cache w)) (files w)
             (trace w ++ events))
    ∧ requests events = []
    ∧ (length (queries events) ≤ 2 * length candidates)%nat
    ∧ (coords = None → queries events = candidates ≫= λ q, [q; q])
    ∧ Forall (λ ms, ms = 1000 ∨ ms = 2000) (sleeps events).
Proof.
  induction candidates as [|q later IH]; intros w.
  - exists None, []. rewrite app_nil_r. run. split_and!; done.
  - destruct (nominatim_attempts_world geolocator key q (seq 0 2) w)
      as (found & ev1 & Hrun1 & Hr1 & (n & Hq1 & Hn & Hall) & Hs1).
    cbn [Nominatim.try_addresses]. rewrite (bind_ret _ _ w _ _ Hrun1).
    destruct found as [coords|].
    + exists (Some coords), ev1. split_and!; [done|done| |done|done].
      rewrite Hq1, length_replicate. simpl in *. lia.
    + unfold after_attempts.
      destruct (IH (World (address_cache w) (coord_cache w) (files w) (trace w ++ ev1)))
        as (coords & ev2 & Hrun2 & Hr2 & Hq2 & Hnone & Hs2).
      exists coords, (ev1 ++ ev2). split_and!.
      * rewrite Hrun2. cbn [address_cache coord_cache files trace].
        by rewrite <- app_assoc.
      * by rewrite requests_app, Hr1, Hr2.
      * rewrite queries_app, length_app, Hq1, length_replicate. simpl in *. lia.
      * intros Hc. rewrite queries_app, Hq1, (Hall eq_refl), (Hnone Hc). done.
      * rewrite sleeps_app. by apply Forall_app.
Qed.

Lemma nominatim_search_addresses_length addr town candidates :
  Nominatim.search_addresses addr town = Ret candidates →
  (1 ≤ length candidates ≤ 4)%nat.
Proof.
  unfold Nominatim.search_addresses. destruct addr as [[|c a]|].
  - intros [= <-]. simpl. lia.
  - cbv zeta. destruct (split_ws (c :: a)); [done|]. intros [= <-]. simpl. lia.
  - intros [= <-]. simpl. lia.
Qed.

(** Building the candidate list fails on a white-space address only. *)
Lemma nominatim_search_addresses_raises addr town e :
  Nominatim.search_addresses addr town = Raise e →
  e = IndexError ∧ ∃ a, addr = Some a ∧ a ≠ [] ∧ forallb py_isspace a = true.
Proof.
  unfold Nominatim.search_addresses. destruct addr as [[|c a]|]; [done| |done].
  cbv zeta. destruct (split_ws (c :: a)) eqn:Hsplit; [|done].
  intros [= <-]. split; [done|]. exists (c :: a). split_and!; [done..|].
  unfold split_ws in Hsplit. by apply split_ws_from_nil in Hsplit as [_ ?].
Qed.

(** [geocode_address] of the Nominatim script: either it returns, with
    the answer in the cache, or it raises [IndexError] before anything
    else happened. *)
Lemma nominatim_geocode_world geolocator addr town w :
  (∃ coords events,
      Nominatim.geocode_address geolocator addr town w
      = (Ret coords,
         World (address_cache w) (<[cache_key addr town := coords]> (coord_cache w)) (files w)
               (trace w ++ events))
      ∧ (coord_cache w !! cache_key addr town = Some coords ∧ events = []
         ∨ coord_cache w !! cache_key addr town = None
           ∧ ∃ candidates, Nominatim.search_addresses addr town = Ret candidates
                           ∧ (coords = None → queries events = candidates ≫= λ q, [q; q]))
      ∧ requests events = []
      ∧ (length (queries events) ≤ 8)%nat
      ∧ Forall (λ ms, ms = 1000 ∨ ms = 2000) (sleeps events))
  ∨ (Nominatim.geocode_address geolocator addr town w = (Raise IndexError, w)
     ∧ coord_cache w !! cache_key addr town = None
     ∧ ∃ a, addr = Some a ∧ a ≠ [] ∧ forallb py_isspace a = true).
Proof.
  destruct (coord_cache w !! cache_key addr town) as [v|] eqn:Hkey.
  - left. exists v, []. rewrite (nominatim_geocode_hit _ _ _ _ v) by done.
    rewrite insert_id by done. simpl. rewrite app_nil_r, world_eta.
    split_and!; [done| |done|lia|done]. by left.
  - unfold Nominatim.geocode_address. run. rewrite Hkey.
    destruct (Nominatim.search_addresses addr town) as [candidates|e] eqn:Hsearch.
    + left.
      destruct (nominatim_try_addresses_world geolocator (cache_key addr town) candidates w)
        as (coords & events & -> & Hr & Hq & Hnone & Hs).
      exists coords, events. split_and!; [done| |done| |done].
      * right. split; [done|]. by exists candidates.
      * apply nominatim_search_addresses_length in Hsearch. lia.
    + right. apply nominatim_search_addresses_raises in Hsearch as [-> Ha]. done.
Qed.

End NominatimStepFacts.

(** ** The cache-only mode *)

Section CacheOnlyFacts.
Context {num : Type}.
Implicit Types (w : world num) (row : school_row num) (data : list (school_entry num)).

Lemma from_cache_row_app w row data :
  from_cache_row w row data = data ++ from_cache_row w row [].
Proof.
  unfold from_cache_row.
  destruct (address_cache w !! Skol_enhetskod row) as [[[|c tail]|]|];
    rewrite ?app_nil_r; try done.
  cbv zeta. destruct (coord_cache w !! _) as [[[lat lng]|]|]; by rewrite ?app_nil_r.
Qed.

Lemma school_data_from_cache_bind w rows :
  school_data_from_cache w rows = rows ≫= λ row, from_cache_row w row [].
Proof.
  unfold school_data_from_cache.
  assert (∀ data, foldl (λ school_data row, from_cache_row w row school_data) data rows
                  = data ++ (rows ≫= λ row, from_cache_row w row [])) as Hfold.
  { induction rows as [|row rest IH]; intros data; cbn [foldl].
    - by rewrite app_nil_r.
    - rewrite IH, (from_cache_row_app w row data). cbn [mbind list_bind].
      by rewrite <- app_assoc. }
  apply (Hfold []).
Qed.

(** The cache-only loop only looks at the caches. *)
Lemma school_data_from_cache_caches w w' rows :
  address_cache w' = address_cache w → coord_cache w' = coord_cache w →
  school_data_from_cache w' rows = school_data_from_cache w rows.
Proof.
  intros Hac Hcc. unfold school_data_from_cache, from_cache_row. by rewrite Hac, Hcc.
Qed.

(** For one row, the cache-only loop keeps the entry of [main] when the
    school has an address of its own. *)
Lemma from_cache_row_filter w row :
  from_cache_row w row [] = filter (λ e, has_own_address w e) (cached_output w row).
Proof.
  unfold from_cache_row, cached_output.
  destruct (address_cache w !! Skol_enhetskod row) as [[[|c tail]|]|] eqn:Hid; [| |..|done].
  - destruct (coord_cache w !! _) as [[[lat lng]|]|]; [|done..].
    cbn [row_output py_or]. rewrite filter_cons_False; [done|].
    unfold has_own_address. cbn [school_id address]. rewrite Hid.
    intros [[= <-] Hne]%bool_decide_unpack. done.
  - cbv zeta. change (cache_key (Some (c :: tail)) (Skolkommun row))
      with ((c :: tail) ++ str "|" ++ Skolkommun row).
    destruct (coord_cache w !! _) as [[[lat lng]|]|]; [|done..].
    cbn [row_output py_or app]. rewrite filter_cons_True; [done|].
    unfold has_own_address. cbn [school_id address]. rewrite Hid.
    by apply bool_decide_pack.
  - destruct (coord_cache w !! _) as [[[lat lng]|]|]; [|done..].
    cbn [row_output py_or]. rewrite filter_cons_False; [done|].
    unfold has_own_address. cbn [school_id address]. rewrite Hid.
    intros [[=] _]%bool_decide_unpack.
Qed.

Lemma school_data_from_cache_filter w rows :
  school_data_from_cache w rows
  = filter (λ e, has_own_address w e) (rows ≫= cached_output w).
Proof.
  rewrite school_data_from_cache_bind.
  induction rows as [|row rest IH]; [done|].
  cbn [mbind list_bind]. by rewrite list.filter_app, IH, from_cache_row_filter.
Qed.

Lemma cached_output_caches w w' row :
  address_cache w' = address_cache w → coord_cache w' = coord_cache w →
  cached_output w' row = cached_output w row.
Proof. intros Hac Hcc. unfold cached_output. by rewrite Hac, Hcc. Qed.

Lemma cached_outputs_caches w w' rows :
  address_cache w' = address_cache w → coord_cache w' = coord_cache w →
  rows ≫= cached_output w' = rows ≫= cached_output w.
Proof.
  intros Hac Hcc. induction rows as [|row rest IH]; [done|].
  cbn [mbind list_bind]. by rewrite IH, (cached_output_caches w w').
Qed.

End CacheOnlyFacts.

(** ** Starting again from the files of a finished run *)

Section RestartFacts.
Context {num : Type} `{!NumCodec num}.
Implicit Types (w : world num) (row : school_row num) (data : list (school_entry num)).

(** Caches that are on file, with numbers that read back, are what the
    next start loads. *)
Lemma init_from_saved w :
  saved w →
  (∀ k lat lng, coord_cache w !! k = Some (Some (lat, lng)) →
                reads_back lat ∧ reads_back lng) →
  load_address_cache (files w) = Ret (address_to_py (address_cache w))
  ∧ load_coord_cache (files w) = Ret (coords_to_py (coord_cache w))
  ∧ SchoolMapper_init (files w)
    = Ret (Some (World (address_cache w) (coord_cache w) (files w) [])).
Proof.
  intros [Haddress Hcoords] Hnumbers.
  pose proof (load_dumped_address _ _ Haddress) as Hload1.
  pose proof (load_dumped_coords _ _ Hnumbers Hcoords) as Hload2.
  split_and!; [done..|].
  unfold SchoolMapper_init. rewrite Hload1, Hload2.
  by rewrite py_to_address_to_py, py_to_coords_to_py.
Qed.

Lemma google_init_from_saved client_accepts w key :
  saved w →
  (∀ k lat lng, coord_cache w !! k = Some (Some (lat, lng)) →
                reads_back lat ∧ reads_back lng) →
  GoogleMaps.load_api_key (files w) = Some key → key ≠ [] → client_accepts key = true →
  GoogleMaps.SchoolMapper_init client_accepts (files w)
  = InitRet (Some (World (address_cache w) (coord_cache w) (files w) [])).
Proof.
  intros Hsaved Hnumbers Hkey Hne Hclient.
  destruct (init_from_saved w Hsaved Hnumbers) as (Hload1 & Hload2 & _).
  unfold GoogleMaps.SchoolMapper_init. rewrite Hkey.
  destruct key as [|c key]; [done|]. rewrite Hclient, Hload1, Hload2.
  by rewrite py_to_address_to_py, py_to_coords_to_py.
Qed.

Lemma google_run_keeps_key page gmaps rows w out w1 :
  GoogleMaps.resolve_all page gmaps rows w = (out, w1) →
  GoogleMaps.load_api_key (files w1) = GoogleMaps.load_api_key (files w).
Proof.
  intros Hrun.
  destruct (google_resolve_all_settles page gmaps rows w) as (w' & Hrun' & _ & _ & _ & _ & Hfiles).
  rewrite Hrun in Hrun'. injection Hrun' as _ ->.
  unfold GoogleMaps.load_api_key. by rewrite Hfiles.
Qed.

(** A second run of the Google Maps script.  After a run over [rows]
    has returned [school_data]: a further run over the same rows, from
    any world with the caches and files the first one left, returns
    [school_data] again and leaves that world as it is, whatever the
    page server and the geocoder would answer now; so it adds nothing
    to the trace (no request, no query, no sleep) and rewrites the
    files with what they hold.  Started as a script from those files,
    with the API key in place and numbers that read back, [main] loads
    the caches and does the same. *)
Theorem second_run_changes_nothing page gmaps rows w school_data w1 :
  GoogleMaps.resolve_all page gmaps rows w = (Ret school_data, w1) →
  ∀ page' gmaps',
    (∀ w2, address_cache w2 = address_cache w1 → coord_cache w2 = coord_cache w1 →
           files w2 = files w1 →
           GoogleMaps.resolve_all page' gmaps' rows w2 = (Ret school_data, w2))
    ∧ (∀ client_accepts key,
          (∀ k lat lng, coord_cache w1 !! k = Some (Some (lat, lng)) →
                        reads_back lat ∧ reads_back lng) →
          GoogleMaps.load_api_key (files w) = Some key → key ≠ [] →
          client_accepts key = true →
          GoogleMaps.main page' gmaps' client_accepts (files w1) rows
          = Ran (Ret school_data,
                 World (address_cache w1) (coord_cache w1) (files w1) [])).
Proof.
  intros Hrun page' gmaps'.
  destruct (google_resolve_all_settles page gmaps rows w)
    as (w' & Hrun' & _ & _ & Hset & Hsaved & _).
  rewrite Hrun in Hrun'. injection Hrun' as -> <-.
  assert (∀ w2, address_cache w2 = address_cache w1 → coord_cache w2 = coord_cache w1 →
                files w2 = files w1 →
                GoogleMaps.resolve_all page' gmaps' rows w2
                = (Ret (rows ≫= cached_output w1), w2)) as Hagain.
  { intros w2 Hac Hcc Hfiles.
    rewrite google_resolve_all_settled.
    - f_equal. f_equal. by apply cached_outputs_caches.
    - intros row Hin. destruct (Hset row Hin) as (addr & coords & ? & ?).
      exists addr, coords. by rewrite Hac, Hcc.
    - destruct Hsaved. split; by rewrite Hfiles, ?Hac, ?Hcc. }
  split; [exact Hagain|].
  intros client_accepts key Hnumbers Hkey Hne Hclient.
  unfold GoogleMaps.main.
  rewrite (google_init_from_saved client_accepts w1 key); try done.
  - by rewrite Hagain.
  - by rewrite (google_run_keeps_key _ _ _ _ _ _ Hrun).
Qed.

(** The cache-only mode after a run.  On the caches a run of the Google
    Maps script leaves, the row loop of [create_map_from_cache] gives
    the records of that run whose address field is the school's own
    cached address, in the same order; the records that [main] placed
    at the municipality because no address was found are not among
    them.  Started as a script from the files of the run,
    [create_map_from_cache] gives exactly these records. *)
Theorem map_only_shows_addressed_records page gmaps rows w school_data w1 :
  GoogleMaps.resolve_all page gmaps rows w = (Ret school_data, w1) →
  school_data_from_cache w1 rows = filter (λ e, has_own_address w1 e) school_data
  ∧ (∀ client_accepts key,
        (∀ k lat lng, coord_cache w1 !! k = Some (Some (lat, lng)) →
                      reads_back lat ∧ reads_back lng) →
        GoogleMaps.load_api_key (files w) = Some key → key ≠ [] →
        client_accepts key = true →
        GoogleMaps.create_map_from_cache client_accepts (files w1) rows
        = Ran (filter (λ e, has_own_address w1 e) school_data)).
Proof.
  intros Hrun.
  destruct (google_resolve_all_settles page gmaps rows w)
    as (w' & Hrun' & _ & _ & Hset & Hsaved & _).
  rewrite Hrun in Hrun'. injection Hrun' as -> <-.
  split; [apply school_data_from_cache_filter|].
  intros client_accepts key Hnumbers Hkey Hne Hclient.
  unfold GoogleMaps.create_map_from_cache.
  rewrite (google_init_from_saved client_accepts w1 key); try done.
  - f_equal. rewrite <- school_data_from_cache_filter.
    by apply school_data_from_cache_caches.
  - by rewrite (google_run_keeps_key _ _ _ _ _ _ Hrun).
Qed.

End RestartFacts.

(** A first run on two schools, the page of the second not served, and
    then a start from its files with every server down. *)
Lemma second_run_changes_nothing_witness :
  ∃ school_data w1,
    GoogleMaps.resolve_all one_page (gmaps_table known_places) [test_row; other_row]
      keyed_world = (Ret school_data, w1)
    ∧ length school_data = 2%nat
    ∧ GoogleMaps.main page_down (gmaps_table []) any_key (files w1) [test_row; other_row]
      = Ran (Ret school_data, World (address_cache w1) (coord_cache w1) (files w1) []).
Proof.
  pose (r := GoogleMaps.resolve_all one_page (gmaps_table known_places)
               [test_row; other_row] keyed_world).
  pose (school_data := match r.1 with Ret d => d | Raise _ => [] end).
  assert (GoogleMaps.resolve_all one_page (gmaps_table known_places) [test_row; other_row]
            keyed_world = (Ret school_data, r.2)) as Hrun by (vm_compute; reflexivity).
  assert (coord_cache r.2
          = {[ str "Kungsgatan 10|Uppsala" := Some stockholm;
               str "None|Uppsala" := Some uppsala ]}) as Hcoords
    by (vm_compute; reflexivity).
  exists school_data, r.2. split; [exact Hrun|]. split; [vm_compute; reflexivity|].
  apply (second_run_changes_nothing _ _ _ _ _ _ Hrun page_down (gmaps_table []))
    with (key := str "AIza-example").
  - intros k lat lng Hk. rewrite Hcoords in Hk.
    apply lookup_insert_Some in Hk as [[_ [= <- <-]]|[_ Hk]];
      [|apply lookup_singleton_Some in Hk as [_ [= <- <-]]];
      split; intros d rest [-> | ->]; reflexivity.
  - vm_compute. reflexivity.
  - discriminate.
  - reflexivity.
Defined.

(** The same first run: [main] gave two records, the cache-only mode
    shows the one with an address. *)
Lemma map_only_shows_addressed_records_witness :
  ∃ school_data w1 e,
    GoogleMaps.resolve_all one_page (gmaps_table known_places) [test_row; other_row]
      keyed_world = (Ret school_data, w1)
    ∧ length school_data = 2%nat
    ∧ GoogleMaps.create_map_from_cache any_key (files w1) [test_row; other_row] = Ran [e]
    ∧ school_id e = str "12345".
Proof.
  pose (r := GoogleMaps.resolve_all one_page (gmaps_table known_places)
               [test_row; other_row] keyed_world).
  pose (school_data := match r.1 with Ret d => d | Raise _ => [] end).
  assert (GoogleMaps.resolve_all one_page (gmaps_table known_places) [test_row; other_row]
            keyed_world = (Ret school_data, r.2)) as Hrun by (vm_compute; reflexivity).
  assert (coord_cache r.2
          = {[ str "Kungsgatan 10|Uppsala" := Some stockholm;
               str "None|Uppsala" := Some uppsala ]}) as Hcoords
    by (vm_compute; reflexivity).
  destruct (map_only_shows_addressed_records _ _ _ _ _ _ Hrun) as [_ Hmap].
  exists school_data, r.2,
    (SchoolEntry (str "12345") (str "Test School") (str "Uppsala") (str "Kungsgatan 10")
       (str "280.5") (str "59.33") (str "18.07")).
  split; [exact Hrun|]. split; [vm_compute; reflexivity|]. split; [|reflexivity].
  rewrite (Hmap any_key (str "AIza-example")).
  - vm_compute. reflexivity.
  - intros k lat lng Hk. rewrite Hcoords in Hk.
    apply lookup_insert_Some in Hk as [[_ [= <- <-]]|[_ Hk]];
      [|apply lookup_singleton_Some in Hk as [_ [= <- <-]]];
      split; intros d rest [-> | ->]; reflexivity.
  - vm_compute. reflexivity.
  - discriminate.
  - reflexivity.
Defined.

(** ** A whole run of the Nominatim script *)



Lemma expected_address_trimmed reply a :
  expected_address reply = Some a → strip a = a.
Proof.
  destruct reply as [|status text]; [done|]. simpl.
  destruct (status =? 200); [|done]. apply extract_address_trimmed.
Qed.

Lemma filter_half_second (l : list N) :
  Forall (λ ms, ms = 1000 ∨ ms = 2000) l → filter (λ ms, ms = 500) l = [].
Proof.
  induction 1 as [|ms l [-> | ->] _ IH]; [done|..];
    by rewrite filter_cons_False.
Qed.

Section NominatimRunFacts.
Context {num : Type} `{!NumCodec num}.
Implicit Types (w : world num) (row : school_row num) (data : list (school_entry num)).

(** One turn of the Nominatim loop that completes, given what the two
    resolvers did. *)
Lemma nominatim_process_row_unfold page geolocator idx row data w addr w1 coords w2 :
  get_school_address page (Skol_enhetskod row) w = (Ret addr, w1) →
  Nominatim.geocode_address geolocator addr (Skolkommun row) w1 = (Ret coords, w2) →
  Nominatim.process_row page geolocator idx row data w
  = (Ret (data ++ row_output row addr coords),
     World (address_cache w2) (coord_cache w2)
           (if (idx mod 50 =? 0)%nat
            then <[coord_file := json_dumps (coords_to_py (coord_cache w2))]>
                   (<[address_file := json_dumps (address_to_py (address_cache w2))]>
                      (files w2))
            else files w2)
           (trace w2 ++ [Sleep 500])).
Proof.
  intros Haddr Hgeo. unfold Nominatim.process_row.
  rewrite (bind_ret _ _ w addr w1) by done.
  rewrite (bind_ret _ _ w1 coords w2) by done.
  assert (data ++ row_output row addr coords
          = match coords with
            | Some (lat, lng) =>
                data ++ [SchoolEntry (Skol_enhetskod row) (Skola row) (Skolkommun row)
                           (py_or addr (Skolkommun row)) (row_merit_value row) lat lng]
            | None => data
            end) as <-.
  { destruct coords as [[lat lng]|]; simpl; [done | by rewrite app_nil_r]. }
  destruct (idx mod 50 =? 0)%nat.
  - rewrite (bind_ret _ _ w2 () _ (save_caches_effect w2)). by run.
  - rewrite (bind_ret _ _ w2 () w2) by done. by run.
Qed.

(** One turn of the Nominatim loop, in full: the address is resolved
    and cached; then either the turn completes, or building the
    candidate list raises and the turn ends there. *)
Lemma nominatim_process_row_world page geolocator idx row data w :
  ∃ addr ev1,
    (address_cache w !! Skol_enhetskod row = Some addr ∧ ev1 = []
     ∨ address_cache w !! Skol_enhetskod row = None
       ∧ ev1 = [HttpGet (school_url (Skol_enhetskod row))]
       ∧ addr = expected_address (page (trace w) (school_url (Skol_enhetskod row))))
    ∧ ((∃ coords ev2 w',
           Nominatim.process_row page geolocator idx row data w
           = (Ret (data ++ row_output row addr coords), w')
           ∧ address_cache w' = <[Skol_enhetskod row := addr]> (address_cache w)
           ∧ coord_cache w' = <[cache_key addr (Skolkommun row) := coords]> (coord_cache w)
           ∧ (∀ path, path ≠ address_file → path ≠ coord_file →
                      files w' !! path = files w !! path)
           ∧ ((idx mod 50 = 0)%nat → saved w')
           ∧ trace w' = trace w ++ ev1 ++ ev2 ++ [Sleep 500]
           ∧ (coord_cache w !! cache_key addr (Skolkommun row) = Some coords ∧ ev2 = []
              ∨ coord_cache w !! cache_key addr (Skolkommun row) = None)
           ∧ requests ev2 = []
           ∧ (length (queries ev2) ≤ 8)%nat
           ∧ Forall (λ ms, ms = 1000 ∨ ms = 2000) (sleeps ev2))
       ∨ (Nominatim.process_row page geolocator idx row data w
          = (Raise IndexError,
             World (<[Skol_enhetskod row := addr]> (address_cache w)) (coord_cache w)
                   (files w) (trace w ++ ev1))
          ∧ ∃ a, addr = Some a ∧ a ≠ [] ∧ forallb py_isspace a = true)).
Proof.
  destruct (get_school_address_world page (Skol_enhetskod row) w)
    as (addr & ev1 & Haddr & Hev1).
  exists addr, ev1. split; [exact Hev1|].
  destruct (nominatim_geocode_world geolocator addr (Skolkommun row)
              (World (<[Skol_enhetskod row := addr]> (address_cache w)) (coord_cache w)
                     (files w) (trace w ++ ev1)))
    as [(coords & ev2 & Hgeo & Hcase & Hr & Hq & Hs)|(Hgeo & _ & Ha)];
    cbn [address_cache coord_cache files trace] in *.
  - left. eexists coords, ev2, _.
    split; [exact (nominatim_process_row_unfold _ _ idx _ data _ _ _ _ _ Haddr Hgeo)|].
    cbn [address_cache coord_cache files trace].
    split_and!; [done|done| | | | |done..].
    + intros path Hp1 Hp2. destruct (idx mod 50 =? 0)%nat; [|done].
      by rewrite !lookup_insert_ne.
    + intros ->. cbn [Nat.eqb]. split; cbn [files address_cache coord_cache].
      * rewrite lookup_insert_ne by done. apply lookup_insert_eq.
      * apply lookup_insert_eq.
    + by rewrite <- !app_assoc.
    + destruct Hcase as [?|[? _]]; auto.
  - right. split; [|exact Ha]. unfold Nominatim.process_row.
    rewrite (bind_ret _ _ w addr _ Haddr). by rewrite (bind_raise _ _ _ IndexError _ Hgeo).
Qed.

(** The outcome of the row loop.  [ok] is any property of cached
    addresses that trimmed strings have. *)
Lemma nominatim_process_rows_outcome page geolocator (ok : pystr → pystr → Prop) rows :
  (∀ id a, strip a = a → ok id a) →
  ∀ idx data w,
    (∀ id a, address_cache w !! id = Some (Some a) → ok id a) →
    ∃ out w',
      Nominatim.process_rows page geolocator idx rows data w = (out, w')
      ∧ address_cache w ⊆ address_cache w' ∧ coord_cache w ⊆ coord_cache w'
      ∧ (∀ id a, address_cache w' !! id = Some (Some a) → ok id a)
      ∧ (∀ path, path ≠ address_file → path ≠ coord_file →
                 files w' !! path = files w !! path)
      ∧ (∃ events, trace w' = trace w ++ events)
      ∧ match out with
        | Ret school_data =>
            school_data = data ++ (rows ≫= cached_output w')
            ∧ ∀ row, row ∈ rows → settled w' row
        | Raise e =>
            e = IndexError
            ∧ ∃ row a, row ∈ rows
                       ∧ address_cache w' !! Skol_enhetskod row = Some (Some a)
                       ∧ a ≠ [] ∧ forallb py_isspace a = true
        end.
Proof.
  intros Hok. induction rows as [|row rest IH]; intros idx data w Hinv.
  - exists (Ret data), w. cbn [Nominatim.process_rows]. rewrite app_nil_r.
    split_and!; try done.
    + exists []. by rewrite app_nil_r.
    + by intros row ?%elem_of_nil.
  - destruct (nominatim_process_row_world page geolocator idx row data w)
      as (addr & ev1 & Hev1 & Hrow).
    assert (address_cache w ⊆ <[Skol_enhetskod row := addr]> (address_cache w)) as Hsub.
    { apply insert_grows. destruct Hev1 as [[? _]|[? _]]; auto. }
    assert (∀ id a, <[Skol_enhetskod row := addr]> (address_cache w) !! id = Some (Some a)
                    → ok id a) as Hinv1.
    { intros id a [[<- Ha]|[_ Ha]]%lookup_insert_Some; [|by apply Hinv].
      destruct Hev1 as [[Hhit _]|(_ & _ & Hexp)].
      - apply Hinv. by rewrite Hhit, Ha.
      - apply Hok. apply (expected_address_trimmed (page (trace w)
                            (school_url (Skol_enhetskod row)))). by rewrite <- Hexp, Ha. }
    destruct Hrow as [(coords & ev2 & w1 & Hrow & Hac & Hcc & Hfiles & _ & Htrace
                       & Hcase & _)|(Hrow & a & -> & Hne & Hspace)].
    + rewrite <- Hac in Hsub, Hinv1.
      destruct (IH (S idx) (data ++ row_output row addr coords) w1 Hinv1)
        as (out & w' & Hrest & Hac2 & Hcc2 & Hinv2 & Hfiles2 & [ev3 Htrace2] & Hout).
      assert (address_cache w1 !! Skol_enhetskod row = Some addr) as Haddr.
      { rewrite Hac. apply lookup_insert_eq. }
      assert (coord_cache w1 !! cache_key addr (Skolkommun row) = Some coords) as Hcoords.
      { rewrite Hcc. apply lookup_insert_eq. }
      assert (settled w1 row) as Hset1 by (by exists addr, coords).
      destruct (settled_grows w1 w' row Hac2 Hcc2 Hset1) as [Hset Hsame].
      exists out, w'. split_and!.
      * cbn [Nominatim.process_rows]. by rewrite (bind_ret _ _ w _ w1 Hrow).
      * by trans (address_cache w1).
      * trans (coord_cache w1); [|done]. rewrite Hcc. apply insert_grows.
        destruct Hcase as [[? _]|?]; auto.
      * done.
      * intros path Hp1 Hp2. by rewrite Hfiles2, Hfiles.
      * exists (ev1 ++ ev2 ++ [Sleep 500] ++ ev3). by rewrite Htrace2, Htrace, <- !app_assoc.
      * destruct out as [school_data|e].
        -- destruct Hout as [-> Hall]. split.
           ++ cbn [mbind list_bind]. rewrite Hsame. unfold cached_output at 2.
              by rewrite Haddr, Hcoords, <- app_assoc.
           ++ intros r [->|Hin]%elem_of_cons; auto.
        -- destruct Hout as (-> & r & a & Hin & Ha & Hne & Hspace). split; [done|].
           exists r, a. split_and!; [by right|done..].
    + eexists (Raise IndexError), _. split_and!.
      * cbn [Nominatim.process_rows]. by rewrite (bind_raise _ _ w _ _ Hrow).
      * done.
      * done.
      * done.
      * done.
      * by exists ev1.
      * done.
      * exists row, a. split_and!; [by left| |done..].
        cbn [address_cache]. apply lookup_insert_eq.
Qed.

(** The outcome of a run, with the final saves. *)
Lemma nominatim_resolve_all_outcome page geolocator (ok : pystr → pystr → Prop) rows w :
  (∀ id a, strip a = a → ok id a) →
  (∀ id a, address_cache w !! id = Some (Some a) → ok id a) →
  ∃ out w',
    Nominatim.resolve_all page geolocator rows w = (out, w')
    ∧ address_cache w ⊆ address_cache w' ∧ coord_cache w ⊆ coord_cache w'
    ∧ (∀ id a, address_cache w' !! id = Some (Some a) → ok id a)
    ∧ (∀ path, path ≠ address_file → path ≠ coord_file →
               files w' !! path = files w !! path)
    ∧ (∃ events, trace w' = trace w ++ events)
    ∧ match out with
      | Ret school_data =>
          school_data = rows ≫= cached_output w'
          ∧ (∀ row, row ∈ rows → settled w' row)
          ∧ saved w'
      | Raise e =>
          e = IndexError
          ∧ ∃ row a, row ∈ rows
                     ∧ address_cache w' !! Skol_enhetskod row = Some (Some a)
                     ∧ a ≠ [] ∧ forallb py_isspace a = true
      end.
Proof.
  intros Hok Hinv.
  destruct (nominatim_process_rows_outcome page geolocator ok rows Hok 0 [] w Hinv)
    as (out & w1 & Hrun & Hac & Hcc & Hinv1 & Hfiles & Htrace & Hout).
  unfold Nominatim.resolve_all. destruct out as [school_data|e].
  - exists (Ret school_data), ((save_address_cache;; save_coord_cache) w1).2.
    rewrite (bind_ret _ _ w _ w1 Hrun). rewrite save_caches_effect.
    cbn [snd address_cache coord_cache files trace].
    destruct Hout as [-> Hset]. split_and!; try done.
    + intros path Hp1 Hp2. rewrite !lookup_insert_ne by done. by apply Hfiles.
    + split; cbn [files address_cache coord_cache].
      * rewrite lookup_insert_ne by done. apply lookup_insert_eq.
      * apply lookup_insert_eq.
  - exists (Raise e), w1. by rewrite (bind_raise _ _ w _ _ Hrun).
Qed.

End NominatimRunFacts.

(** ** The Nominatim script: outcomes and traffic of a run *)

Section NominatimEventFacts.
Context {num : Type} `{!NumCodec num}.
Implicit Types (w : world num) (row : school_row num) (data : list (school_entry num)).

Lemma nominatim_process_rows_events page geolocator rows : ∀ idx data w,
  ∃ out w' events,
    Nominatim.process_rows page geolocator idx rows data w = (out, w')
    ∧ trace w' = trace w ++ events
    ∧ NoDup (requests events)
    ∧ (∀ u, u ∈ requests events
            → ∃ row, row ∈ rows ∧ address_cache w !! Skol_enhetskod row = None
                     ∧ u = school_url (Skol_enhetskod row))
    ∧ (length (queries events) ≤ 8 * length rows)%nat
    ∧ (∀ school_data, out = Ret school_data →
         (∀ row, row ∈ rows → address_cache w !! Skol_enhetskod row = None →
                 school_url (Skol_enhetskod row) ∈ requests events)
         ∧ filter (λ ms, ms = 500) (sleeps events) = replicate (length rows) 500).
Proof.
  induction rows as [|row rest IH]; intros idx data w.
  - exists (Ret data), w, []. rewrite app_nil_r. split_and!; try done.
    + constructor.
    + by intros u ?%elem_of_nil.
    + intros _ _. split; [|done]. by intros row ?%elem_of_nil.
  - destruct (nominatim_process_row_world page geolocator idx row data w)
      as (addr & ev1 & Hev1 & Hrow).
    assert (queries ev1 = [] ∧ sleeps ev1 = []
            ∧ (address_cache w !! Skol_enhetskod row = Some addr ∧ requests ev1 = []
               ∨ address_cache w !! Skol_enhetskod row = None
                 ∧ requests ev1 = [school_url (Skol_enhetskod row)]))
      as (Hq1 & Hs1 & Hr1).
    { destruct Hev1 as [[? ->]|(? & -> & _)]; split_and!; auto. }
    destruct Hrow as [(coords & ev2 & w1 & Hrow & Hac & _ & _ & _ & Htrace
                       & _ & Hr2 & Hq2 & Hs2)|(Hrow & _)].
    + destruct (IH (S idx) (data ++ row_output row addr coords) w1)
        as (out & w' & ev3 & Hrest & Htrace3 & Hnodup & Hreq & Hq3 & Hdone).
      assert (∀ k, address_cache w1 !! k = None
                   ↔ address_cache w !! k = None ∧ Skol_enhetskod row ≠ k) as Hdom.
      { intros k. rewrite Hac. apply lookup_insert_None. }
      exists out, w', ((ev1 ++ ev2 ++ [Sleep 500]) ++ ev3).
      assert (requests (ev1 ++ ev2 ++ [Sleep 500]) = requests ev1) as Hr.
      { by rewrite !requests_app, Hr2, app_nil_r. }
      split_and!.
      * cbn [Nominatim.process_rows]. by rewrite (bind_ret _ _ w _ w1 Hrow).
      * by rewrite Htrace3, Htrace, <- !app_assoc.
      * rewrite requests_app, Hr. destruct Hr1 as [[_ ->]|[Hmiss ->]]; [done|].
        cbn [app]. constructor; [|done].
        intros (r & _ & Hnone & Heq%school_url_inj)%Hreq.
        apply Hdom in Hnone as [_ Hne]. congruence.
      * intros u. rewrite requests_app, Hr, elem_of_app.
        intros [Hin|(r & Hin & Hnone & ->)%Hreq].
        -- destruct Hr1 as [[_ Hnil]|[Hmiss Hone]]; rewrite ?Hnil, ?Hone in Hin.
           ++ by apply elem_of_nil in Hin.
           ++ apply list_elem_of_singleton in Hin as ->. exists row.
              split_and!; [by left|done..].
        -- exists r. split_and!; [by right| |done]. by apply Hdom in Hnone as [? _].
      * rewrite !queries_app, Hq1, !length_app. simpl. lia.
      * intros school_data ->. destruct (Hdone school_data eq_refl) as [Hall Hsleeps].
        split.
        -- intros r [->|Hin]%elem_of_cons Hnone; rewrite requests_app, Hr, elem_of_app.
           ++ left. destruct Hr1 as [[Hhit _]|[_ ->]]; [congruence|]. by left.
           ++ destruct (decide (Skol_enhetskod row = Skol_enhetskod r)) as [Heq|Hne].
              ** left. destruct Hr1 as [[Hhit _]|[_ ->]]; [congruence|].
                 rewrite Heq. by left.
              ** right. apply Hall; [done|]. by apply Hdom.
        -- rewrite !sleeps_app, Hs1, !list.filter_app, Hsleeps.
           by rewrite (filter_half_second _ Hs2).
    + eexists (Raise IndexError), _, ev1. split_and!.
      * cbn [Nominatim.process_rows]. by rewrite (bind_raise _ _ w _ _ Hrow).
      * done.
      * destruct Hr1 as [[_ ->]|[_ ->]]; [constructor|apply NoDup_singleton].
      * intros u Hin. destruct Hr1 as [[_ Hnil]|[Hmiss Hone]]; rewrite ?Hnil, ?Hone in Hin.
        -- by apply elem_of_nil in Hin.
        -- apply list_elem_of_singleton in Hin as ->. exists row.
           split_and!; [by left|done..].
      * rewrite Hq1. simpl. lia.
      * done.
Qed.



(** The traffic of a run of the Nominatim script.  Of what a run adds
    to the trace, whether it completes or not: no school page is
    requested twice, every request is for a row whose identifier was
    not in the address cache at the start, and there are at most eight
    geocoder queries per row.  When the run completes, every such
    identifier was requested, and the trace has exactly one sleep of
    half a second for each row, cached or not. *)
Theorem nominatim_run_traffic page geolocator rows w :
  ∃ out w' events,
    Nominatim.resolve_all page geolocator rows w = (out, w')
    ∧ trace w' = trace w ++ events
    ∧ NoDup (requests events)
    ∧ (∀ u, u ∈ requests events
            → ∃ row, row ∈ rows ∧ address_cache w !! Skol_enhetskod row = None
                     ∧ u = school_url (Skol_enhetskod row))
    ∧ (length (queries events) ≤ 8 * length rows)%nat
    ∧ (∀ school_data, out = Ret school_data →
         (∀ row, row ∈ rows → address_cache w !! Skol_enhetskod row = None →
                 school_url (Skol_enhetskod row) ∈ requests events)
         ∧ filter (λ ms, ms = 500) (sleeps events) = replicate (length rows) 500).
Proof.
  destruct (nominatim_process_rows_events page geolocator rows 0 [] w)
    as (out & w1 & events & Hrun & Htrace & Hrest).
  unfold Nominatim.resolve_all. destruct out as [school_data|e].
  - exists (Ret school_data), ((save_address_cache;; save_coord_cache) w1).2, events.
    rewrite (bind_ret _ _ w _ w1 Hrun). rewrite save_caches_effect. done.
  - exists (Raise e), w1, events. by rewrite (bind_raise _ _ w _ _ Hrun).
Qed.

(** The caches only grow.  In a run of either script, completed or
    not, every key that was in a cache at the start is there at the
    end with the value it had: an address, coordinates or a recorded
    failure is never replaced or dropped, so what failed once is not
    tried again.  The trace is only extended, and no file other than
    the two cache files is written. *)
Theorem caches_only_grow page rows w :
  (∀ gmaps, ∃ out w',
      GoogleMaps.resolve_all page gmaps rows w = (out, w')
      ∧ address_cache w ⊆ address_cache w' ∧ coord_cache w ⊆ coord_cache w'
      ∧ (∃ events, trace w' = trace w ++ events)
      ∧ (∀ path, path ≠ address_file → path ≠ coord_file →
                 files w' !! path = files w !! path))
  ∧ (∀ geolocator, ∃ out w',
      Nominatim.resolve_all page geolocator rows w = (out, w')
      ∧ address_cache w ⊆ address_cache w' ∧ coord_cache w ⊆ coord_cache w'
      ∧ (∃ events, trace w' = trace w ++ events)
      ∧ (∀ path, path ≠ address_file → path ≠ coord_file →
                 files w' !! path = files w !! path)).
Proof.
  split.
  - intros gmaps.
    destruct (google_resolve_all_settles page gmaps rows w)
      as (w' & Hrun & Hac & Hcc & _ & _ & Hfiles).
    destruct (google_process_rows_events page gmaps rows 0 [] w)
      as (out & w1 & events & Hrows & Htrace & _).
    exists (Ret (rows ≫= cached_output w')), w'. split_and!; [done..| |done].
    exists events.
    assert (GoogleMaps.resolve_all page gmaps rows w
            = (Ret out, ((save_address_cache;; save_coord_cache) w1).2)) as Hsave.
    { unfold GoogleMaps.resolve_all. rewrite (bind_ret _ _ w _ w1 Hrows).
      by rewrite save_caches_effect. }
    rewrite Hsave in Hrun. injection Hrun as _ <-. exact Htrace.
  - intros geolocator.
    destruct (nominatim_resolve_all_outcome page geolocator (λ _ _, True) rows w)
      as (out & w' & Hrun & Hac & Hcc & _ & Hfiles & Htrace & _); [done..|].
    by exists out, w'.
Qed.

End NominatimEventFacts.



(** ** Starting a script *)

Section StartupFacts.
Context {num : Type} `{!NumCodec num}.








End StartupFacts.


(** ** The key of the coordinate cache *)

Lemma bar_split (x y m m' : pystr) :
  124 ∉ x → 124 ∉ y → x ++ 124 :: m = y ++ 124 :: m' → x = y ∧ m = m'.
Proof.
  revert y. induction x as [|c x IH]; intros [|d y] Hx Hy Heq; simpl in Heq.
  - by injection Heq as ->.
  - injection Heq as <- _. destruct Hy. by left.
  - injection Heq as -> _. destruct Hx. by left.
  - injection Heq as -> Heq. destruct (IH y) as [-> ->]; [| |done|done].
    + intros Hin. apply Hx. by right.
    + intros Hin. apply Hy. by right.
Qed.

Section CacheKeyFacts.
Context {num : Type} `{!NumCodec num}.

(** The key of the coordinate cache.  Two calls of [geocode_address]
    share their cache entry exactly when their keys are equal: after a
    call for one address and municipality, a call for any pair with the
    same key is answered from the cache, with the same result and no
    query, in both scripts.  When neither address (nor, for a missing
    address, the word "None") contains a vertical bar, equal keys mean
    the same address text and the same municipality; but a missing
    address, the empty address and the address "None" always share
    their key. *)
Theorem cache_key_sharing (addr : option pystr) (town : pystr) (w : world num) :
  (∀ gmaps, ∃ coords w1,
      GoogleMaps.geocode_address gmaps addr town w = (Ret coords, w1)
      ∧ ∀ gmaps' addr' town',
          cache_key addr' town' = cache_key addr town →
          GoogleMaps.geocode_address gmaps' addr' town' w1 = (Ret coords, w1))
  ∧ (∀ geolocator coords w1,
      Nominatim.geocode_address geolocator addr town w = (Ret coords, w1) →
      ∀ geolocator' addr' town',
        cache_key addr' town' = cache_key addr town →
        Nominatim.geocode_address geolocator' addr' town' w1 = (Ret coords, w1))
  ∧ (∀ addr' town',
      124 ∉ py_or addr (str "None") → 124 ∉ py_or addr' (str "None") →
      (cache_key addr' town' = cache_key addr town
       ↔ py_or addr' (str "None") = py_or addr (str "None") ∧ town' = town))
  ∧ cache_key None town = cache_key (Some []) town
  ∧ cache_key None town = cache_key (Some (str "None")) town.
Proof.
  split_and!.
  - intros gmaps.
    destruct (google_geocode_world gmaps addr town w) as (coords & asked & Hrun & _).
    eexists coords, _. split; [exact Hrun|].
    intros gmaps' addr' town' Hkey. apply google_geocode_hit.
    cbn [coord_cache]. rewrite Hkey. apply lookup_insert_eq.
  - intros geolocator coords w1 Hrun geolocator' addr' town' Hkey.
    destruct (nominatim_geocode_world geolocator addr town w)
      as [(coords' & events & Hrun' & _)|(Hraise & _)]; [|congruence].
    rewrite Hrun in Hrun'. injection Hrun' as <- ->.
    apply nominatim_geocode_hit. cbn [coord_cache]. rewrite Hkey. apply lookup_insert_eq.
  - intros addr' town' Hbar Hbar'. unfold cache_key. split.
    + intros Heq. by apply bar_split in Heq.
    + by intros [-> ->].
  - done.
  - done.
Qed.

End CacheKeyFacts.

(** An address with a vertical bar: "A|B" in "C" and "A" in "B|C" have
    one key, so the second is answered with the coordinates of the
    first. *)
Lemma cache_key_sharing_witness :
  ∃ coords w1,
    GoogleMaps.geocode_address (gmaps_table [(str "A|B, C, Sweden", stockholm)])
      (Some (str "A|B")) (str "C") empty_world = (Ret (Some coords), w1)
    ∧ GoogleMaps.geocode_address (gmaps_table []) (Some (str "A")) (str "B|C") w1
      = (Ret (Some coords), w1).
Proof.
  destruct (cache_key_sharing (Some (str "A|B")) (str "C") empty_world) as [Hshare _].
  destruct (Hshare (gmaps_table [(str "A|B, C, Sweden", stockholm)]))
    as (coords & w1 & Hrun & Hsame).
  pose proof Hrun as Hvalue. vm_compute in Hvalue.
  injection Hvalue as Hcoords _. subst coords.
  eexists _, w1. split; [exact Hrun|].
  apply Hsame. reflexivity.
Defined.

(** ** The records of a run *)

Section RecordFacts.
Context {num : Type} `{!NumCodec num}.
Implicit Types (w : world num) (row : school_row num) (data : list (school_entry num)).

Lemma cached_output_record w row :
  settled w row →
  (∃ e, cached_output w row = [e] ∧ record_of w row e)
  ∨ (cached_output w row = [] ∧ not_located w row).
Proof.
  intros (addr & coords & Haddr & Hcoords). unfold cached_output.
  rewrite Haddr, Hcoords. destruct coords as [[lat lng]|]; simpl.
  - left. eexists. split; [done|]. by exists addr.
  - right. split; [done|]. by exists addr.
Qed.

Lemma cached_outputs_records w rows :
  (∀ row, row ∈ rows → settled w row) →
  records_of_rows w rows (rows ≫= cached_output w).
Proof.
  induction rows as [|row rest IH]; intros Hset.
  - exists []. split_and!; [done|constructor|]. by intros row ?%elem_of_nil.
  - destruct IH as (kept & Hsub & Hall & Hrest).
    { intros r Hr. apply Hset. by right. }
    cbn [mbind list_bind].
    destruct (cached_output_record w row (Hset row ltac:(left)))
      as [(e & -> & He)|[-> Hnone]].
    + exists (row :: kept). split_and!.
      * by apply sublist_skip.
      * by constructor.
      * intros r [->|Hin]%elem_of_cons; [left; by left|].
        destruct (Hrest r Hin) as [?|?]; [left; by right|by right].
    + exists kept. split_and!.
      * by apply sublist_cons.
      * done.
      * intros r [->|Hin]%elem_of_cons; [by right|]. by apply Hrest.
Qed.

Lemma record_of_agree w row1 row2 e1 e2 :
  record_of w row1 e1 → record_of w row2 e2 →
  Skol_enhetskod row1 = Skol_enhetskod row2 → Skolkommun row1 = Skolkommun row2 →
  address e1 = address e2 ∧ latitude e1 = latitude e2 ∧ longitude e1 = longitude e2.
Proof.
  intros (a1 & Ha1 & Hc1 & He1) (a2 & Ha2 & Hc2 & He2) Hid Htown.
  rewrite Hid, Ha2 in Ha1. injection Ha1 as <-.
  rewrite Htown, Hc2 in Hc1. injection Hc1 as Hlat Hlng.
  rewrite He1, He2. cbn [address]. by rewrite Htown.
Qed.

Lemma records_agree w rows data e1 e2 :
  records_of_rows w rows data → e1 ∈ data → e2 ∈ data →
  school_id e1 = school_id e2 → municipality e1 = municipality e2 →
  address e1 = address e2 ∧ latitude e1 = latitude e2 ∧ longitude e1 = longitude e2.
Proof.
  intros (kept & _ & Hall & _) Hin1 Hin2 Hid Htown.
  assert (∀ e, e ∈ data → ∃ row, record_of w row e) as Hrow.
  { intros e (i & Hi)%list_elem_of_lookup.
    destruct (Forall2_lookup_r _ _ _ _ _ Hall Hi) as (row & _ & Hrec). eauto. }
  destruct (Hrow e1 Hin1) as (row1 & Hrec1). destruct (Hrow e2 Hin2) as (row2 & Hrec2).
  apply (record_of_agree w row1 row2); [done..| |].
  - destruct Hrec1 as (? & _ & _ & He1). destruct Hrec2 as (? & _ & _ & He2).
    rewrite He1, He2 in Hid. exact Hid.
  - destruct Hrec1 as (? & _ & _ & He1). destruct Hrec2 as (? & _ & _ & He2).
    rewrite He1, He2 in Htown. exact Htown.
Qed.

(** The records of a run.  When a run of either script returns
    [school_data], with the caches as they are at its end: the records
    come in the order of the rows, at most one for a row; each carries
    its row's identifier, name, municipality and merit value, the
    cached address of the school (the municipality when there is none)
    and the coordinates the cache holds for that address; the rows
    without a record are those whose geocoding is cached as failed.
    Two records with the same identifier and municipality have the same
    address and the same coordinates. *)
Theorem run_records page rows w school_data w' :
  (∀ gmaps,
      GoogleMaps.resolve_all page gmaps rows w = (Ret school_data, w') →
      records_of_rows w' rows school_data
      ∧ ∀ e1 e2, e1 ∈ school_data → e2 ∈ school_data →
                 school_id e1 = school_id e2 → municipality e1 = municipality e2 →
                 address e1 = address e2 ∧ latitude e1 = latitude e2
                 ∧ longitude e1 = longitude e2)
  ∧ (∀ geolocator,
      Nominatim.resolve_all page geolocator rows w = (Ret school_data, w') →
      records_of_rows w' rows school_data
      ∧ ∀ e1 e2, e1 ∈ school_data → e2 ∈ school_data →
                 school_id e1 = school_id e2 → municipality e1 = municipality e2 →
                 address e1 = address e2 ∧ latitude e1 = latitude e2
                 ∧ longitude e1 = longitude e2).
Proof.
  assert (∀ rows w school_data,
             school_data = rows ≫= cached_output w →
             (∀ row, row ∈ rows → settled w row) →
             records_of_rows w rows school_data
             ∧ ∀ e1 e2, e1 ∈ school_data → e2 ∈ school_data →
                        school_id e1 = school_id e2 → municipality e1 = municipality e2 →
                        address e1 = address e2 ∧ latitude e1 = latitude e2
                        ∧ longitude e1 = longitude e2) as Hshape.
  { clear. intros rows w school_data -> Hset.
    pose proof (cached_outputs_records w rows Hset) as Hrec.
    split; [done|]. intros e1 e2. by apply (records_agree w rows). }
  split.
  - intros gmaps Hrun.
    destruct (google_resolve_all_settles page gmaps rows w) as (w1 & Hrun1 & _ & _ & Hset & _).
    rewrite Hrun in Hrun1. injection Hrun1 as -> <-. by apply Hshape.
  - intros geolocator Hrun.
    destruct (nominatim_resolve_all_outcome page geolocator (λ _ _, True) rows w)
      as (out & w1 & Hrun1 & _ & _ & _ & _ & _ & Hout); [done..|].
    rewrite Hrun in Hrun1. injection Hrun1 as <- <-.
    destruct Hout as (-> & Hset & _). by apply Hshape.
Qed.

End RecordFacts.

(** The run on two schools of which the second has no page: two
    records, the second at its municipality. *)
Lemma run_records_witness :
  ∃ school_data w',
    GoogleMaps.resolve_all one_page (gmaps_table known_places) [test_row; other_row]
      keyed_world = (Ret school_data, w')
    ∧ records_of_rows w' [test_row; other_row] school_data.
Proof.
  pose (r := GoogleMaps.resolve_all one_page (gmaps_table known_places)
               [test_row; other_row] keyed_world).
  pose (school_data := match r.1 with Ret d => d | Raise _ => [] end).
  assert (GoogleMaps.resolve_all one_page (gmaps_table known_places) [test_row; other_row]
            keyed_world = (Ret school_data, r.2)) as Hrun by (vm_compute; reflexivity).
  exists school_data, r.2. split; [exact Hrun|].
  destruct (run_records one_page [test_row; other_row] keyed_world school_data r.2)
    as [Hgoogle _].
  by destruct (Hgoogle (gmaps_table known_places) Hrun).
Defined.

(** The line scan on a page whose first label is followed by a line
    that is too short. *)
Lemma line_scan_takes_first_pair_witness :
  ∃ i, address_pair [str "Adress"; str "x"; str " Adress "; str " Kungsgatan 10 "] i
         (str "Kungsgatan 10")
       ∧ ∀ j b, (j < i)%nat →
                ¬ address_pair [str "Adress"; str "x"; str " Adress "; str " Kungsgatan 10 "]
                    j b.
Proof.
  apply (proj1 (line_scan_takes_first_pair
                  [str "Adress"; str "x"; str " Adress "; str " Kungsgatan 10 "])).
  vm_compute. reflexivity.
Defined.

(** A first run of the Nominatim script on one school: one page
    request and one sleep of half a second. *)
Lemma nominatim_run_traffic_witness :
  ∃ events,
    trace first_nominatim_run.2 = events
    ∧ school_url (str "12345") ∈ requests events
    ∧ filter (λ ms, ms = 500) (sleeps events) = [500].
Proof.
  destruct (nominatim_run_traffic (page_text school_page) (nominatim_table known_places)
              [test_row] empty_world)
    as (out & w' & events & Hrun & Htrace & _ & _ & _ & Hdone).
  assert (∃ school_data, out = Ret school_data) as [school_data ->].
  { pose proof Hrun as Hvalue. vm_compute in Hvalue.
    injection Hvalue as Hout _. rewrite <- Hout. eauto. }
  destruct (Hdone school_data eq_refl) as [Hall Hsleeps].
  exists events. split_and!.
  - unfold first_nominatim_run. rewrite Hrun. cbn [snd]. rewrite Htrace. reflexivity.
  - apply (Hall test_row); [by left|reflexivity].
  - exact Hsleeps.
Defined.

(** ** The periodic saves *)

Section PeriodicSaveFacts.
Context {num : Type} `{!NumCodec num}.
Implicit Types (w : world num) (row : school_row num) (data : list (school_entry num)).




End PeriodicSaveFacts.

